(** * Alternating linear schemes for TT systems of linear equations

    A shallow embedding of [scikit_tt/solvers/sle.py]: the two sweep
    drivers [als] and [mals], the four stack builders, the micro-system
    assemblers and the two core updates.

    Python objects live in a store; exceptions are results; the dense
    linear algebra of numpy/scipy is an interface ([Numerics]) whose
    shape discipline is written out and whose floating-point content is
    left to the instance. *)

From Stdlib Require Import ZArith QArith Lia.
From stdpp Require Import base list strings.

Local Open Scope Z_scope.

(* ================================================================= *)
(** * Python values: exceptions, list indexing, ranges *)

Inductive exn : Type :=
  | IndexError
  | TypeError
  | ValueError
  | LinAlgError.

Inductive res (A : Type) : Type :=
  | Ok (a : A)
  | Raise (e : exn).
Arguments Ok {A} a.
Arguments Raise {A} e.

Definition res_bind {A B} (r : res A) (f : A -> res B) : res B :=
  match r with
  | Ok a => f a
  | Raise e => Raise e
  end.

(** [l[i]] for a Python int [i]: negative indices count from the end,
    anything else out of range raises [IndexError]. *)
Definition py_index {A} (l : list A) (i : Z) : option nat :=
  let n := Z.of_nat (length l) in
  if (0 <=? i) && (i <? n) then Some (Z.to_nat i)
  else if (- n <=? i) && (i <? 0) then Some (Z.to_nat (n + i))
  else None.

Definition py_get {A} (l : list A) (i : Z) : res A :=
  match py_index l i with
  | Some k =>
      match l !! k with
      | Some x => Ok x
      | None => Raise IndexError
      end
  | None => Raise IndexError
  end.

Definition py_set {A} (l : list A) (i : Z) (x : A) : res (list A) :=
  match py_index l i with
  | Some k => Ok (<[k:=x]> l)
  | None => Raise IndexError
  end.

(** [range(lo, hi)] and [range(hi, lo, -1)]. *)
Definition range_up (lo hi : Z) : list Z :=
  map (fun k => lo + Z.of_nat k) (seq 0 (Z.to_nat (hi - lo))).

Definition range_down (hi lo : Z) : list Z :=
  map (fun k => hi - Z.of_nat k) (seq 0 (Z.to_nat (hi - lo))).

(** [l[:stop]] keeps this many leading elements. *)
Definition py_slice_stop (len : nat) (stop : Z) : nat :=
  if stop <? 0 then Z.to_nat (Z.of_nat len + stop)
  else Nat.min len (Z.to_nat stop).

(* ================================================================= *)
(** * Dense arrays *)

(** An array is its shape and its element buffer in row-major order. *)
Record ndarray (D : Type) : Type := NdArray {
  shape : list nat;
  data : D
}.
Arguments NdArray {D} shape data.
Arguments shape {D} n.
Arguments data {D} n.

(** The [(lu, piv)] pair returned by [lu_factor]. *)
Record lu_piv (L : Type) : Type := LuPiv {
  lu_n : nat;
  lu_data : L
}.
Arguments LuPiv {L} lu_n lu_data.
Arguments lu_n {L} l.
Arguments lu_data {L} l.

(** The numerical content of numpy and scipy.linalg. Shapes, argument
    checks and exceptions are fixed below; what an instance chooses is
    the element type, the buffers the primitives compute and when a
    solve or an SVD fails numerically. *)
Class Numerics : Type := {
  D : Type;
  F : Type;
  L : Type;
  d_one : D;
  d_none : D;
  d_tensordot : ndarray D -> ndarray D -> list nat -> list nat -> D;
  d_index0 : ndarray D -> D;
  d_transpose : ndarray D -> list nat -> D;
  d_np_solve : ndarray D -> ndarray D -> option D;
  d_la_solve : ndarray D -> ndarray D -> option D;
  d_lu_factor : ndarray D -> L;
  d_lu_solve : lu_piv L -> ndarray D -> D;
  d_qr : ndarray D -> D;
  d_rq : ndarray D -> D;
  d_svd : ndarray D -> option (D * (nat -> F) * D);
  d_take_cols : ndarray D -> list nat -> D;
  d_take_rows : ndarray D -> list nat -> D;
  d_diag : list F -> D;
  d_matmul : ndarray D -> ndarray D -> D;
  f_div : F -> F -> F;
  f_gt : F -> F -> bool;
  f_is_zero : F -> bool
}.

(** [max_rank] is an int or [np.infty]. *)
Inductive rank_cap : Type :=
  | np_infty
  | cap (k : Z).

Section Numpy.
Context `{Numerics}.

Abbreviation array := (ndarray D).

Definition size_of (s : list nat) : nat := foldr Nat.mul 1%nat s.

(** [np.array([1], ndmin=k)] *)
Definition np_ones_ndmin (k : nat) : array :=
  NdArray (replicate k 1%nat) d_one.

(** A stack slot still holding [None] reaches numpy as a 0-d object
    array. *)
Definition asarray (x : option array) : array :=
  match x with
  | Some a => a
  | None => NdArray [] d_none
  end.

(** The axis check of [np.tensordot]: the paired axes are looked up in
    turn (an axis that does not exist is an [IndexError]) and compared;
    the first disagreement ends the loop. *)
Fixpoint td_check (sa sb axes_a axes_b : list nat) : res bool :=
  match axes_a, axes_b with
  | a :: axes_a', b :: axes_b' =>
      match sa !! a with
      | None => Raise IndexError
      | Some da =>
          match sb !! b with
          | None => Raise IndexError
          | Some db =>
              if Nat.eqb da db then td_check sa sb axes_a' axes_b'
              else Ok false
          end
      end
  | _, _ => Ok true
  end.

(** The axes of [s], counted from [k], that are not contracted. *)
Fixpoint free_axes (k : nat) (s axes : list nat) : list nat :=
  match s with
  | [] => []
  | d :: s' =>
      if existsb (Nat.eqb k) axes then free_axes (S k) s' axes
      else d :: free_axes (S k) s' axes
  end.

Definition tensordot (a b : array) (axes_a axes_b : list nat) : res array :=
  if negb (Nat.eqb (length axes_a) (length axes_b)) then Raise ValueError
  else
    match td_check (shape a) (shape b) axes_a axes_b with
    | Raise e => Raise e
    | Ok false => Raise ValueError
    | Ok true =>
        Ok (NdArray (free_axes 0 (shape a) axes_a ++ free_axes 0 (shape b) axes_b)
                    (d_tensordot a b axes_a axes_b))
    end.

(** [a[:, :, 0, :]] *)
Definition index0 (a : array) : res array :=
  match shape a with
  | s0 :: s1 :: s2 :: s3 :: rest =>
      if Nat.eqb s2 0 then Raise IndexError
      else Ok (NdArray (s0 :: s1 :: s3 :: rest) (d_index0 a))
  | _ => Raise IndexError
  end.

Definition is_permutation (p : list nat) (n : nat) : bool :=
  Nat.eqb (length p) n
  && forallb (fun k => existsb (Nat.eqb k) p) (seq 0 n).

(** [a.transpose(axes)] *)
Definition transpose (a : array) (axes : list nat) : res array :=
  if is_permutation axes (length (shape a)) then
    Ok (NdArray (map (fun k => nth k (shape a) 0%nat) axes) (d_transpose a axes))
  else Raise ValueError.

(** [a.reshape(dims)]: the buffer is kept, read in row-major order. *)
Definition reshape (a : array) (dims : list nat) : res array :=
  if Nat.eqb (size_of dims) (size_of (shape a)) then Ok (NdArray dims (data a))
  else Raise ValueError.

(** [a.shape[k]] *)
Definition shape_at (a : array) (k : nat) : res nat :=
  match shape a !! k with
  | Some d => Ok d
  | None => Raise IndexError
  end.

(** [np.linalg.solve(a, b)] and [scipy.linalg.solve(a, b)] on 2-d
    operands: a square matrix, a right-hand side with as many rows, and
    a [LinAlgError] when the matrix is singular. *)
Definition solve_with (d : array -> array -> option D) (bad_a : exn)
    (a b : array) : res array :=
  match shape a with
  | [m; n] =>
      if negb (Nat.eqb m n) then Raise bad_a
      else
        match shape b with
        | [m'; k] =>
            if negb (Nat.eqb m m') then Raise ValueError
            else
              match d a b with
              | Some x => Ok (NdArray [m; k] x)
              | None => Raise LinAlgError
              end
        | _ => Raise ValueError
        end
  | _ => Raise bad_a
  end.

Definition np_linalg_solve : array -> array -> res array :=
  solve_with d_np_solve LinAlgError.

Definition la_solve : array -> array -> res array :=
  solve_with d_la_solve ValueError.

(** [la.lu_factor(a)]: a singular matrix only warns. *)
Definition la_lu_factor (a : array) : res (lu_piv L) :=
  match shape a with
  | [m; n] =>
      if Nat.eqb m n then Ok (LuPiv m (d_lu_factor a))
      else Raise ValueError
  | _ => Raise ValueError
  end.

(** [la.lu_solve(lu, b, trans=0)] *)
Definition la_lu_solve (lu : lu_piv L) (b : array) : res array :=
  match shape b with
  | [m; k] =>
      if Nat.eqb (lu_n lu) m then Ok (NdArray [m; k] (d_lu_solve lu b))
      else Raise ValueError
  | _ => Raise ValueError
  end.

(** [la.qr(a, mode='economic')[0]]: Q is M x min(M, N). *)
Definition la_qr (a : array) : res array :=
  match shape a with
  | [m; n] => Ok (NdArray [m; Nat.min m n] (d_qr a))
  | _ => Raise ValueError
  end.

(** [la.rq(a, mode='economic')[1]]: Q is min(M, N) x N. *)
Definition la_rq (a : array) : res array :=
  match shape a with
  | [m; n] => Ok (NdArray [Nat.min m n; n] (d_rq a))
  | _ => Raise ValueError
  end.

(** [la.svd(a, full_matrices=False)]: U is M x K, s has K entries and Vh
    is K x N, with K = min(M, N). *)
Definition la_svd (a : array) : res (array * list F * array) :=
  match shape a with
  | [m; n] =>
      match d_svd a with
      | Some (u, s, v) =>
          let k := Nat.min m n in
          Ok (NdArray [m; k] u, map s (seq 0 k), NdArray [k; n] v)
      | None => Raise LinAlgError
      end
  | _ => Raise ValueError
  end.

(** [np.where(s / s[0] > threshold)[0]] *)
Fixpoint where_gt (k : nat) (s : list F) (s0 threshold : F) : list nat :=
  match s with
  | [] => []
  | x :: s' =>
      if f_gt (f_div x s0) threshold then k :: where_gt (S k) s' s0 threshold
      else where_gt (S k) s' s0 threshold
  end.

Definition np_where_ratio (s : list F) (threshold : F) : res (list nat) :=
  match s with
  | [] => Raise IndexError
  | s0 :: _ => Ok (where_gt 0 s s0 threshold)
  end.

(** [s[indices]] *)
Fixpoint take_list (s : list F) (indices : list nat) : res (list F) :=
  match indices with
  | [] => Ok []
  | k :: ks =>
      match s !! k with
      | None => Raise IndexError
      | Some x => res_bind (take_list s ks) (fun r => Ok (x :: r))
      end
  end.

(** [u[:, indices]] *)
Definition take_cols (u : array) (indices : list nat) : res array :=
  match shape u with
  | [m; k] =>
      if forallb (fun j => Nat.ltb j k) indices
      then Ok (NdArray [m; length indices] (d_take_cols u indices))
      else Raise IndexError
  | _ => Raise IndexError
  end.

(** [v[indices, :]] *)
Definition take_rows (v : array) (indices : list nat) : res array :=
  match shape v with
  | [k; n] =>
      if forallb (fun j => Nat.ltb j k) indices
      then Ok (NdArray [length indices; n] (d_take_rows v indices))
      else Raise IndexError
  | _ => Raise IndexError
  end.

(** [u[:, :stop]], [s[:stop]] and [v[:stop, :]] *)
Definition slice_cols (u : array) (stop : Z) : res array :=
  match shape u with
  | [m; k] =>
      let c := py_slice_stop k stop in
      Ok (NdArray [m; c] (d_take_cols u (seq 0 c)))
  | _ => Raise IndexError
  end.

Definition slice_list (s : list F) (stop : Z) : list F :=
  take (py_slice_stop (length s) stop) s.

Definition slice_rows (v : array) (stop : Z) : res array :=
  match shape v with
  | [k; n] =>
      let c := py_slice_stop k stop in
      Ok (NdArray [c; n] (d_take_rows v (seq 0 c)))
  | _ => Raise IndexError
  end.

(** [np.diag(s)] and [a @ b] *)
Definition np_diag (s : list F) : array :=
  NdArray [length s; length s] (d_diag s).

Definition matmul (a b : array) : res array :=
  match shape a, shape b with
  | [m; k], [k'; n] =>
      if Nat.eqb k k' then Ok (NdArray [m; n] (d_matmul a b))
      else Raise ValueError
  | _, _ => Raise ValueError
  end.

End Numpy.

(* ================================================================= *)
(** * The TT container and the store *)

(** Objects are named by their position in the store. *)
Abbreviation loc := nat (only parsing).

Section Store.
Context `{Numerics}.

Abbreviation array := (ndarray D).

(** An instance of the TT class: [order] is the number of cores. *)
Record TT : Type := MkTT {
  cores : list array;
  ranks : list nat;
  row_dims : list nat;
  col_dims : list nat
}.

Definition order (t : TT) : Z := Z.of_nat (length (cores t)).

Definition with_cores (t : TT) (cs : list array) : TT :=
  MkTT cs (ranks t) (row_dims t) (col_dims t).

Definition with_ranks (t : TT) (rs : list nat) : TT :=
  MkTT (cores t) rs (row_dims t) (col_dims t).

Inductive stack_id : Type :=
  | LeftOp
  | LeftRhs
  | RightOp
  | RightRhs.

(** What a run does, in order; nothing in the program reads it. *)
Inductive event : Type :=
  | EvStack (s : stack_id) (i : Z)
  | EvMicroOp (i : Z)
  | EvMicroRhs (i : Z)
  | EvSolve (i : Z)
  | EvFactor (i : Z).

Record state : Type := MkState {
  heap : list TT;
  stack_left_op : list (option array);
  stack_left_rhs : list (option array);
  stack_right_op : list (option array);
  stack_right_rhs : list (option array);
  log : list event
}.

Definition stack_of (s : stack_id) (st : state) : list (option array) :=
  match s with
  | LeftOp => stack_left_op st
  | LeftRhs => stack_left_rhs st
  | RightOp => stack_right_op st
  | RightRhs => stack_right_rhs st
  end.

Definition with_stack (s : stack_id) (l : list (option array)) (st : state) : state :=
  match s with
  | LeftOp =>
      MkState (heap st) l (stack_left_rhs st) (stack_right_op st) (stack_right_rhs st) (log st)
  | LeftRhs =>
      MkState (heap st) (stack_left_op st) l (stack_right_op st) (stack_right_rhs st) (log st)
  | RightOp =>
      MkState (heap st) (stack_left_op st) (stack_left_rhs st) l (stack_right_rhs st) (log st)
  | RightRhs =>
      MkState (heap st) (stack_left_op st) (stack_left_rhs st) (stack_right_op st) l (log st)
  end.

Definition with_heap (h : list TT) (st : state) : state :=
  MkState h (stack_left_op st) (stack_left_rhs st) (stack_right_op st)
          (stack_right_rhs st) (log st).

Definition with_log (l : list event) (st : state) : state :=
  MkState (heap st) (stack_left_op st) (stack_left_rhs st) (stack_right_op st)
          (stack_right_rhs st) l.

(** Statements: a state transformer that returns or raises; the state
    reached is kept in both cases. *)
Definition M (A : Type) : Type := state -> state * res A.

Definition ret {A} (a : A) : M A := fun st => (st, Ok a).

Definition bind {A B} (m : M A) (f : A -> M B) : M B :=
  fun st =>
    match m st with
    | (st', Ok a) => f a st'
    | (st', Raise e) => (st', Raise e)
    end.

Definition lift {A} (r : res A) : M A := fun st => (st, r).

Definition tick (e : event) : M unit :=
  fun st => (with_log (log st ++ [e]) st, Ok tt).

(** [for i in l: body(i)] *)
Fixpoint for_ {A} (l : list A) (body : A -> M unit) : M unit :=
  match l with
  | [] => ret tt
  | i :: l' => bind (body i) (fun _ => for_ l' body)
  end.

Definition load (t : loc) : M TT :=
  fun st =>
    match heap st !! t with
    | Some o => (st, Ok o)
    | None => (st, Raise TypeError)
    end.

Definition store (t : loc) (o : TT) : M unit :=
  fun st => (with_heap (<[t:=o]> (heap st)) st, Ok tt).

End Store.

Declare Scope py_scope.
Delimit Scope py_scope with py.
Notation "x <- m ;; k" := (bind m (fun x => k))
  (at level 100, m at next level, right associativity) : py_scope.
Notation "m ;; k" := (bind m (fun _ => k))
  (at level 100, right associativity) : py_scope.
Local Open Scope py_scope.

Section Sle.
Context `{Numerics}.

Abbreviation array := (ndarray D).

(** ** Attribute and subscript access on TT objects *)

Definition get_order (t : loc) : M Z :=
  o <- load t ;; ret (order o).

Definition get_core (t : loc) (i : Z) : M array :=
  o <- load t ;; lift (py_get (cores o) i).

Definition get_rank (t : loc) (i : Z) : M nat :=
  o <- load t ;; lift (py_get (ranks o) i).

Definition get_row_dim (t : loc) (i : Z) : M nat :=
  o <- load t ;; lift (py_get (row_dims o) i).

Definition get_col_dim (t : loc) (i : Z) : M nat :=
  o <- load t ;; lift (py_get (col_dims o) i).

Definition set_core (t : loc) (i : Z) (x : array) : M unit :=
  o <- load t ;;
  cs <- lift (py_set (cores o) i x) ;;
  store t (with_cores o cs).

Definition set_rank (t : loc) (i : Z) (r : nat) : M unit :=
  o <- load t ;;
  rs <- lift (py_set (ranks o) i r) ;;
  store t (with_ranks o rs).

Definition get_stack (s : stack_id) (i : Z) : M (option array) :=
  fun st => (st, py_get (stack_of s st) i).

Definition set_stack (s : stack_id) (i : Z) (x : array) : M unit :=
  fun st =>
    match py_set (stack_of s st) i (Some x) with
    | Ok l => (with_stack s l st, Ok tt)
    | Raise e => (st, Raise e)
    end.

(** [stack = [None] * n] *)
Definition new_stack (s : stack_id) (n : Z) : M unit :=
  fun st => (with_stack s (replicate (Z.to_nat n) None) st, Ok tt).

(** Modelled from the spec: [TT.copy()] is not part of the solver module;
    the Chain Tensor contract gives it as an independent deep copy that
    shares no storage with the original, here a new object in the store
    holding the same cores, ranks and mode sizes. *)
Definition tt_copy (t : loc) : M loc :=
  fun st =>
    match heap st !! t with
    | Some o => (with_heap (heap st ++ [o]) st, Ok (length (heap st)))
    | None => (st, Raise TypeError)
    end.

(** [t.cores[i][:, :, 0, :]] *)
Definition get_core0 (t : loc) (i : Z) : M array :=
  c <- get_core t i ;; lift (index0 c).

(** ** Stack builders *)

Definition construct_stack_left_op (i : Z) (operator solution : loc) : M unit :=
  tick (EvStack LeftOp i) ;;
  if i =? 0 then
    set_stack LeftOp i (np_ones_ndmin 3)
  else
    prev <- get_stack LeftOp (i - 1) ;;
    sc <- get_core0 solution (i - 1) ;;
    t <- lift (tensordot (asarray prev) sc [0%nat] [0%nat]) ;;
    set_stack LeftOp i t ;;
    cur <- get_stack LeftOp i ;;
    oc <- get_core operator (i - 1) ;;
    t <- lift (tensordot (asarray cur) oc [0; 2]%nat [0; 2]%nat) ;;
    set_stack LeftOp i t ;;
    cur <- get_stack LeftOp i ;;
    sc <- get_core0 solution (i - 1) ;;
    t <- lift (tensordot (asarray cur) sc [0; 2]%nat [0; 1]%nat) ;;
    set_stack LeftOp i t.

Definition construct_stack_left_rhs (i : Z) (right_hand_side solution : loc) : M unit :=
  tick (EvStack LeftRhs i) ;;
  if i =? 0 then
    set_stack LeftRhs i (np_ones_ndmin 2)
  else
    prev <- get_stack LeftRhs (i - 1) ;;
    rc <- get_core0 right_hand_side (i - 1) ;;
    t <- lift (tensordot (asarray prev) rc [0%nat] [0%nat]) ;;
    set_stack LeftRhs i t ;;
    cur <- get_stack LeftRhs i ;;
    sc <- get_core0 solution (i - 1) ;;
    t <- lift (tensordot (asarray cur) sc [0; 1]%nat [0; 1]%nat) ;;
    set_stack LeftRhs i t.

Definition construct_stack_right_op (i : Z) (operator solution : loc) : M unit :=
  tick (EvStack RightOp i) ;;
  n <- get_order operator ;;
  if i =? n - 1 then
    set_stack RightOp i (np_ones_ndmin 3)
  else
    sc <- get_core0 solution (i + 1) ;;
    next <- get_stack RightOp (i + 1) ;;
    t <- lift (tensordot sc (asarray next) [2%nat] [2%nat]) ;;
    set_stack RightOp i t ;;
    oc <- get_core operator (i + 1) ;;
    cur <- get_stack RightOp i ;;
    t <- lift (tensordot oc (asarray cur) [1; 3]%nat [1; 3]%nat) ;;
    set_stack RightOp i t ;;
    sc <- get_core0 solution (i + 1) ;;
    cur <- get_stack RightOp i ;;
    t <- lift (tensordot sc (asarray cur) [1; 2]%nat [1; 3]%nat) ;;
    set_stack RightOp i t.

Definition construct_stack_right_rhs (i : Z) (right_hand_side solution : loc) : M unit :=
  tick (EvStack RightRhs i) ;;
  n <- get_order right_hand_side ;;
  if i =? n - 1 then
    set_stack RightRhs i (np_ones_ndmin 2)
  else
    sc <- get_core0 solution (i + 1) ;;
    next <- get_stack RightRhs (i + 1) ;;
    t <- lift (tensordot sc (asarray next) [2%nat] [1%nat]) ;;
    set_stack RightRhs i t ;;
    rc <- get_core0 right_hand_side (i + 1) ;;
    cur <- get_stack RightRhs i ;;
    t <- lift (tensordot rc (asarray cur) [1; 2]%nat [1; 2]%nat) ;;
    set_stack RightRhs i t.

(** ** Micro systems *)

Definition construct_micro_matrix_als (i : Z) (operator solution : loc) : M array :=
  tick (EvMicroOp i) ;;
  sl <- get_stack LeftOp i ;;
  oc <- get_core operator i ;;
  m <- lift (tensordot (asarray sl) oc [1%nat] [0%nat]) ;;
  sr <- get_stack RightOp i ;;
  m <- lift (tensordot m (asarray sr) [4%nat] [1%nat]) ;;
  m <- lift (transpose m [1; 2; 5; 0; 3; 4]%nat) ;;
  r0 <- get_rank solution i ;;
  mr <- get_row_dim operator i ;;
  r1 <- get_rank solution (i + 1) ;;
  r0' <- get_rank solution i ;;
  mc <- get_col_dim operator i ;;
  r1' <- get_rank solution (i + 1) ;;
  lift (reshape m [r0 * mr * r1; r0' * mc * r1']%nat).

Definition construct_micro_matrix_mals (i : Z) (operator solution : loc) : M array :=
  tick (EvMicroOp i) ;;
  sl <- get_stack LeftOp i ;;
  oc <- get_core operator i ;;
  m <- lift (tensordot (asarray sl) oc [1%nat] [0%nat]) ;;
  oc' <- get_core operator (i + 1) ;;
  m <- lift (tensordot m oc' [4%nat] [0%nat]) ;;
  sr <- get_stack RightOp (i + 1) ;;
  m <- lift (tensordot m (asarray sr) [6%nat] [1%nat]) ;;
  m <- lift (transpose m [1; 2; 4; 7; 0; 3; 5; 6]%nat) ;;
  r0 <- get_rank solution i ;;
  mr <- get_row_dim operator i ;;
  mr' <- get_row_dim operator (i + 1) ;;
  r2 <- get_rank solution (i + 2) ;;
  r0' <- get_rank solution i ;;
  mc <- get_col_dim operator i ;;
  mc' <- get_col_dim operator (i + 1) ;;
  r2' <- get_rank solution (i + 2) ;;
  lift (reshape m [r0 * mr * mr' * r2; r0' * mc * mc' * r2']%nat).

Definition construct_micro_rhs_als (i : Z) (right_hand_side solution : loc) : M array :=
  tick (EvMicroRhs i) ;;
  sl <- get_stack LeftRhs i ;;
  rc <- get_core0 right_hand_side i ;;
  m <- lift (tensordot (asarray sl) rc [0%nat] [0%nat]) ;;
  sr <- get_stack RightRhs i ;;
  m <- lift (tensordot m (asarray sr) [2%nat] [0%nat]) ;;
  r0 <- get_rank solution i ;;
  mr <- get_row_dim right_hand_side i ;;
  r1 <- get_rank solution (i + 1) ;;
  lift (reshape m [r0 * mr * r1; 1]%nat).

Definition construct_micro_rhs_mals (i : Z) (right_hand_side solution : loc) : M array :=
  tick (EvMicroRhs i) ;;
  sl <- get_stack LeftRhs i ;;
  rc <- get_core0 right_hand_side i ;;
  m <- lift (tensordot (asarray sl) rc [0%nat] [0%nat]) ;;
  rc' <- get_core0 right_hand_side (i + 1) ;;
  m <- lift (tensordot m rc' [2%nat] [0%nat]) ;;
  sr <- get_stack RightRhs (i + 1) ;;
  m <- lift (tensordot m (asarray sr) [3%nat] [0%nat]) ;;
  r0 <- get_rank solution i ;;
  mr <- get_row_dim right_hand_side i ;;
  mr' <- get_row_dim right_hand_side (i + 1) ;;
  r2 <- get_rank solution (i + 2) ;;
  lift (reshape m [r0 * mr * mr' * r2; 1]%nat).

(** ** Core updates *)

Definition update_core_als (i : Z) (micro_op micro_rhs : array) (solution : loc)
    (solver direction : string) : M unit :=
  (if String.eqb solver "solve" then
     tick (EvSolve i) ;;
     x <- lift (np_linalg_solve micro_op micro_rhs) ;;
     set_core solution i x
   else ret tt) ;;
  (if String.eqb solver "lu" then
     tick (EvSolve i) ;;
     lu <- lift (la_lu_factor micro_op) ;;
     x <- lift (la_lu_solve lu micro_rhs) ;;
     set_core solution i x
   else ret tt) ;;
  (if String.eqb direction "forward" then
     c <- get_core solution i ;;
     r0 <- get_rank solution i ;;
     n0 <- get_row_dim solution i ;;
     r1 <- get_rank solution (i + 1) ;;
     a <- lift (reshape c [r0 * n0; r1]%nat) ;;
     tick (EvFactor i) ;;
     q <- lift (la_qr a) ;;
     k <- lift (shape_at q 1) ;;
     set_rank solution (i + 1) k ;;
     r0 <- get_rank solution i ;;
     n0 <- get_row_dim solution i ;;
     r1 <- get_rank solution (i + 1) ;;
     c' <- lift (reshape q [r0; n0; 1; r1]%nat) ;;
     set_core solution i c'
   else ret tt) ;;
  (if String.eqb direction "backward" then
     if 0 <? i then
       c <- get_core solution i ;;
       r0 <- get_rank solution i ;;
       n0 <- get_row_dim solution i ;;
       r1 <- get_rank solution (i + 1) ;;
       a <- lift (reshape c [r0; n0 * r1]%nat) ;;
       tick (EvFactor i) ;;
       q <- lift (la_rq a) ;;
       k <- lift (shape_at q 0) ;;
       set_rank solution i k ;;
       r0 <- get_rank solution i ;;
       n0 <- get_row_dim solution i ;;
       r1 <- get_rank solution (i + 1) ;;
       c' <- lift (reshape q [r0; n0; 1; r1]%nat) ;;
       set_core solution i c'
     else
       c <- get_core solution i ;;
       r0 <- get_rank solution i ;;
       n0 <- get_row_dim solution i ;;
       r1 <- get_rank solution (i + 1) ;;
       c' <- lift (reshape c [r0; n0; 1; r1]%nat) ;;
       set_core solution i c'
   else ret tt).

(** The rank reduction of the forward update, on [u] and [s]. *)
Definition rank_reduction_forward (threshold : F) (max_rank : rank_cap)
    (u : array) (s : list F) : res (array * list F) :=
  res_bind
    (if negb (f_is_zero threshold) then
       res_bind (np_where_ratio s threshold) (fun indices =>
       res_bind (take_cols u indices) (fun u' =>
       res_bind (take_list s indices) (fun s' =>
       Ok (u', s'))))
     else Ok (u, s))
    (fun us =>
       match max_rank with
       | np_infty => Ok us
       | cap k =>
           res_bind (shape_at (fst us) 1) (fun c =>
           res_bind (slice_cols (fst us) (Z.min (Z.of_nat c) k)) (fun u' =>
           Ok (u', slice_list (snd us) (Z.min (Z.of_nat (length (snd us))) k))))
       end).

(** The rank reduction of the backward update, on [u], [s] and [v]. *)
Definition rank_reduction_backward (threshold : F) (max_rank : rank_cap)
    (u : array) (s : list F) (v : array) : res (array * list F * array) :=
  res_bind
    (if negb (f_is_zero threshold) then
       res_bind (np_where_ratio s threshold) (fun indices =>
       res_bind (take_cols u indices) (fun u' =>
       res_bind (take_list s indices) (fun s' =>
       res_bind (take_rows v indices) (fun v' =>
       Ok (u', s', v')))))
     else Ok (u, s, v))
    (fun usv =>
       match max_rank with
       | np_infty => Ok usv
       | cap k =>
           res_bind (shape_at (fst (fst usv)) 1) (fun c =>
           res_bind (slice_cols (fst (fst usv)) (Z.min (Z.of_nat c) k)) (fun u' =>
           let s' := slice_list (snd (fst usv))
                       (Z.min (Z.of_nat (length (snd (fst usv)))) k) in
           res_bind (shape_at (snd usv) 0) (fun r =>
           res_bind (slice_rows (snd usv) (Z.min (Z.of_nat r) k)) (fun v' =>
           Ok (u', s', v')))))
       end).

Definition update_core_mals (i : Z) (micro_op micro_rhs : array) (solution : loc)
    (solver direction : string) (threshold : F) (max_rank : rank_cap) : M unit :=
  (if String.eqb solver "solve" then
     tick (EvSolve i) ;;
     x <- lift (la_solve micro_op micro_rhs) ;;
     set_core solution i x
   else ret tt) ;;
  (if String.eqb solver "lu" then
     tick (EvSolve i) ;;
     lu <- lift (la_lu_factor micro_op) ;;
     x <- lift (la_lu_solve lu micro_rhs) ;;
     set_core solution i x
   else ret tt) ;;
  (if String.eqb direction "forward" then
     c <- get_core solution i ;;
     r0 <- get_rank solution i ;;
     n0 <- get_row_dim solution i ;;
     n1 <- get_row_dim solution (i + 1) ;;
     r2 <- get_rank solution (i + 2) ;;
     a <- lift (reshape c [r0 * n0; n1 * r2]%nat) ;;
     tick (EvFactor i) ;;
     usv <- lift (la_svd a) ;;
     us <- lift (rank_reduction_forward threshold max_rank
                   (fst (fst usv)) (snd (fst usv))) ;;
     set_rank solution (i + 1) (length (snd us)) ;;
     r0 <- get_rank solution i ;;
     n0 <- get_row_dim solution i ;;
     r1 <- get_rank solution (i + 1) ;;
     c' <- lift (reshape (fst us) [r0; n0; 1; r1]%nat) ;;
     set_core solution i c'
   else ret tt) ;;
  (if String.eqb direction "backward" then
     c <- get_core solution i ;;
     r0 <- get_rank solution i ;;
     n0 <- get_row_dim solution i ;;
     n1 <- get_row_dim solution (i + 1) ;;
     r2 <- get_rank solution (i + 2) ;;
     a <- lift (reshape c [r0 * n0; n1 * r2]%nat) ;;
     tick (EvFactor i) ;;
     usv <- lift (la_svd a) ;;
     usv' <- lift (rank_reduction_backward threshold max_rank
                     (fst (fst usv)) (snd (fst usv)) (snd usv)) ;;
     set_rank solution (i + 1) (length (snd (fst usv'))) ;;
     r1 <- get_rank solution (i + 1) ;;
     n1 <- get_row_dim solution (i + 1) ;;
     r2 <- get_rank solution (i + 2) ;;
     c1 <- lift (reshape (snd usv') [r1; n1; 1; r2]%nat) ;;
     set_core solution (i + 1) c1 ;;
     if i =? 0 then
       us <- lift (matmul (fst (fst usv')) (np_diag (snd (fst usv')))) ;;
       r0 <- get_rank solution i ;;
       n0 <- get_row_dim solution i ;;
       r1 <- get_rank solution (i + 1) ;;
       c0 <- lift (reshape us [r0; n0; 1; r1]%nat) ;;
       set_core solution i c0
     else ret tt
   else ret tt).

(** ** Sweeps *)

(** [for i in range(operator.order)] of [als]: lines 58-70. *)
Definition als_first_half_sweep (operator right_hand_side solution : loc)
    (solver : string) : M unit :=
  n <- get_order operator ;;
  for_ (range_up 0 n) (fun i =>
    construct_stack_left_op i operator solution ;;
    construct_stack_left_rhs i right_hand_side solution ;;
    n <- get_order operator ;;
    if i <? n - 1 then
      micro_op <- construct_micro_matrix_als i operator solution ;;
      micro_rhs <- construct_micro_rhs_als i right_hand_side solution ;;
      update_core_als i micro_op micro_rhs solution solver "forward"
    else ret tt).

(** [for i in range(operator.order - 1, -1, -1)] of [als]: lines 73-83. *)
Definition als_second_half_sweep (operator right_hand_side solution : loc)
    (solver : string) : M unit :=
  n <- get_order operator ;;
  for_ (range_down (n - 1) (-1)) (fun i =>
    construct_stack_right_op i operator solution ;;
    construct_stack_right_rhs i right_hand_side solution ;;
    micro_op <- construct_micro_matrix_als i operator solution ;;
    micro_rhs <- construct_micro_rhs_als i right_hand_side solution ;;
    update_core_als i micro_op micro_rhs solution solver "backward").

(** The four [[None] * operator.order] lists. *)
Definition define_stacks (operator : loc) : M unit :=
  n <- get_order operator ;;
  new_stack LeftOp n ;;
  n <- get_order operator ;;
  new_stack LeftRhs n ;;
  n <- get_order operator ;;
  new_stack RightOp n ;;
  n <- get_order operator ;;
  new_stack RightRhs n.

Definition als (operator initial_guess right_hand_side : loc) (repeats : Z)
    (solver : string) : M loc :=
  solution <- tt_copy initial_guess ;;
  define_stacks operator ;;
  n <- get_order operator ;;
  for_ (range_down (n - 1) (-1)) (fun i =>
    construct_stack_right_op i operator solution ;;
    construct_stack_right_rhs i right_hand_side solution) ;;
  for_ (range_up 1 (repeats + 1)) (fun _ =>
    als_first_half_sweep operator right_hand_side solution solver ;;
    als_second_half_sweep operator right_hand_side solution solver) ;;
  ret solution.

(** [for i in range(operator.order - 1)] of [mals]: lines 145-157. *)
Definition mals_first_half_sweep (operator right_hand_side solution : loc)
    (solver : string) (threshold : F) (max_rank : rank_cap) : M unit :=
  n <- get_order operator ;;
  for_ (range_up 0 (n - 1)) (fun i =>
    construct_stack_left_op i operator solution ;;
    construct_stack_left_rhs i right_hand_side solution ;;
    n <- get_order operator ;;
    if i <? n - 2 then
      micro_op <- construct_micro_matrix_mals i operator solution ;;
      micro_rhs <- construct_micro_rhs_mals i right_hand_side solution ;;
      update_core_mals i micro_op micro_rhs solution solver "forward"
        threshold max_rank
    else ret tt).

(** [for i in range(operator.order - 2, -1, -1)] of [mals]: lines 160-170. *)
Definition mals_second_half_sweep (operator right_hand_side solution : loc)
    (solver : string) (threshold : F) (max_rank : rank_cap) : M unit :=
  n <- get_order operator ;;
  for_ (range_down (n - 2) (-1)) (fun i =>
    construct_stack_right_op (i + 1) operator solution ;;
    construct_stack_right_rhs (i + 1) right_hand_side solution ;;
    micro_op <- construct_micro_matrix_mals i operator solution ;;
    micro_rhs <- construct_micro_rhs_mals i right_hand_side solution ;;
    update_core_mals i micro_op micro_rhs solution solver "backward"
      threshold max_rank).

Definition mals (operator initial_guess right_hand_side : loc) (repeats : Z)
    (solver : string) (threshold : F) (max_rank : rank_cap) : M loc :=
  solution <- tt_copy initial_guess ;;
  define_stacks operator ;;
  n <- get_order operator ;;
  for_ (range_down (n - 1) 0) (fun i =>
    construct_stack_right_op i operator solution ;;
    construct_stack_right_rhs i right_hand_side solution) ;;
  for_ (range_up 1 (repeats + 1)) (fun _ =>
    mals_first_half_sweep operator right_hand_side solution solver
      threshold max_rank ;;
    mals_second_half_sweep operator right_hand_side solution solver
      threshold max_rank) ;;
  ret solution.

End Sle.

(* ================================================================= *)
(** * Vocabulary of the properties *)

Section Vocabulary.
Context `{Numerics}.

Abbreviation array := (ndarray D).

(** A relation between the state before and the state after that a
    statement keeps however it ends. *)
Definition keeps {A} (R : state -> state -> Prop) (m : M A) : Prop :=
  forall st, R st (m st).1.

Definition same_heap (st st' : state) : Prop := heap st' = heap st.

Definition same_log (st st' : state) : Prop := log st' = log st.

Definition same_stacks (st st' : state) : Prop :=
  forall s, stack_of s st' = stack_of s st.

(** Only the object at [sol] may differ, and no object is created. *)
Definition frame (sol : loc) (st st' : state) : Prop :=
  length (heap st') = length (heap st) /\
  forall l, l <> sol -> heap st' !! l = heap st !! l.

(** The object at [sol] keeps its ranks. *)
Definition same_ranks (sol : loc) (st st' : state) : Prop :=
  forall t, heap st !! sol = Some t ->
    exists t', heap st' !! sol = Some t' /\ ranks t' = ranks t.

(** The object at [sol] keeps its mode sizes and the lengths of its
    lists. *)
Definition same_dims (sol : loc) (st st' : state) : Prop :=
  forall t, heap st !! sol = Some t ->
    exists t', heap st' !! sol = Some t' /\
      row_dims t' = row_dims t /\ col_dims t' = col_dims t /\
      length (cores t') = length (cores t) /\
      length (ranks t') = length (ranks t).

(** Core [j] of [t] is a 4-axis array whose bond dimensions are
    [ranks[j]] and [ranks[j+1]], with mode sizes [row_dims[j]] and 1. *)
Definition four_axis_core (t : TT) (j : Z) : Prop :=
  exists (c : array) (r n r' : nat),
    py_get (cores t) j = Ok c /\ py_get (ranks t) j = Ok r /\
    py_get (row_dims t) j = Ok n /\ py_get (ranks t) (j + 1) = Ok r' /\
    shape c = [r; n; 1; r']%nat.

(** Of the object at [sol] at most core [i] has changed. *)
Definition only_core (sol : loc) (i : Z) (st st' : state) : Prop :=
  forall t, heap st !! sol = Some t ->
    exists t', heap st' !! sol = Some t' /\
      ranks t' = ranks t /\ row_dims t' = row_dims t /\
      col_dims t' = col_dims t /\
      forall j, 0 <= j -> j <> i -> py_get (cores t') j = py_get (cores t) j.

(** [l'] is as long as [l] and nowhere above it. *)
Definition pointwise_le (l' l : list nat) : Prop :=
  length l' = length l /\
  forall j r', l' !! j = Some r' -> exists r, l !! j = Some r /\ (r' <= r)%nat.

(** No rank of the object at [sol] has grown. *)
Definition ranks_le (sol : loc) (st st' : state) : Prop :=
  forall t, heap st !! sol = Some t ->
    exists t', heap st' !! sol = Some t' /\ pointwise_le (ranks t') (ranks t).

(** A successful run of [m] appends [t] to the log. *)
Definition logs {A} (m : M A) (t : list event) : Prop :=
  forall st st' a, m st = (st', Ok a) -> log st' = log st ++ t.






(** The right stacks built before the first repeat, for sites [hi] down
    to [lo + 1]. *)
Definition initial_right_trace (hi lo : Z) : list event :=
  flat_map (fun i => [EvStack RightOp i; EvStack RightRhs i]) (range_down hi lo).

(** [m] returns from [st], with a result and a final state in [Q]. *)
Definition succeeds {A} (m : M A) (st : state) (Q : A -> state -> Prop) : Prop :=
  exists st' a, m st = (st', Ok a) /\ Q a st'.

(** The shape the container gives core [i]. *)
Definition core_shape (t : TT) (i : nat) : list nat :=
  [nth i (ranks t) 0; nth i (row_dims t) 0; nth i (col_dims t) 0;
   nth (S i) (ranks t) 0]%nat.

(** The invariant of the TT container: one rank more than cores, one
    mode size of each kind per core, every core of the shape its ranks
    and mode sizes give, and boundary ranks 1. *)
Definition tt_wf (t : TT) : Prop :=
  length (ranks t) = S (length (cores t)) /\
  length (row_dims t) = length (cores t) /\
  length (col_dims t) = length (cores t) /\
  (forall i c, cores t !! i = Some c -> shape c = core_shape t i) /\
  nth 0 (ranks t) 0%nat = 1%nat /\
  nth (length (cores t)) (ranks t) 0%nat = 1%nat.

(** A valid system: three well-formed tensors of one order, a square
    operator whose mode sizes are those of the initial guess and of the
    right-hand side, which both have column mode size 1. *)
Definition valid_system (opT igT rhsT : TT) : Prop :=
  tt_wf opT /\ tt_wf igT /\ tt_wf rhsT /\
  length (cores igT) = length (cores opT) /\
  length (cores rhsT) = length (cores opT) /\
  row_dims opT = row_dims igT /\ col_dims opT = row_dims igT /\
  row_dims rhsT = row_dims igT /\
  (forall i, (i < length (cores opT))%nat ->
     nth i (col_dims igT) 0%nat = 1%nat /\ nth i (col_dims rhsT) 0%nat = 1%nat).

(** Of the stacks at most slot [i] of stack [s] has changed, and the
    store is as before. *)
Definition only_slot (s : stack_id) (i : Z) (st st' : state) : Prop :=
  heap st' = heap st /\
  (forall s', s' <> s -> stack_of s' st' = stack_of s' st) /\
  length (stack_of s st') = length (stack_of s st) /\
  forall k, py_index (stack_of s st) i <> Some k ->
    stack_of s st' !! k = stack_of s st !! k.

(** [m] returns from [st] with a result and a final state in [Q], or it
    raises [LinAlgError]; it raises nothing else. *)
Definition returns_or_singular {A} (m : M A) (st : state)
    (Q : A -> state -> Prop) : Prop :=
  exists st' r, m st = (st', r) /\
    match r with
    | Ok a => Q a st'
    | Raise e => e = LinAlgError
    end.

(** Core [j] of [t] is there and has the shape the container gives it. *)
Definition core_ok (t : TT) (j : nat) : Prop :=
  exists c, cores t !! j = Some c /\ shape c = core_shape t j.

(** [t] can be the solution of a system with operator [opT]: the same
    order and row mode sizes, column mode sizes 1, boundary ranks 1.
    Nothing is said of its cores. *)
Definition sol_frame (opT t : TT) : Prop :=
  length (cores t) = length (cores opT) /\
  length (ranks t) = S (length (cores opT)) /\
  row_dims t = row_dims opT /\
  length (col_dims t) = length (cores opT) /\
  (forall j, (j < length (cores opT))%nat -> nth j (col_dims t) 0%nat = 1%nat) /\
  nth 0 (ranks t) 0%nat = 1%nat /\
  nth (length (cores opT)) (ranks t) 0%nat = 1%nat.

(** Slot [j] of the stack [l] holds an array of shape [s]. *)
Definition slot_shape (l : list (option array)) (j : nat) (s : list nat) : Prop :=
  exists a, l !! j = Some (Some a) /\ shape a = s.

(** The left stacks at site [j] fit the ranks of the solution [t], of
    the operator and of the right-hand side. *)
Definition left_slots_ok (opT rhsT t : TT) (st : state) (j : nat) : Prop :=
  slot_shape (stack_left_op st) j
    [nth j (ranks t) 0; nth j (ranks opT) 0; nth j (ranks t) 0]%nat /\
  slot_shape (stack_left_rhs st) j
    [nth j (ranks rhsT) 0; nth j (ranks t) 0]%nat.

(** The same for the right stacks, which carry the ranks of bond
    [j + 1]. *)
Definition right_slots_ok (opT rhsT t : TT) (st : state) (j : nat) : Prop :=
  slot_shape (stack_right_op st) j
    [nth (S j) (ranks t) 0; nth (S j) (ranks opT) 0; nth (S j) (ranks t) 0]%nat /\
  slot_shape (stack_right_rhs st) j
    [nth (S j) (ranks rhsT) 0; nth (S j) (ranks t) 0]%nat.

(** The store and the stacks during a sweep: operator, right-hand side
    and solution are where the sweep expects them and every stack has
    one slot per site. *)
Definition sweep_state (op rhs sol : loc) (opT rhsT t : TT) (st : state) : Prop :=
  heap st !! op = Some opT /\ heap st !! rhs = Some rhsT /\
  heap st !! sol = Some t /\ sol_frame opT t /\
  forall s, length (stack_of s st) = length (cores opT).

(** Before site [i] of a forward half-sweep of ALS: the left stacks
    below [i] and the right stacks from [i] on fit the ranks, and so
    does the core below [i], from which the next left stack is built. *)
Definition forward_inv (op rhs sol : loc) (opT rhsT : TT) (i : nat)
    (st : state) : Prop :=
  exists t, sweep_state op rhs sol opT rhsT t st /\
    (forall j, (j < i)%nat -> left_slots_ok opT rhsT t st j) /\
    ((0 < i < length (cores opT))%nat -> core_ok t (i - 1)) /\
    (forall j, (i <= j < length (cores opT))%nat -> right_slots_ok opT rhsT t st j).

(** With [m] sites left in a backward half-sweep of ALS: the left
    stacks below [m] fit the ranks, and so do the cores and the right
    stacks from [m] on. *)
Definition backward_inv (op rhs sol : loc) (opT rhsT : TT) (m : nat)
    (st : state) : Prop :=
  exists t, sweep_state op rhs sol opT rhsT t st /\
    (forall j, (j < m)%nat -> left_slots_ok opT rhsT t st j) /\
    (forall j, (m <= j < length (cores opT))%nat -> core_ok t j) /\
    (forall j, (m <= j < length (cores opT))%nat -> right_slots_ok opT rhsT t st j).

(** The builder of stack [s] has written an array of shape [shp] to
    slot [k] and has changed nothing else. *)
Definition wrote_slot (s : stack_id) (k : nat) (shp : list nat)
    (st st' : state) : Prop :=
  heap st' = heap st /\
  (forall s', s' <> s -> stack_of s' st' = stack_of s' st) /\
  exists a, stack_of s st' = <[k:=Some a]> (stack_of s st) /\ shape a = shp.

(** The update has replaced the solution by [t'] and has changed nothing
    else. *)
Definition wrote_solution (sol : loc) (t' : TT) (st st' : state) : Prop :=
  heap st' = <[sol:=t']> (heap st) /\
  forall s, stack_of s st' = stack_of s st.

(** The operator and the right-hand side of a system, without its
    initial guess: both well formed and of one order, the operator
    square, the right-hand side with its row mode sizes and column mode
    size 1. *)
Definition system_frame (opT rhsT : TT) : Prop :=
  tt_wf opT /\ tt_wf rhsT /\
  length (cores rhsT) = length (cores opT) /\
  col_dims opT = row_dims opT /\
  row_dims rhsT = row_dims opT /\
  forall j, (j < length (cores opT))%nat -> nth j (col_dims rhsT) 0%nat = 1%nat.

(** The singular values the design keeps: those whose ratio to the first
    is above the threshold (all of them when the threshold is zero), and
    of these at most [max_rank] leading ones (all of them when the cap is
    unbounded). *)
Definition spec_retained (threshold : F) (max_rank : rank_cap) (s : list F) : list F :=
  let s1 :=
    if f_is_zero threshold then s
    else
      match s with
      | [] => []
      | s0 :: _ => List.filter (fun x => f_gt (f_div x s0) threshold) s
      end in
  match max_rank with
  | np_infty => s1
  | cap k => slice_list s1 (Z.min (Z.of_nat (length s1)) k)
  end.

End Vocabulary.

(* ================================================================= *)
(** * A shape-level instance and sample systems *)

(** Arrays carry no elements, every solve succeeds, and the singular
    values of any matrix are 1, 1/2, 1/4, ... *)
Definition halves (k : nat) : Q := Qmake 1 (Z.to_pos (2 ^ Z.of_nat k)).

Definition shape_numerics : Numerics := {|
  D := unit;
  F := Q;
  L := unit;
  d_one := tt;
  d_none := tt;
  d_tensordot := fun _ _ _ _ => tt;
  d_index0 := fun _ => tt;
  d_transpose := fun _ _ => tt;
  d_np_solve := fun _ _ => Some tt;
  d_la_solve := fun _ _ => Some tt;
  d_lu_factor := fun _ => tt;
  d_lu_solve := fun _ _ => tt;
  d_qr := fun _ => tt;
  d_rq := fun _ => tt;
  d_svd := fun _ => Some (tt, halves, tt);
  d_take_cols := fun _ _ => tt;
  d_take_rows := fun _ _ => tt;
  d_diag := fun _ => tt;
  d_matmul := fun _ _ => tt;
  f_div := Qdiv;
  f_gt := fun x y => negb (Qle_bool x y);
  f_is_zero := fun x => Qeq_bool x 0
|}.

(** The TT object with the given ranks and mode sizes. *)
Definition sample_tt (rs ns ms : list nat) : @TT shape_numerics :=
  MkTT
    (map (fun i =>
            NdArray [nth i rs 0; nth i ns 0; nth i ms 0; nth (S i) rs 0]%nat
                    (tt : @D shape_numerics))
         (seq 0 (length ns)))
    rs ns ms.

(** An order-3 system with mode size 2: operator, initial guess and
    right-hand side at locations 0, 1 and 2. *)
Definition sample_op3 : @TT shape_numerics :=
  sample_tt [1; 2; 2; 1]%nat [2; 2; 2]%nat [2; 2; 2]%nat.

Definition sample_x3 : @TT shape_numerics :=
  sample_tt [1; 2; 2; 1]%nat [2; 2; 2]%nat [1; 1; 1]%nat.

Definition sample_b3 : @TT shape_numerics :=
  sample_tt [1; 1; 1; 1]%nat [2; 2; 2]%nat [1; 1; 1]%nat.

Definition sample_state3 : @state shape_numerics :=
  MkState [sample_op3; sample_x3; sample_b3] [] [] [] [] [].

(** An order-4 operator and initial guess with the order-3 right-hand
    side. *)
Definition sample_op4 : @TT shape_numerics :=
  sample_tt [1; 2; 2; 2; 1]%nat [2; 2; 2; 2]%nat [2; 2; 2; 2]%nat.

Definition sample_x4 : @TT shape_numerics :=
  sample_tt [1; 2; 2; 2; 1]%nat [2; 2; 2; 2]%nat [1; 1; 1; 1]%nat.

Definition sample_state43 : @state shape_numerics :=
  MkState [sample_op4; sample_x4; sample_b3] [] [] [] [] [].

(** An order-4 initial guess whose last bond has rank 1, with the
    order-3 operator and right-hand side. *)
Definition sample_x4_unit_bond : @TT shape_numerics :=
  sample_tt [1; 2; 2; 1; 1]%nat [2; 2; 2; 2]%nat [1; 1; 1; 1]%nat.

Definition sample_state343 : @state shape_numerics :=
  MkState [sample_op3; sample_x4_unit_bond; sample_b3] [] [] [] [] [].

(** A two-site micro system of the order-3 sample: 8 unknowns. *)
Definition sample_micro_op : @ndarray (@D shape_numerics) :=
  NdArray [8; 8]%nat tt.

Definition sample_micro_rhs : @ndarray (@D shape_numerics) :=
  NdArray [8; 1]%nat tt.

(** The order-3 sample after the right stacks have been built and the
    left stacks of site 0 have been added; the solution is at
    location 3. *)
Definition sample_site0 : @state shape_numerics :=
  (@construct_stack_left_rhs shape_numerics 0 2%nat 3%nat
     (@construct_stack_left_op shape_numerics 0 0%nat 3%nat
        (@als shape_numerics 0%nat 1%nat 2%nat 0 "solve" sample_state3).1).1).1.

(** A one-site micro system of the order-3 sample at site 0: 4
    unknowns. *)
Definition sample_site_op : @ndarray (@D shape_numerics) :=
  NdArray [4; 4]%nat tt.

Definition sample_site_rhs : @ndarray (@D shape_numerics) :=
  NdArray [4; 1]%nat tt.

(* ================================================================= *)
(** * Reasoning about statements *)

Section Logic.
Context `{Numerics}.

Abbreviation array := (ndarray D).

(** ** Python lists *)

Lemma py_index_lt {A} (l : list A) i k :
  py_index l i = Some k -> (k < length l)%nat.
Proof.
  unfold py_index. intros Hk.
  destruct ((0 <=? i) && (i <? Z.of_nat (length l))) eqn:E1.
  - inversion Hk; subst. apply andb_true_iff in E1 as [? ?]. lia.
  - destruct ((- Z.of_nat (length l) <=? i) && (i <? 0)) eqn:E2; [|discriminate].
    inversion Hk; subst. apply andb_true_iff in E2 as [? ?]. lia.
Qed.

Lemma py_index_nonneg {A} (l : list A) i :
  0 <= i < Z.of_nat (length l) -> py_index l i = Some (Z.to_nat i).
Proof.
  intros Hi. unfold py_index.
  replace ((0 <=? i) && (i <? Z.of_nat (length l))) with true; [done|].
  symmetry. apply andb_true_iff. lia.
Qed.

Lemma py_index_high {A} (l : list A) i :
  Z.of_nat (length l) <= i -> py_index l i = None.
Proof.
  intros Hi. unfold py_index.
  replace ((0 <=? i) && (i <? Z.of_nat (length l))) with false.
  - replace ((- Z.of_nat (length l) <=? i) && (i <? 0)) with false; [done|].
    symmetry. apply andb_false_iff. lia.
  - symmetry. apply andb_false_iff. lia.
Qed.

Lemma py_get_high {A} (l : list A) i :
  Z.of_nat (length l) <= i -> py_get l i = Raise IndexError.
Proof. intros Hi. unfold py_get. by rewrite py_index_high. Qed.

Lemma py_get_nonneg {A} (l : list A) i x :
  0 <= i -> l !! Z.to_nat i = Some x -> py_get l i = Ok x.
Proof.
  intros Hi Hx. unfold py_get.
  rewrite py_index_nonneg, ?Hx; [done|].
  apply lookup_lt_Some in Hx. lia.
Qed.

Lemma py_get_Ok {A} (l : list A) i x :
  py_get l i = Ok x -> exists k, py_index l i = Some k /\ l !! k = Some x.
Proof.
  unfold py_get. destruct (py_index l i) as [k|]; [|discriminate].
  destruct (l !! k) eqn:E; [|discriminate]. intros [= ->]. eauto.
Qed.

Lemma py_set_Ok {A} (l l' : list A) i x :
  py_set l i x = Ok l' ->
  exists k, py_index l i = Some k /\ (k < length l)%nat /\ l' = <[k:=x]> l.
Proof.
  unfold py_set. destruct (py_index l i) as [k|] eqn:E; [|discriminate].
  intros [= <-]. exists k. eauto using py_index_lt.
Qed.

Lemma py_set_nonneg {A} (l : list A) i x :
  0 <= i < Z.of_nat (length l) -> py_set l i x = Ok (<[Z.to_nat i:=x]> l).
Proof. intros Hi. unfold py_set. by rewrite py_index_nonneg. Qed.

Lemma py_set_length {A} (l l' : list A) i x :
  py_set l i x = Ok l' -> length l' = length l.
Proof.
  intros (k & _ & _ & ->)%py_set_Ok. by rewrite length_insert.
Qed.


Lemma range_down_length hi lo : length (range_down hi lo) = Z.to_nat (hi - lo).
Proof. unfold range_down. by rewrite length_map, length_seq. Qed.

Lemma range_up_nil lo hi : hi <= lo -> range_up lo hi = [].
Proof.
  intros Hle. unfold range_up.
  replace (Z.to_nat (hi - lo)) with 0%nat by lia. done.
Qed.

Lemma range_up_cons lo hi : lo < hi -> range_up lo hi = lo :: range_up (lo + 1) hi.
Proof.
  intros Hlt. unfold range_up.
  replace (Z.to_nat (hi - lo)) with (S (Z.to_nat (hi - (lo + 1)))) by lia.
  cbn [seq map]. f_equal; [lia|].
  rewrite <- seq_shift, map_map. apply map_ext. intros k. lia.
Qed.

Lemma range_down_nil hi lo : hi <= lo -> range_down hi lo = [].
Proof.
  intros Hle. unfold range_down.
  replace (Z.to_nat (hi - lo)) with 0%nat by lia. done.
Qed.

Lemma range_down_cons hi lo :
  lo < hi -> range_down hi lo = hi :: range_down (hi - 1) lo.
Proof.
  intros Hlt. unfold range_down.
  replace (Z.to_nat (hi - lo)) with (S (Z.to_nat (hi - 1 - lo))) by lia.
  cbn [seq map]. f_equal; [lia|].
  rewrite <- seq_shift, map_map. apply map_ext. intros k. lia.
Qed.

(** ** Runs *)

Lemma bind_Ok {A B} (m : M A) (f : A -> M B) st st1 a :
  m st = (st1, Ok a) -> bind m f st = f a st1.
Proof. intros Hm. unfold bind. by rewrite Hm. Qed.

Lemma bind_Raise {A B} (m : M A) (f : A -> M B) st st1 e :
  m st = (st1, Raise e) -> bind m f st = (st1, Raise e).
Proof. intros Hm. unfold bind. by rewrite Hm. Qed.

Lemma bind_inv_Ok {A B} (m : M A) (f : A -> M B) st st' b :
  bind m f st = (st', Ok b) ->
  exists st1 a, m st = (st1, Ok a) /\ f a st1 = (st', Ok b).
Proof.
  unfold bind. destruct (m st) as [st1 [a|e]]; [eauto|discriminate].
Qed.

Section Keeps.
Context (R : state -> state -> Prop) `{!PreOrder R}.

Lemma keeps_ret {A} (a : A) : keeps R (ret a).
Proof. intros st. simpl. reflexivity. Qed.

Lemma keeps_lift {A} (r : res A) : keeps R (lift r).
Proof. intros st. simpl. reflexivity. Qed.

Lemma keeps_load t : keeps R (load t).
Proof.
  intros st. unfold load. destruct (heap st !! t); simpl; reflexivity.
Qed.

Lemma keeps_get_stack s i : keeps R (get_stack s i).
Proof. intros st. simpl. reflexivity. Qed.

Lemma keeps_bind {A B} (m : M A) (f : A -> M B) :
  keeps R m -> (forall a, keeps R (f a)) -> keeps R (bind m f).
Proof.
  intros Hm Hf st. unfold bind. specialize (Hm st).
  destruct (m st) as [st1 [a|e]]; simpl in *; [|done].
  etrans; [exact Hm|apply Hf].
Qed.

Lemma keeps_for {A} (l : list A) (body : A -> M unit) :
  (forall i, keeps R (body i)) -> keeps R (for_ l body).
Proof.
  intros Hb. induction l as [|i l IH]; simpl.
  - apply keeps_ret.
  - apply keeps_bind; [apply Hb|intros _; apply IH].
Qed.

Lemma keeps_if {A} (b : bool) (m1 m2 : M A) :
  keeps R m1 -> keeps R m2 -> keeps R (if b then m1 else m2).
Proof. by destruct b. Qed.

End Keeps.

(** ** The relations kept by the primitives *)

#[local] Instance same_heap_preorder : PreOrder same_heap.
Proof. split; unfold same_heap; [done|intros ???; congruence]. Qed.

#[local] Instance same_log_preorder : PreOrder same_log.
Proof. split; unfold same_log; [done|intros ???; congruence]. Qed.

#[local] Instance same_stacks_preorder : PreOrder same_stacks.
Proof.
  split; unfold same_stacks; [done|].
  intros st1 st2 st3 H12 H23 s. by rewrite H23.
Qed.

#[local] Instance frame_preorder sol : PreOrder (frame sol).
Proof.
  split; unfold frame; [done|].
  intros st1 st2 st3 [L12 H12] [L23 H23]. split; [congruence|].
  intros l Hl. by rewrite H23, H12.
Qed.

Lemma same_heap_frame sol st st' : same_heap st st' -> frame sol st st'.
Proof. unfold same_heap, frame. by intros ->. Qed.

Lemma keeps_weaken {A} (R R' : state -> state -> Prop) (m : M A) :
  (forall st st', R st st' -> R' st st') -> keeps R m -> keeps R' m.
Proof. intros HR Hm st. apply HR, Hm. Qed.

Lemma keeps_tick_heap e : keeps same_heap (tick e).
Proof. done. Qed.

Lemma keeps_tick_stacks e : keeps same_stacks (tick e).
Proof. done. Qed.

Lemma keeps_tick_frame sol e : keeps (frame sol) (tick e).
Proof. done. Qed.

Lemma keeps_set_stack_heap s i x : keeps same_heap (set_stack s i x).
Proof.
  intros st. unfold set_stack.
  destruct (py_set (stack_of s st) i (Some x)); [|done]. by destruct s.
Qed.

Lemma keeps_set_stack_log s i x : keeps same_log (set_stack s i x).
Proof.
  intros st. unfold set_stack.
  destruct (py_set (stack_of s st) i (Some x)); [|done]. by destruct s.
Qed.

Lemma keeps_new_stack_heap s n : keeps same_heap (new_stack s n).
Proof. intros st. by destruct s. Qed.

Lemma keeps_new_stack_log s n : keeps same_log (new_stack s n).
Proof. intros st. by destruct s. Qed.

Lemma keeps_store_log t o : keeps same_log (store t o).
Proof. done. Qed.

Lemma keeps_store_stacks t o : keeps same_stacks (store t o).
Proof. done. Qed.

Lemma keeps_store_frame sol o : keeps (frame sol) (store sol o).
Proof.
  intros st. unfold store, frame. simpl. split.
  - apply length_insert.
  - intros l Hl. by apply list_lookup_insert_ne.
Qed.

(** One step of a proof that a statement keeps a relation. *)
Ltac keeps_step :=
  match goal with
  | |- keeps _ (ret _) => apply keeps_ret; tc_solve
  | |- keeps _ (lift _) => apply keeps_lift; tc_solve
  | |- keeps _ (load _) => apply keeps_load; tc_solve
  | |- keeps _ (get_stack _ _) => apply keeps_get_stack; tc_solve
  | |- keeps _ (if _ then _ else _) => apply keeps_if
  | |- keeps _ (for_ _ _) => apply keeps_for; try tc_solve; intros ?
  | |- keeps _ (bind _ _) => apply keeps_bind; try tc_solve; [|intros ?]
  | |- keeps same_heap (tick _) => apply keeps_tick_heap
  | |- keeps same_stacks (tick _) => apply keeps_tick_stacks
  | |- keeps (frame _) (tick _) => apply keeps_tick_frame
  | |- keeps same_heap (set_stack _ _ _) => apply keeps_set_stack_heap
  | |- keeps same_log (set_stack _ _ _) => apply keeps_set_stack_log
  | |- keeps same_heap (new_stack _ _) => apply keeps_new_stack_heap
  | |- keeps same_log (new_stack _ _) => apply keeps_new_stack_log
  | |- keeps same_log (store _ _) => apply keeps_store_log
  | |- keeps same_stacks (store _ _) => apply keeps_store_stacks
  | |- keeps (frame ?sol) (store ?sol _) => apply keeps_store_frame
  | |- keeps _ (get_order _) => unfold get_order
  | |- keeps _ (get_core _ _) => unfold get_core
  | |- keeps _ (get_core0 _ _) => unfold get_core0
  | |- keeps _ (get_rank _ _) => unfold get_rank
  | |- keeps _ (get_row_dim _ _) => unfold get_row_dim
  | |- keeps _ (get_col_dim _ _) => unfold get_col_dim
  | |- keeps _ (set_core _ _ _) => unfold set_core
  | |- keeps _ (set_rank _ _ _) => unfold set_rank
  end.

Ltac keeps_go := repeat keeps_step.

(** ** The stack builders and the assemblers leave the store alone *)

Lemma construct_stack_left_op_heap i op sol :
  keeps same_heap (construct_stack_left_op i op sol).
Proof. unfold construct_stack_left_op. keeps_go. Qed.

Lemma construct_stack_left_rhs_heap i rhs sol :
  keeps same_heap (construct_stack_left_rhs i rhs sol).
Proof. unfold construct_stack_left_rhs. keeps_go. Qed.

Lemma construct_stack_right_op_heap i op sol :
  keeps same_heap (construct_stack_right_op i op sol).
Proof. unfold construct_stack_right_op. keeps_go. Qed.

Lemma construct_stack_right_rhs_heap i rhs sol :
  keeps same_heap (construct_stack_right_rhs i rhs sol).
Proof. unfold construct_stack_right_rhs. keeps_go. Qed.

Lemma construct_micro_matrix_als_heap i op sol :
  keeps same_heap (construct_micro_matrix_als i op sol).
Proof. unfold construct_micro_matrix_als. keeps_go. Qed.

Lemma construct_micro_matrix_mals_heap i op sol :
  keeps same_heap (construct_micro_matrix_mals i op sol).
Proof. unfold construct_micro_matrix_mals. keeps_go. Qed.

Lemma construct_micro_rhs_als_heap i rhs sol :
  keeps same_heap (construct_micro_rhs_als i rhs sol).
Proof. unfold construct_micro_rhs_als. keeps_go. Qed.

Lemma construct_micro_rhs_mals_heap i rhs sol :
  keeps same_heap (construct_micro_rhs_mals i rhs sol).
Proof. unfold construct_micro_rhs_mals. keeps_go. Qed.

Lemma construct_micro_matrix_als_stacks i op sol :
  keeps same_stacks (construct_micro_matrix_als i op sol).
Proof. unfold construct_micro_matrix_als. keeps_go. Qed.

Lemma construct_micro_matrix_mals_stacks i op sol :
  keeps same_stacks (construct_micro_matrix_mals i op sol).
Proof. unfold construct_micro_matrix_mals. keeps_go. Qed.

Lemma construct_micro_rhs_als_stacks i rhs sol :
  keeps same_stacks (construct_micro_rhs_als i rhs sol).
Proof. unfold construct_micro_rhs_als. keeps_go. Qed.

Lemma construct_micro_rhs_mals_stacks i rhs sol :
  keeps same_stacks (construct_micro_rhs_mals i rhs sol).
Proof. unfold construct_micro_rhs_mals. keeps_go. Qed.

(** ** The core updates write the solution only *)

Lemma update_core_als_frame i a b sol solver direction :
  keeps (frame sol) (update_core_als i a b sol solver direction).
Proof. unfold update_core_als. keeps_go. Qed.

Lemma update_core_mals_frame i a b sol solver direction threshold max_rank :
  keeps (frame sol) (update_core_mals i a b sol solver direction threshold max_rank).
Proof. unfold update_core_mals. keeps_go. Qed.

Lemma update_core_als_stacks i a b sol solver direction :
  keeps same_stacks (update_core_als i a b sol solver direction).
Proof. unfold update_core_als. keeps_go. Qed.

Lemma update_core_mals_stacks i a b sol solver direction threshold max_rank :
  keeps same_stacks (update_core_mals i a b sol solver direction threshold max_rank).
Proof. unfold update_core_mals. keeps_go. Qed.

Lemma keeps_heap_frame {A} sol (m : M A) :
  keeps same_heap m -> keeps (frame sol) m.
Proof. apply keeps_weaken, same_heap_frame. Qed.

Create HintDb kept discriminated.

#[local] Hint Resolve
  construct_stack_left_op_heap construct_stack_left_rhs_heap
  construct_stack_right_op_heap construct_stack_right_rhs_heap
  construct_micro_matrix_als_heap construct_micro_matrix_mals_heap
  construct_micro_rhs_als_heap construct_micro_rhs_mals_heap
  construct_micro_matrix_als_stacks construct_micro_matrix_mals_stacks
  construct_micro_rhs_als_stacks construct_micro_rhs_mals_stacks
  update_core_als_frame update_core_mals_frame
  update_core_als_stacks update_core_mals_stacks : kept.

Ltac kept :=
  repeat first
    [ keeps_step
    | solve [auto with kept]
    | apply keeps_heap_frame; solve [auto with kept] ].

Lemma als_first_half_sweep_frame op rhs sol solver :
  keeps (frame sol) (als_first_half_sweep op rhs sol solver).
Proof. unfold als_first_half_sweep. kept. Qed.

Lemma als_second_half_sweep_frame op rhs sol solver :
  keeps (frame sol) (als_second_half_sweep op rhs sol solver).
Proof. unfold als_second_half_sweep. kept. Qed.

Lemma mals_first_half_sweep_frame op rhs sol solver threshold max_rank :
  keeps (frame sol) (mals_first_half_sweep op rhs sol solver threshold max_rank).
Proof. unfold mals_first_half_sweep. kept. Qed.

Lemma mals_second_half_sweep_frame op rhs sol solver threshold max_rank :
  keeps (frame sol) (mals_second_half_sweep op rhs sol solver threshold max_rank).
Proof. unfold mals_second_half_sweep. kept. Qed.

Lemma define_stacks_heap op : keeps same_heap (define_stacks op).
Proof. unfold define_stacks. kept. Qed.

#[local] Hint Resolve
  als_first_half_sweep_frame als_second_half_sweep_frame
  mals_first_half_sweep_frame mals_second_half_sweep_frame
  define_stacks_heap : kept.

(** What a statement that starts with the copy of [ig] and then only
    writes the copy does to the store. *)
Lemma copy_then_frame {A} ig (body : loc -> M A) st :
  (forall sol, keeps (frame sol) (body sol)) ->
  let r := bind (tt_copy ig) body st in
  (forall l o, heap st !! l = Some o -> heap r.1 !! l = Some o) /\
  (forall o, heap st !! ig = Some o -> length (heap r.1) = S (length (heap st))) /\
  (heap st !! ig = None -> r.1 = st) /\
  (forall a, r.2 = Ok a -> is_Some (heap st !! ig)).
Proof.
  intros Hbody. unfold bind, tt_copy.
  destruct (heap st !! ig) as [o|] eqn:Hig; simpl.
  - set (st1 := with_heap (heap st ++ [o]) st).
    destruct (Hbody (length (heap st)) st1) as [Hlen Hother].
    destruct (body (length (heap st)) st1) as [st' r] eqn:Hrun. simpl in *.
    split; [|split; [|split]].
    + intros l o' Hl. rewrite Hother.
      * by apply lookup_app_l_Some.
      * apply lookup_lt_Some in Hl. lia.
    + intros o' _. rewrite Hlen, length_app. simpl. lia.
    + done.
    + eauto.
  - split; [|split; [|split]]; try done.
Qed.

(** ** Inputs are read-only *)

Lemma als_body_frame op rhs repeats solver sol :
  keeps (frame sol)
    (define_stacks op ;;
     n <- get_order op ;;
     for_ (range_down (n - 1) (-1)) (fun i =>
       construct_stack_right_op i op sol ;;
       construct_stack_right_rhs i rhs sol) ;;
     for_ (range_up 1 (repeats + 1)) (fun _ =>
       als_first_half_sweep op rhs sol solver ;;
       als_second_half_sweep op rhs sol solver) ;;
     ret sol).
Proof. kept. Qed.

Lemma mals_body_frame op rhs repeats solver threshold max_rank sol :
  keeps (frame sol)
    (define_stacks op ;;
     n <- get_order op ;;
     for_ (range_down (n - 1) 0) (fun i =>
       construct_stack_right_op i op sol ;;
       construct_stack_right_rhs i rhs sol) ;;
     for_ (range_up 1 (repeats + 1)) (fun _ =>
       mals_first_half_sweep op rhs sol solver threshold max_rank ;;
       mals_second_half_sweep op rhs sol solver threshold max_rank) ;;
     ret sol).
Proof. kept. Qed.

(** C7. Whatever [als] or [mals] is called with and however the call
    ends, every object the store held before the call (operator,
    right-hand side and initial guess among them) is the same afterwards,
    and the store has grown by exactly one object, the copy of the
    initial guess that [copy()] made at entry: every write of the sweeps
    goes to that copy or to the stacks. *)
Theorem inputs_never_mutated
    (op ig rhs : loc) (repeats : Z) (solver : string)
    (threshold : F) (max_rank : rank_cap) (st : state) :
  let ra := als op ig rhs repeats solver st in
  let rm := mals op ig rhs repeats solver threshold max_rank st in
  (forall l o, heap st !! l = Some o ->
     heap ra.1 !! l = Some o /\ heap rm.1 !! l = Some o) /\
  (forall o, heap st !! ig = Some o ->
     length (heap ra.1) = S (length (heap st)) /\
     length (heap rm.1) = S (length (heap st))) /\
  (forall sol, ra.2 = Ok sol \/ rm.2 = Ok sol -> is_Some (heap st !! ig)).
Proof.
  intros ra rm.
  pose proof (copy_then_frame ig _ st (als_body_frame op rhs repeats solver))
    as (Ha1 & Ha2 & _ & Ha3).
  pose proof (copy_then_frame ig _ st
    (mals_body_frame op rhs repeats solver threshold max_rank))
    as (Hm1 & Hm2 & _ & Hm3).
  split; [|split].
  - intros l o Hl. split; [by apply Ha1|by apply Hm1].
  - intros o Hig. split; [by eapply Ha2|by eapply Hm2].
  - intros sol [Hr|Hr]; [by eapply Ha3|by eapply Hm3].
Qed.

(** ** Successful runs, step by step *)

Lemma ret_inv {A} (a b : A) st st' : ret a st = (st', Ok b) -> st' = st /\ b = a.
Proof. by intros [= -> ->]. Qed.

Lemma lift_inv {A} (r : res A) st st' a :
  lift r st = (st', Ok a) -> st' = st /\ r = Ok a.
Proof. by intros [= -> ->]. Qed.

Lemma tick_inv e st st' u :
  tick e st = (st', Ok u) -> st' = with_log (log st ++ [e]) st.
Proof. by intros [= <-]. Qed.

Lemma load_inv t st st' o :
  load t st = (st', Ok o) -> st' = st /\ heap st !! t = Some o.
Proof.
  unfold load. destruct (heap st !! t); [|discriminate]. by intros [= -> ->].
Qed.

Lemma store_inv t o st st' u :
  store t o st = (st', Ok u) -> st' = with_heap (<[t:=o]> (heap st)) st.
Proof. by intros [= <-]. Qed.

Lemma get_order_inv t st st' n :
  get_order t st = (st', Ok n) ->
  st' = st /\ exists o, heap st !! t = Some o /\ n = order o.
Proof.
  intros (st1 & o & (-> & Ho)%load_inv & (-> & ->)%ret_inv)%bind_inv_Ok. eauto.
Qed.

Lemma get_core_inv t i st st' c :
  get_core t i st = (st', Ok c) ->
  st' = st /\ exists o, heap st !! t = Some o /\ py_get (cores o) i = Ok c.
Proof.
  intros (st1 & o & (-> & Ho)%load_inv & (-> & Hc)%lift_inv)%bind_inv_Ok. eauto.
Qed.

Lemma get_rank_inv t i st st' r :
  get_rank t i st = (st', Ok r) ->
  st' = st /\ exists o, heap st !! t = Some o /\ py_get (ranks o) i = Ok r.
Proof.
  intros (st1 & o & (-> & Ho)%load_inv & (-> & Hc)%lift_inv)%bind_inv_Ok. eauto.
Qed.

Lemma get_row_dim_inv t i st st' r :
  get_row_dim t i st = (st', Ok r) ->
  st' = st /\ exists o, heap st !! t = Some o /\ py_get (row_dims o) i = Ok r.
Proof.
  intros (st1 & o & (-> & Ho)%load_inv & (-> & Hc)%lift_inv)%bind_inv_Ok. eauto.
Qed.

Lemma get_col_dim_inv t i st st' r :
  get_col_dim t i st = (st', Ok r) ->
  st' = st /\ exists o, heap st !! t = Some o /\ py_get (col_dims o) i = Ok r.
Proof.
  intros (st1 & o & (-> & Ho)%load_inv & (-> & Hc)%lift_inv)%bind_inv_Ok. eauto.
Qed.

Lemma set_core_inv t i x st st' u :
  set_core t i x st = (st', Ok u) ->
  exists o cs, heap st !! t = Some o /\ py_set (cores o) i x = Ok cs /\
    st' = with_heap (<[t:=with_cores o cs]> (heap st)) st.
Proof.
  intros (st1 & o & (-> & Ho)%load_inv & H1)%bind_inv_Ok.
  apply bind_inv_Ok in H1 as (st2 & cs & (-> & Hcs)%lift_inv & ->%store_inv).
  eauto.
Qed.

Lemma set_rank_inv t i r st st' u :
  set_rank t i r st = (st', Ok u) ->
  exists o rs, heap st !! t = Some o /\ py_set (ranks o) i r = Ok rs /\
    st' = with_heap (<[t:=with_ranks o rs]> (heap st)) st.
Proof.
  intros (st1 & o & (-> & Ho)%load_inv & H1)%bind_inv_Ok.
  apply bind_inv_Ok in H1 as (st2 & cs & (-> & Hcs)%lift_inv & ->%store_inv).
  eauto.
Qed.

Lemma py_get_set_eq {A} (l l' : list A) i x :
  py_set l i x = Ok l' -> py_get l' i = Ok x.
Proof.
  intros (k & Hk & Hlt & ->)%py_set_Ok. unfold py_get.
  assert (py_index (<[k:=x]> l) i = Some k) as ->.
  { unfold py_index in *. by rewrite length_insert. }
  by rewrite list_lookup_insert_eq.
Qed.

Lemma py_index_inj {A} (l : list A) i j k :
  py_index l i = Some k -> py_index l j = Some k -> 0 <= i -> 0 <= j -> i = j.
Proof.
  unfold py_index. intros Hi Hj Hi0 Hj0.
  destruct ((0 <=? i) && (i <? Z.of_nat (length l))) eqn:Ei.
  - destruct ((0 <=? j) && (j <? Z.of_nat (length l))) eqn:Ej.
    + inversion Hi; inversion Hj; subst. lia.
    + destruct ((- Z.of_nat (length l) <=? j) && (j <? 0)) eqn:Ej'; [|done].
      apply andb_true_iff in Ej' as [_ ?]. lia.
  - destruct ((- Z.of_nat (length l) <=? i) && (i <? 0)) eqn:Ei'; [|done].
    apply andb_true_iff in Ei' as [_ ?]. lia.
Qed.

Lemma py_get_set_ne {A} (l l' : list A) i j x :
  py_set l i x = Ok l' -> 0 <= i -> 0 <= j -> i <> j -> py_get l' j = py_get l j.
Proof.
  intros (k & Hk & Hlt & ->)%py_set_Ok Hi Hj Hne. unfold py_get.
  assert (py_index (<[k:=x]> l) j = py_index l j) as ->.
  { unfold py_index. by rewrite length_insert. }
  destruct (py_index l j) as [k'|] eqn:Hk'; [|done].
  rewrite list_lookup_insert_ne; [done|].
  intros <-. apply Hne. eauto using py_index_inj.
Qed.

(** ** Rank reduction *)

Lemma take_where_gt (pre s : list F) s0 threshold :
  take_list (pre ++ s) (where_gt (length pre) s s0 threshold)
  = Ok (List.filter (fun x => f_gt (f_div x s0) threshold) s).
Proof.
  revert pre. induction s as [|x s IH]; intros pre; simpl; [done|].
  specialize (IH (pre ++ [x])).
  rewrite <- app_assoc, length_app in IH. simpl in IH.
  replace (length pre + 1)%nat with (S (length pre)) in IH by lia.
  destruct (f_gt (f_div x s0) threshold); simpl; [|done].
  rewrite list_lookup_middle by done. by rewrite IH.
Qed.

Lemma threshold_filter (s : list F) threshold indices s' :
  np_where_ratio s threshold = Ok indices ->
  take_list s indices = Ok s' ->
  exists s0, head s = Some s0 /\
    s' = List.filter (fun x => f_gt (f_div x s0) threshold) s.
Proof.
  unfold np_where_ratio. destruct s as [|s0 s]; [discriminate|].
  intros [= <-] Htake. exists s0. split; [done|].
  pose proof (take_where_gt [] (s0 :: s) s0 threshold) as Hf.
  simpl in Hf, Htake |- *. congruence.
Qed.

Lemma rank_reduction_forward_retained threshold max_rank u s u' s' :
  rank_reduction_forward threshold max_rank u s = Ok (u', s') ->
  s' = spec_retained threshold max_rank s.
Proof.
  unfold rank_reduction_forward, spec_retained.
  destruct (f_is_zero threshold); simpl.
  - destruct max_rank as [|k]; simpl; [by intros [= _ ->]|].
    destruct (shape_at u 1); simpl; [|discriminate].
    destruct (slice_cols u _); simpl; [|discriminate]. by intros [= _ ->].
  - destruct (np_where_ratio s threshold) as [indices|] eqn:Hw; simpl; [|discriminate].
    destruct (take_cols u indices) as [u1|]; simpl; [|discriminate].
    destruct (take_list s indices) as [s1|] eqn:Ht; simpl; [|discriminate].
    destruct (threshold_filter _ _ _ _ Hw Ht) as (s0 & Hhd & ->).
    destruct s as [|x s]; [discriminate|]. injection Hhd as ->.
    destruct max_rank as [|k]; simpl; [by intros [= _ ->]|].
    destruct (shape_at u1 1); simpl; [|discriminate].
    destruct (slice_cols u1 _); simpl; [|discriminate]. by intros [= _ ->].
Qed.

Lemma rank_reduction_backward_retained threshold max_rank u s v u' s' v' :
  rank_reduction_backward threshold max_rank u s v = Ok (u', s', v') ->
  s' = spec_retained threshold max_rank s.
Proof.
  unfold rank_reduction_backward, spec_retained.
  destruct (f_is_zero threshold); simpl.
  - destruct max_rank as [|k]; simpl; [by intros [= _ -> _]|].
    destruct (shape_at u 1); simpl; [|discriminate].
    destruct (slice_cols u _); simpl; [|discriminate].
    destruct (shape_at v 0); simpl; [|discriminate].
    destruct (slice_rows v _); simpl; [|discriminate]. by intros [= _ -> _].
  - destruct (np_where_ratio s threshold) as [indices|] eqn:Hw; simpl; [|discriminate].
    destruct (take_cols u indices) as [u1|]; simpl; [|discriminate].
    destruct (take_list s indices) as [s1|] eqn:Ht; simpl; [|discriminate].
    destruct (take_rows v indices) as [v1|]; simpl; [|discriminate].
    destruct (threshold_filter _ _ _ _ Hw Ht) as (s0 & Hhd & ->).
    destruct s as [|x s]; [discriminate|]. injection Hhd as ->.
    destruct max_rank as [|k]; simpl; [by intros [= _ -> _]|].
    destruct (shape_at u1 1); simpl; [|discriminate].
    destruct (slice_cols u1 _); simpl; [|discriminate].
    destruct (shape_at v1 0); simpl; [|discriminate].
    destruct (slice_rows v1 _); simpl; [|discriminate]. by intros [= _ -> _].
Qed.

Lemma slice_list_length (s : list F) k :
  0 <= k -> Z.of_nat (length (slice_list s (Z.min (Z.of_nat (length s)) k))) <= k.
Proof.
  intros Hk. unfold slice_list, py_slice_stop.
  destruct (Z.ltb_spec (Z.min (Z.of_nat (length s)) k) 0); [lia|].
  rewrite length_take. lia.
Qed.

Lemma spec_retained_cap threshold k (s : list F) :
  0 <= k -> Z.of_nat (length (spec_retained threshold (cap k) s)) <= k.
Proof. intros Hk. unfold spec_retained. by apply slice_list_length. Qed.

Lemma In_take {A} (x : A) n l : In x (take n l) -> In x l.
Proof.
  revert l. induction n as [|n IH]; intros [|y l]; simpl; try tauto.
  intros [->|Hin]; [by left|]. right. by apply IH.
Qed.

Lemma spec_retained_ratio threshold max_rank (s : list F) x :
  f_is_zero threshold = false ->
  In x (spec_retained threshold max_rank s) ->
  exists s0, head s = Some s0 /\ f_gt (f_div x s0) threshold = true.
Proof.
  intros Hz. unfold spec_retained. rewrite Hz.
  destruct s as [|s0 s]; [by destruct max_rank; unfold slice_list; rewrite ?take_nil|].
  intros Hin. exists s0. split; [done|].
  assert (In x (List.filter (fun x => f_gt (f_div x s0) threshold) (s0 :: s))) as Hf.
  { destruct max_rank as [|k]; [done|]. unfold slice_list in Hin. eauto using In_take. }
  by apply filter_In in Hf as [_ ?].
Qed.

Lemma spec_retained_zero_threshold threshold max_rank (s : list F) :
  f_is_zero threshold = true ->
  spec_retained threshold max_rank s
  = match max_rank with
    | np_infty => s
    | cap k => slice_list s (Z.min (Z.of_nat (length s)) k)
    end.
Proof. intros Hz. unfold spec_retained. by rewrite Hz. Qed.

Lemma spec_retained_unbounded threshold (s : list F) :
  spec_retained threshold np_infty s
  = if f_is_zero threshold then s
    else match s with
         | [] => []
         | s0 :: _ => List.filter (fun x => f_gt (f_div x s0) threshold) s
         end.
Proof. done. Qed.

(** ** What a core update does to the ranks *)

#[local] Instance same_ranks_preorder sol : PreOrder (same_ranks sol).
Proof.
  split; unfold same_ranks.
  - intros st t Ht. eauto.
  - intros st1 st2 st3 H12 H23 t Ht.
    destruct (H12 t Ht) as (t2 & Ht2 & E2).
    destruct (H23 t2 Ht2) as (t3 & Ht3 & E3).
    exists t3. split; [done|congruence].
Qed.

#[local] Instance same_dims_preorder sol : PreOrder (same_dims sol).
Proof.
  split; unfold same_dims.
  - intros st t Ht. eauto 10.
  - intros st1 st2 st3 H12 H23 t Ht.
    destruct (H12 t Ht) as (t2 & Ht2 & Ea & Eb & Ec & Ed).
    destruct (H23 t2 Ht2) as (t3 & Ht3 & Fa & Fb & Fc & Fd).
    exists t3. repeat split; congruence.
Qed.

Lemma same_heap_ranks sol st st' : same_heap st st' -> same_ranks sol st st'.
Proof. unfold same_heap, same_ranks. intros -> t Ht. eauto. Qed.

Lemma same_heap_dims sol st st' : same_heap st st' -> same_dims sol st st'.
Proof. unfold same_heap, same_dims. intros -> t Ht. eauto 10. Qed.

Lemma keeps_tick_ranks sol e : keeps (same_ranks sol) (tick e).
Proof. intros st t Ht. eauto. Qed.

Lemma keeps_tick_dims sol e : keeps (same_dims sol) (tick e).
Proof. intros st t Ht. simpl. eauto 10. Qed.

Lemma keeps_set_core_ranks sol t i x : keeps (same_ranks sol) (set_core t i x).
Proof.
  intros st o Ho. unfold set_core, bind, load, lift, store.
  destruct (heap st !! t) as [o'|] eqn:Ht; simpl; [|eauto].
  destruct (py_set (cores o') i x) as [cs|]; simpl; [|eauto].
  destruct (decide (t = sol)) as [->|Hne].
  - rewrite list_lookup_insert_eq by (by eapply lookup_lt_Some).
    replace o' with o by congruence. eauto.
  - rewrite list_lookup_insert_ne by done. eauto.
Qed.

Lemma keeps_set_core_dims sol t i x : keeps (same_dims sol) (set_core t i x).
Proof.
  intros st o Ho. unfold set_core, bind, load, lift, store.
  destruct (heap st !! t) as [o'|] eqn:Ht; simpl; [|eauto 10].
  destruct (py_set (cores o') i x) as [cs|] eqn:Hcs; simpl; [|eauto 10].
  destruct (decide (t = sol)) as [->|Hne].
  - rewrite list_lookup_insert_eq by (by eapply lookup_lt_Some).
    replace o' with o in * by congruence.
    eexists. split; [done|]. simpl. repeat split. by eapply py_set_length.
  - rewrite list_lookup_insert_ne by done. eauto 10.
Qed.

Lemma keeps_set_rank_dims sol t i r : keeps (same_dims sol) (set_rank t i r).
Proof.
  intros st o Ho. unfold set_rank, bind, load, lift, store.
  destruct (heap st !! t) as [o'|] eqn:Ht; simpl; [|eauto 10].
  destruct (py_set (ranks o') i r) as [rs|] eqn:Hrs; simpl; [|eauto 10].
  destruct (decide (t = sol)) as [->|Hne].
  - rewrite list_lookup_insert_eq by (by eapply lookup_lt_Some).
    replace o' with o in * by congruence.
    eexists. split; [done|]. simpl. repeat split. by eapply py_set_length.
  - rewrite list_lookup_insert_ne by done. eauto 10.
Qed.

#[local] Hint Resolve keeps_tick_ranks keeps_tick_dims keeps_set_core_ranks
  keeps_set_core_dims keeps_set_rank_dims : kept.

Ltac kept ::=
  repeat first
    [ solve [auto with kept]
    | apply keeps_heap_frame; solve [auto with kept]
    | keeps_step ].

(** Inversion of the first statement of a successful run [H]. *)
Ltac inv_prim H :=
  first
    [ apply ret_inv in H as [-> ->]
    | apply tick_inv in H as ->
    | apply lift_inv in H as [-> H]
    | apply get_order_inv in H as [-> (? & H & ->)]
    | apply get_core_inv in H as [-> (? & ? & H)]
    | apply get_rank_inv in H as [-> (? & ? & H)]
    | apply get_row_dim_inv in H as [-> (? & ? & H)]
    | apply get_col_dim_inv in H as [-> (? & ? & H)]
    | apply set_core_inv in H as (? & ? & ? & H & ->)
    | apply set_rank_inv in H as (? & ? & ? & H & ->) ].

Ltac step H :=
  let Hs := fresh "Hs" in
  apply bind_inv_Ok in H as (? & ? & Hs & H); inv_prim Hs.

(** Inversion of a successful straight-line run, as far as it goes. *)
Ltac inv_run H :=
  first
    [ inv_prim H
    | apply ret_inv in H as [-> _]
    | let Hs := fresh "Hs" in
      apply bind_inv_Ok in H as (? & ? & Hs & H); inv_run Hs; inv_run H
    | idtac ].

(** The suffix [m] of a run [H : m st = (st', _)] keeps [R]. *)
Ltac suffix_keeps R H K :=
  match type of H with
  | ?m ?stk = _ =>
      assert (keeps R m) as K by kept;
      specialize (K stk); rewrite H in K; simpl in K
  end.

Lemma set_rank_then sol i r st stk :
  set_rank sol i r st = (stk, Ok tt) ->
  exists t, heap stk !! sol = Some t /\ py_get (ranks t) i = Ok r.
Proof.
  intros (o & rs & Ho & Hrs & ->)%set_rank_inv. simpl.
  exists (with_ranks o rs). split.
  - apply list_lookup_insert_eq. by eapply lookup_lt_Some.
  - simpl. by eapply py_get_set_eq.
Qed.

(** C4. After a successful MALS core update, forward or backward, the
    new bond rank [ranks[i+1]] is the number of retained singular values
    [s'] of the SVD's [s]; with a cap [k >= 0] that number is at most [k];
    with a non-zero threshold every retained value [x] has
    [x / s[0] > threshold]; with a zero threshold nothing is dropped but
    by the cap; and with an unbounded cap nothing is dropped but by the
    threshold. *)
Theorem mals_update_truncation
    (i : Z) (micro_op micro_rhs : array) (sol : loc) (solver direction : string)
    (threshold : F) (max_rank : rank_cap) (st st' : state) :
  direction = "forward" \/ direction = "backward" ->
  update_core_mals i micro_op micro_rhs sol solver direction threshold max_rank st
    = (st', Ok tt) ->
  exists (m u v : array) (s s' : list F) (t' : TT),
    la_svd m = Ok (u, s, v) /\
    heap st' !! sol = Some t' /\
    py_get (ranks t') (i + 1) = Ok (length s') /\
    (forall k, max_rank = cap k -> 0 <= k -> Z.of_nat (length s') <= k) /\
    (f_is_zero threshold = false ->
       forall x, In x s' ->
         exists s0, head s = Some s0 /\ f_gt (f_div x s0) threshold = true) /\
    (f_is_zero threshold = true ->
       s' = match max_rank with
            | np_infty => s
            | cap k => slice_list s (Z.min (Z.of_nat (length s)) k)
            end) /\
    (max_rank = np_infty ->
       s' = if f_is_zero threshold then s
            else match s with
                 | [] => []
                 | s0 :: _ => List.filter (fun x => f_gt (f_div x s0) threshold) s
                 end).
Proof.
  intros Hdir Hrun. unfold update_core_mals in Hrun.
  apply bind_inv_Ok in Hrun as (st1 & [] & _ & Hrun).
  apply bind_inv_Ok in Hrun as (st2 & [] & _ & Hrun).
  apply bind_inv_Ok in Hrun as (st3 & [] & H3 & H4).
  assert (exists m u v s s' stk,
    la_svd m = Ok (u, s, v) /\ s' = spec_retained threshold max_rank s /\
    (exists t, heap stk !! sol = Some t /\ py_get (ranks t) (i + 1) = Ok (length s')) /\
    same_ranks sol stk st') as (m & u & v & s & s' & stk & Hsvd & -> & (t & Ht & Hr) & Hk).
  { destruct Hdir as [-> | ->]; simpl in H3, H4.
    - apply ret_inv in H4 as [-> _].
      do 9 step H3.
      repeat match goal with x : (_ * _)%type |- _ => destruct x end.
      simpl in *.
      apply bind_inv_Ok in H3 as (stk & [] & Hset & H3).
      suffix_keeps (same_ranks sol) H3 K.
      match goal with
      | Hsvd : la_svd ?m = Ok (?u, ?s, ?v),
        Hred : rank_reduction_forward _ _ _ _ = Ok (_, ?s') |- _ =>
          exists m, u, v, s, s', stk; split; [exact Hsvd|]; split;
          [by eapply rank_reduction_forward_retained|]
      end.
      split; [by eapply set_rank_then|done].
    - apply ret_inv in H3 as [-> _].
      do 9 step H4.
      repeat match goal with x : (_ * _)%type |- _ => destruct x end.
      simpl in *.
      apply bind_inv_Ok in H4 as (stk & [] & Hset & H4).
      suffix_keeps (same_ranks sol) H4 K.
      match goal with
      | Hsvd : la_svd ?m = Ok (?u, ?s, ?v),
        Hred : rank_reduction_backward _ _ _ _ _ = Ok (_, ?s', _) |- _ =>
          exists m, u, v, s, s', stk; split; [exact Hsvd|]; split;
          [by eapply rank_reduction_backward_retained|]
      end.
      split; [by eapply set_rank_then|done]. }
  destruct (Hk t Ht) as (t' & Ht' & Hranks).
  exists m, u, v, s, (spec_retained threshold max_rank s), t'.
  split; [done|]. split; [done|]. split; [by rewrite Hranks|].
  split; [|split; [|split]].
  - intros k -> Hk0. by apply spec_retained_cap.
  - intros Hz x Hx. by eapply spec_retained_ratio.
  - intros Hz. by apply spec_retained_zero_threshold.
  - intros ->. apply spec_retained_unbounded.
Qed.

(** ** Arrays *)

Lemma reshape_Ok (a b : array) dims :
  reshape a dims = Ok b ->
  b = NdArray dims (data a) /\ size_of dims = size_of (shape a).
Proof.
  unfold reshape. destruct (Nat.eqb_spec (size_of dims) (size_of (shape a))); [|done].
  by intros [= <-].
Qed.

Lemma solve_with_Ok d bad (a b x : array) :
  solve_with d bad a b = Ok x ->
  exists m k xd, shape a = [m; m] /\ shape b = [m; k] /\ d a b = Some xd /\
    x = NdArray [m; k] xd.
Proof.
  unfold solve_with. destruct (shape a) as [|m [|n [|? ?]]]; try done.
  destruct (Nat.eqb_spec m n) as [<-|]; [|done]. simpl.
  destruct (shape b) as [|m' [|k [|? ?]]]; try done.
  destruct (Nat.eqb_spec m m') as [<-|]; [|done]. simpl.
  destruct (d a b) as [xd|]; [|done]. intros [= <-]. eauto 10.
Qed.

Lemma la_lu_factor_Ok (a : array) lu :
  la_lu_factor a = Ok lu ->
  exists m, shape a = [m; m] /\ lu = LuPiv m (d_lu_factor a).
Proof.
  unfold la_lu_factor. destruct (shape a) as [|m [|n [|? ?]]]; try done.
  destruct (Nat.eqb_spec m n) as [<-|]; [|done]. intros [= <-]. eauto.
Qed.

Lemma la_lu_solve_Ok lu (b x : array) :
  la_lu_solve lu b = Ok x ->
  exists k, shape b = [lu_n lu; k] /\ x = NdArray [lu_n lu; k] (d_lu_solve lu b).
Proof.
  unfold la_lu_solve. destruct (shape b) as [|m [|k [|? ?]]]; try done.
  destruct (Nat.eqb_spec (lu_n lu) m) as [<-|]; [|done]. intros [= <-]. eauto.
Qed.

(** ** Symbolic stores *)

Lemma lookup_insert_here (h : list TT) l o o' :
  h !! l = Some o -> <[l:=o']> h !! l = Some o'.
Proof. intros Hl. apply list_lookup_insert_eq. by eapply lookup_lt_Some. Qed.

(** Simplifies the look-ups in the stores that [step] builds. *)
Ltac norm_store :=
  repeat first
    [ progress simpl heap in *
    | match goal with
      | H2 : <[?l:=?o']> ?h !! ?l = Some ?o2 |- _ =>
          rewrite list_lookup_insert_eq in H2
            by (rewrite ?length_insert; eapply lookup_lt_Some; eassumption);
          injection H2 as <-
      | H1 : ?h !! ?l = Some ?a, H2 : ?h !! ?l = Some ?b |- _ =>
          rewrite H1 in H2; injection H2 as <-
      end ].

(** ** The terminal steps of the backward half-sweeps *)

Ltac read_back :=
  match goal with
  | Hset : py_set _ ?i ?x = Ok ?cs, Hget : py_get ?cs ?i = Ok ?c |- _ =>
      rewrite (py_get_set_eq _ _ _ _ Hset) in Hget; injection Hget as <-
  end.

Ltac reshaped :=
  match goal with
  | Hr : reshape _ _ = Ok _ |- _ => apply reshape_Ok in Hr as [-> ?]
  end.

Lemma als_backward_site0 (micro_op micro_rhs : array) sol solver st st' :
  solver = "solve" \/ solver = "lu" ->
  update_core_als 0 micro_op micro_rhs sol solver "backward" st = (st', Ok tt) ->
  exists (x : array) (t t' : TT) (r0 n0 r1 : nat),
    (solver = "solve" /\ np_linalg_solve micro_op micro_rhs = Ok x \/
     solver = "lu" /\ exists lu,
       la_lu_factor micro_op = Ok lu /\ la_lu_solve lu micro_rhs = Ok x) /\
    heap st !! sol = Some t /\ heap st' !! sol = Some t' /\
    py_get (ranks t) 0 = Ok r0 /\ py_get (row_dims t) 0 = Ok n0 /\
    py_get (ranks t) 1 = Ok r1 /\
    py_get (cores t') 0 = Ok (NdArray [r0; n0; 1; r1]%nat (data x)) /\
    ranks t' = ranks t /\
    log st' = log st ++ [EvSolve 0].
Proof.
  intros Hsolver Hrun. unfold update_core_als in Hrun.
  destruct Hsolver as [-> | ->]; simpl in Hrun.
  - inv_run Hrun. norm_store. simpl in *. read_back. reshaped.
    match goal with
    | Hsol : np_linalg_solve _ _ = Ok ?x, Ht : heap st !! sol = Some ?t |- _ =>
        exists x, t; eexists; do 3 eexists
    end.
    split; [left; eauto|].
    split; [eassumption|].
    split; [eapply lookup_insert_here, lookup_insert_here; eassumption|].
    split; [eassumption|]. split; [eassumption|]. split; [eassumption|].
    split; [simpl; by eapply py_get_set_eq|]. done.
  - inv_run Hrun. norm_store. simpl in *. read_back. reshaped.
    match goal with
    | Hsol : la_lu_solve _ _ = Ok ?x, Ht : heap st !! sol = Some ?t |- _ =>
        exists x, t; eexists; do 3 eexists
    end.
    split; [right; eauto|].
    split; [eassumption|].
    split; [eapply lookup_insert_here, lookup_insert_here; eassumption|].
    split; [eassumption|]. split; [eassumption|]. split; [eassumption|].
    split; [simpl; by eapply py_get_set_eq|]. done.
Qed.

Lemma mals_backward_pair0 (micro_op micro_rhs : array) sol solver
    threshold max_rank st st' :
  update_core_mals 0 micro_op micro_rhs sol solver "backward" threshold max_rank st
    = (st', Ok tt) ->
  exists (m u v u' v' us : array) (s s' : list F) (t' : TT) (r0 n0 n1 r2 : nat),
    la_svd m = Ok (u, s, v) /\
    rank_reduction_backward threshold max_rank u s v = Ok (u', s', v') /\
    matmul u' (np_diag s') = Ok us /\
    heap st' !! sol = Some t' /\
    py_get (ranks t') 1 = Ok (length s') /\
    py_get (cores t') 0 = Ok (NdArray [r0; n0; 1; length s']%nat (data us)) /\
    py_get (cores t') 1 = Ok (NdArray [length s'; n1; 1; r2]%nat (data v')).
Proof.
  intros Hrun. unfold update_core_mals in Hrun.
  apply bind_inv_Ok in Hrun as (st1 & [] & _ & Hrun).
  apply bind_inv_Ok in Hrun as (st2 & [] & _ & Hrun).
  simpl in Hrun. inv_run Hrun.
  repeat match goal with x : (_ * _)%type |- _ => destruct x end.
  norm_store. simpl in *. change (0 + 1) with 1 in *. change (0 + 2) with 2 in *.
  repeat read_back. repeat reshaped.
  match goal with
  | Hsvd : la_svd ?m = Ok (?u, ?s, ?v),
    Hred : rank_reduction_backward _ _ _ _ _ = Ok (?u', ?s', ?v'),
    Hmm : matmul _ _ = Ok ?us |- _ =>
      exists m, u, v, u', v', us, s, s'
  end.
  eexists. do 4 eexists.
  split; [eassumption|]. split; [eassumption|]. split; [eassumption|].
  split.
  { eapply lookup_insert_here, lookup_insert_here, lookup_insert_here. eassumption. }
  simpl. split; [by eapply py_get_set_eq|].
  split; [by eapply py_get_set_eq|].
  match goal with
  | H0 : py_set ?cs 0 _ = Ok ?cs' |- py_get ?cs' 1 = _ =>
      rewrite (py_get_set_ne _ _ 0 1 _ H0) by lia
  end.
  by eapply py_get_set_eq.
Qed.

(** C6. In the backward half-sweep of ALS the update at site 0 performs
    the local solve and no factorization: core 0 of the solution becomes
    the solved values, unchanged, under the 4-axis shape
    [(ranks[0], row_dims[0], 1, ranks[1])], and no rank is reassigned.
    In the backward half-sweep of MALS the update at pair 0 stores
    [u @ diag(s)] (truncated left factor times the diagonal of the
    retained singular values) as core 0 and the truncated right factor
    [v] as core 1. *)
Theorem terminal_backward_updates
    (micro_op micro_rhs : array) (sol : loc) (solver : string)
    (threshold : F) (max_rank : rank_cap) (st st' : state) :
  (solver = "solve" \/ solver = "lu" ->
   update_core_als 0 micro_op micro_rhs sol solver "backward" st = (st', Ok tt) ->
   exists (x : array) (t t' : TT) (r0 n0 r1 : nat),
     (solver = "solve" /\ np_linalg_solve micro_op micro_rhs = Ok x \/
      solver = "lu" /\ exists lu,
        la_lu_factor micro_op = Ok lu /\ la_lu_solve lu micro_rhs = Ok x) /\
     heap st !! sol = Some t /\ heap st' !! sol = Some t' /\
     py_get (ranks t) 0 = Ok r0 /\ py_get (row_dims t) 0 = Ok n0 /\
     py_get (ranks t) 1 = Ok r1 /\
     py_get (cores t') 0 = Ok (NdArray [r0; n0; 1; r1]%nat (data x)) /\
     ranks t' = ranks t /\
     log st' = log st ++ [EvSolve 0]) /\
  (update_core_mals 0 micro_op micro_rhs sol solver "backward" threshold max_rank st
     = (st', Ok tt) ->
   exists (m u v u' v' us : array) (s s' : list F) (t' : TT) (r0 n0 n1 r2 : nat),
     la_svd m = Ok (u, s, v) /\
     rank_reduction_backward threshold max_rank u s v = Ok (u', s', v') /\
     matmul u' (np_diag s') = Ok us /\
     heap st' !! sol = Some t' /\
     py_get (ranks t') 1 = Ok (length s') /\
     py_get (cores t') 0 = Ok (NdArray [r0; n0; 1; length s']%nat (data us)) /\
     py_get (cores t') 1 = Ok (NdArray [length s'; n1; 1; r2]%nat (data v'))).
Proof.
  split.
  - apply als_backward_site0.
  - apply mals_backward_pair0.
Qed.

(** ** The backward half-sweep of MALS, core by core *)

#[local] Instance only_core_preorder sol i : PreOrder (only_core sol i).
Proof.
  split; unfold only_core.
  - intros st t Ht. eauto 10.
  - intros st1 st2 st3 H12 H23 t Ht.
    destruct (H12 t Ht) as (t2 & Ht2 & Ea & Eb & Ec & Ed).
    destruct (H23 t2 Ht2) as (t3 & Ht3 & Fa & Fb & Fc & Fd).
    exists t3. split; [done|]. repeat split; try congruence.
    intros j Hj Hne. by rewrite Fd, Ed.
Qed.

Lemma keeps_tick_only_core sol i e : keeps (only_core sol i) (tick e).
Proof. intros st t Ht. simpl. eauto 10. Qed.

Lemma keeps_set_core_only_core sol i x :
  0 <= i -> keeps (only_core sol i) (set_core sol i x).
Proof.
  intros Hi st o Ho. unfold set_core, bind, load, lift, store.
  rewrite Ho. simpl.
  destruct (py_set (cores o) i x) as [cs|] eqn:Hcs; simpl; [|eauto 10].
  rewrite (lookup_insert_here _ _ _ _ Ho).
  eexists. split; [done|]. simpl. repeat split.
  intros j Hj Hne. by eapply py_get_set_ne.
Qed.

#[local] Hint Resolve keeps_tick_only_core keeps_set_core_only_core : kept.


Lemma four_axis_core_ext (t t' : TT) j :
  py_get (cores t') j = py_get (cores t) j ->
  py_get (ranks t') j = py_get (ranks t) j ->
  py_get (ranks t') (j + 1) = py_get (ranks t) (j + 1) ->
  row_dims t' = row_dims t ->
  four_axis_core t j -> four_axis_core t' j.
Proof.
  intros Hc Hr Hr' Hn (c & r & n & r' & ? & ? & ? & ? & ?).
  exists c, r, n, r'. rewrite Hc, Hr, Hr', Hn. done.
Qed.

Lemma mals_backward_step i (a b : array) sol solver threshold max_rank st st' t :
  0 <= i -> heap st !! sol = Some t ->
  update_core_mals i a b sol solver "backward" threshold max_rank st = (st', Ok tt) ->
  exists t', heap st' !! sol = Some t' /\ four_axis_core t' (i + 1) /\
    (forall j, i + 2 <= j -> four_axis_core t j -> four_axis_core t' j) /\
    (i = 0 -> four_axis_core t' 0).
Proof.
  intros Hi Ht Hrun. unfold update_core_mals in Hrun.
  apply bind_inv_Ok in Hrun as (st1 & [] & H1 & Hrun).
  apply bind_inv_Ok in Hrun as (st2 & [] & H2 & Hrun).
  suffix_keeps (only_core sol i) H1 K1.
  suffix_keeps (only_core sol i) H2 K2.
  destruct (K1 t Ht) as (t1 & Ht1 & Ea & Eb & Ec & Ed).
  destruct (K2 t1 Ht1) as (t2 & Ht2 & Fa & Fb & Fc & Fd).
  clear H1 H2 K1 K2.
  simpl in Hrun. inv_run Hrun.
  repeat match goal with x : (_ * _)%type |- _ => destruct x end.
  norm_store. simpl in *. repeat read_back. repeat reshaped.
  match goal with
  | Hr : py_set (ranks ?x) (i + 1) _ = Ok ?rs,
    Hc : py_set (cores ?x) (i + 1) _ = Ok ?cs |- _ =>
      set (tk := with_cores (with_ranks x rs) cs) in *;
      assert (four_axis_core tk (i + 1)) as HA;
      [|assert (forall j, i + 2 <= j -> four_axis_core t j -> four_axis_core tk j) as HB]
  end.
  { do 4 eexists. subst tk. simpl. split; [by eapply py_get_set_eq|].
    split; [by eapply py_get_set_eq|]. split; [eassumption|].
    replace (i + 1 + 1) with (i + 2) by lia. split; [eassumption|done]. }
  { intros j Hj. apply four_axis_core_ext; subst tk; simpl.
    - erewrite py_get_set_ne by (eassumption || lia).
      rewrite Fd, Ed by lia. done.
    - erewrite py_get_set_ne by (eassumption || lia). congruence.
    - erewrite py_get_set_ne by (eassumption || lia). congruence.
    - congruence. }
  destruct (Z.eqb_spec i 0) as [->|Hne].
  - inv_run Hrun. norm_store. simpl in *. repeat reshaped.
    eexists. split.
    { eapply lookup_insert_here, lookup_insert_here, lookup_insert_here. eassumption. }
    match goal with
    | H0 : py_set _ 0 ?c0 = Ok ?cs0 |- _ =>
        assert (forall j, 1 <= j -> four_axis_core tk j ->
                  four_axis_core (with_cores tk cs0) j) as Hext
    end.
    { intros j Hj. apply four_axis_core_ext; simpl; try done.
      erewrite py_get_set_ne by (eassumption || lia). done. }
    split; [apply Hext; [lia|done]|].
    split; [intros j Hj Hc; apply Hext; [lia|by apply HB]|].
    intros _. do 4 eexists. simpl. split; [by eapply py_get_set_eq|].
    split; [eassumption|]. split; [eassumption|]. split; [eassumption|done].
  - apply ret_inv in Hrun as [-> _]. simpl.
    exists tk. split; [|split; [done|split; [done|lia]]].
    eapply lookup_insert_here, lookup_insert_here. eassumption.
Qed.

Lemma mals_backward_raw i (a b : array) sol solver threshold max_rank st st' :
  0 < i -> solver = "solve" \/ solver = "lu" ->
  update_core_mals i a b sol solver "backward" threshold max_rank st = (st', Ok tt) ->
  exists (x v' : array) (s' : list F) (t' : TT) (m k n1 r2 : nat),
    (solver = "solve" /\ la_solve a b = Ok x \/
     solver = "lu" /\ exists lu, la_lu_factor a = Ok lu /\ la_lu_solve lu b = Ok x) /\
    shape x = [m; k] /\
    heap st' !! sol = Some t' /\
    py_get (cores t') i = Ok x /\
    py_get (cores t') (i + 1)
      = Ok (NdArray [length s'; n1; 1; r2]%nat (data v')).
Proof.
  intros Hi Hsolver Hrun. unfold update_core_mals in Hrun.
  replace (i =? 0) with false in Hrun by (symmetry; apply Z.eqb_neq; lia).
  destruct Hsolver as [-> | ->]; simpl in Hrun.
  - inv_run Hrun.
    repeat match goal with x : (_ * _)%type |- _ => destruct x end.
    norm_store. simpl in *. repeat read_back. repeat reshaped.
    match goal with
    | Hsol : la_solve _ _ = Ok ?x,
      Hred : rank_reduction_backward _ _ _ _ _ = Ok (_, ?s', ?v') |- _ =>
        destruct (solve_with_Ok _ _ _ _ _ Hsol) as (m & k & xd & _ & _ & _ & Hx);
        exists x, v', s'; eexists; exists m, k; do 2 eexists
    end.
    split; [left; eauto|]. split; [by subst|]. split.
    { eapply lookup_insert_here, lookup_insert_here, lookup_insert_here. eassumption. }
    simpl. split; [|by eapply py_get_set_eq].
    erewrite py_get_set_ne by (eassumption || lia). by eapply py_get_set_eq.
  - inv_run Hrun.
    repeat match goal with x : (_ * _)%type |- _ => destruct x end.
    norm_store. simpl in *. repeat read_back. repeat reshaped.
    match goal with
    | Hsol : la_lu_solve ?lu _ = Ok ?x,
      Hred : rank_reduction_backward _ _ _ _ _ = Ok (_, ?s', ?v') |- _ =>
        destruct (la_lu_solve_Ok _ _ _ Hsol) as (k & _ & Hx);
        exists x, v', s'; eexists; exists (lu_n lu), k; do 2 eexists
    end.
    split; [right; eauto|]. split; [by subst|]. split.
    { eapply lookup_insert_here, lookup_insert_here, lookup_insert_here. eassumption. }
    simpl. split; [|by eapply py_get_set_eq].
    erewrite py_get_set_ne by (eassumption || lia). by eapply py_get_set_eq.
Qed.

Lemma keeps_run {A} R (m : M A) st st' r :
  keeps R m -> m st = (st', r) -> R st st'.
Proof. intros Hk Hrun. specialize (Hk st). by rewrite Hrun in Hk. Qed.

Lemma mals_backward_body i op rhs sol solver threshold max_rank st st' t :
  0 <= i -> heap st !! sol = Some t ->
  (construct_stack_right_op (i + 1) op sol ;;
   construct_stack_right_rhs (i + 1) rhs sol ;;
   micro_op <- construct_micro_matrix_mals i op sol ;;
   micro_rhs <- construct_micro_rhs_mals i rhs sol ;;
   update_core_mals i micro_op micro_rhs sol solver "backward"
     threshold max_rank) st = (st', Ok tt) ->
  exists t', heap st' !! sol = Some t' /\ four_axis_core t' (i + 1) /\
    (forall j, i + 2 <= j -> four_axis_core t j -> four_axis_core t' j) /\
    (i = 0 -> four_axis_core t' 0).
Proof.
  intros Hi Ht Hrun.
  apply bind_inv_Ok in Hrun as (st1 & [] & H1 & Hrun).
  apply bind_inv_Ok in Hrun as (st2 & [] & H2 & Hrun).
  apply bind_inv_Ok in Hrun as (st3 & a & H3 & Hrun).
  apply bind_inv_Ok in Hrun as (st4 & b & H4 & Hrun).
  apply (keeps_run same_heap) in H1; [|kept].
  apply (keeps_run same_heap) in H2; [|kept].
  apply (keeps_run same_heap) in H3; [|kept].
  apply (keeps_run same_heap) in H4; [|kept].
  unfold same_heap in *.
  eapply mals_backward_step; [done| |exact Hrun]. congruence.
Qed.

Lemma mals_backward_loop op rhs sol solver threshold max_rank n :
  forall (k : nat) hi st st' t,
    Z.of_nat k = hi + 1 -> hi + 2 <= n ->
    heap st !! sol = Some t ->
    (forall j, hi + 2 <= j < n -> four_axis_core t j) ->
    (hi = -1 -> four_axis_core t 0) ->
    for_ (range_down hi (-1)) (fun i =>
      construct_stack_right_op (i + 1) op sol ;;
      construct_stack_right_rhs (i + 1) rhs sol ;;
      micro_op <- construct_micro_matrix_mals i op sol ;;
      micro_rhs <- construct_micro_rhs_mals i rhs sol ;;
      update_core_mals i micro_op micro_rhs sol solver "backward"
        threshold max_rank) st = (st', Ok tt) ->
    exists t', heap st' !! sol = Some t' /\
      forall j, 0 <= j < n -> four_axis_core t' j.
Proof.
  induction k as [|k IH]; intros hi st st' t Hk Hn Ht Hhigh Hzero Hrun.
  - assert (hi = -1) as -> by lia. rewrite range_down_nil in Hrun by lia.
    apply ret_inv in Hrun as [-> _]. exists t. split; [done|].
    intros j Hj. destruct (decide (j = 0)) as [->|]; [by apply Hzero|].
    apply Hhigh. lia.
  - rewrite range_down_cons in Hrun by lia. simpl in Hrun.
    apply bind_inv_Ok in Hrun as (st1 & [] & Hbody & Hrun).
    eapply mals_backward_body in Hbody as (t1 & Ht1 & Hnew & Hkeep & Hfirst);
      [|lia|exact Ht].
    eapply (IH (hi - 1)); [lia|lia|exact Ht1| | |exact Hrun].
    + intros j Hj. destruct (decide (j = hi + 1)) as [->|]; [done|].
      apply Hkeep; [lia|]. apply Hhigh. lia.
    + intros Hhi. apply Hfirst. lia.
Qed.

(** C10. A successful backward MALS update at a pair [i > 0] leaves
    core [i] of the solution holding the array the local solve returned,
    a 2-d array, and writes core [i+1] as a 4-axis array; and when a
    whole backward half-sweep over an operator of order at least 2 has
    succeeded, every core [j < order] of the solution is a 4-axis array
    of shape [(ranks[j], row_dims[j], 1, ranks[j+1])]. *)
Theorem mals_backward_core_shapes
    (op rhs sol : loc) (solver : string) (threshold : F) (max_rank : rank_cap)
    (i : Z) (micro_op micro_rhs : array) (st st' : state) :
  (0 < i -> solver = "solve" \/ solver = "lu" ->
   update_core_mals i micro_op micro_rhs sol solver "backward"
     threshold max_rank st = (st', Ok tt) ->
   exists (x v' : array) (s' : list F) (t' : TT) (m k n1 r2 : nat),
     (solver = "solve" /\ la_solve micro_op micro_rhs = Ok x \/
      solver = "lu" /\ exists lu,
        la_lu_factor micro_op = Ok lu /\ la_lu_solve lu micro_rhs = Ok x) /\
     shape x = [m; k] /\
     heap st' !! sol = Some t' /\
     py_get (cores t') i = Ok x /\
     py_get (cores t') (i + 1)
       = Ok (NdArray [length s'; n1; 1; r2]%nat (data v'))) /\
  (forall opT t,
     heap st !! op = Some opT -> heap st !! sol = Some t -> 2 <= order opT ->
     mals_second_half_sweep op rhs sol solver threshold max_rank st = (st', Ok tt) ->
     exists t', heap st' !! sol = Some t' /\
       forall j, 0 <= j < order opT -> four_axis_core t' j).
Proof.
  split; [apply mals_backward_raw|].
  intros opT t Hop Ht Hord Hrun. unfold mals_second_half_sweep in Hrun.
  apply bind_inv_Ok in Hrun as (st1 & n & Hn & Hrun).
  apply get_order_inv in Hn as [-> (o & Ho & ->)].
  replace o with opT in * by congruence.
  eapply (mals_backward_loop _ _ _ _ _ _ (order opT) (Z.to_nat (order opT - 1)));
    [| |exact Ht| | |exact Hrun]; try lia.
Qed.

(** ** ALS never raises a rank *)

Lemma pointwise_le_refl l : pointwise_le l l.
Proof. split; [done|]. intros j r Hr. eauto. Qed.

Lemma pointwise_le_trans l1 l2 l3 :
  pointwise_le l1 l2 -> pointwise_le l2 l3 -> pointwise_le l1 l3.
Proof.
  intros [L12 H12] [L23 H23]. split; [congruence|].
  intros j r1 Hr1. destruct (H12 j r1 Hr1) as (r2 & Hr2 & Hle2).
  destruct (H23 j r2 Hr2) as (r3 & Hr3 & Hle3). exists r3. split; [done|lia].
Qed.

Lemma pointwise_le_insert l k r r0 :
  l !! k = Some r0 -> (r <= r0)%nat -> pointwise_le (<[k:=r]> l) l.
Proof.
  intros Hk Hle. split; [apply length_insert|].
  intros j r' Hj. destruct (decide (j = k)) as [->|Hne].
  - rewrite list_lookup_insert_eq in Hj by (by eapply lookup_lt_Some).
    injection Hj as <-. eauto.
  - rewrite list_lookup_insert_ne in Hj by done. eauto.
Qed.

#[local] Instance ranks_le_preorder sol : PreOrder (ranks_le sol).
Proof.
  split; unfold ranks_le.
  - intros st t Ht. exists t. split; [done|apply pointwise_le_refl].
  - intros st1 st2 st3 H12 H23 t Ht.
    destruct (H12 t Ht) as (t2 & Ht2 & E2).
    destruct (H23 t2 Ht2) as (t3 & Ht3 & E3).
    exists t3. split; [done|]. eauto using pointwise_le_trans.
Qed.

Lemma same_ranks_le sol st st' : same_ranks sol st st' -> ranks_le sol st st'.
Proof.
  intros Hs t Ht. destruct (Hs t Ht) as (t' & Ht' & E).
  exists t'. split; [done|]. rewrite E. apply pointwise_le_refl.
Qed.

Lemma keeps_ranks_le_of_same {A} sol (m : M A) :
  keeps (same_ranks sol) m -> keeps (ranks_le sol) m.
Proof. apply keeps_weaken, same_ranks_le. Qed.

Lemma keeps_same_ranks_of_heap {A} sol (m : M A) :
  keeps same_heap m -> keeps (same_ranks sol) m.
Proof. apply keeps_weaken, same_heap_ranks. Qed.

Lemma run_bind {A B} (R : state -> state -> Prop) `{!PreOrder R}
    (m : M A) (f : A -> M B) st :
  R st (m st).1 ->
  (forall st1 a, m st = (st1, Ok a) -> R st1 (f a st1).1) ->
  R st (bind m f st).1.
Proof.
  intros Hm Hf. unfold bind. destruct (m st) as [st1 [a|e]] eqn:E; simpl in *.
  - etrans; [exact Hm|]. by apply Hf.
  - done.
Qed.

Lemma set_rank_le sol i k st t r :
  heap st !! sol = Some t -> py_get (ranks t) i = Ok r -> (k <= r)%nat ->
  ranks_le sol st (set_rank sol i k st).1.
Proof.
  intros Ht Hr Hle o Ho. replace o with t by congruence.
  unfold set_rank, bind, load, lift, store. rewrite Ht. simpl.
  destruct (py_set (ranks t) i k) as [rs|] eqn:Hrs; simpl.
  - rewrite (lookup_insert_here _ _ _ _ Ht). eexists. split; [done|]. simpl.
    apply py_set_Ok in Hrs as (j & Hj & _ & ->).
    apply py_get_Ok in Hr as (j' & Hj' & Hr).
    replace j' with j in * by congruence.
    by eapply pointwise_le_insert.
  - exists t. split; [done|apply pointwise_le_refl].
Qed.

(** One statement of a straight-line run, towards [R st (m st).1]. *)
Ltac run_step :=
  match goal with
  | |- ?R ?st (bind ?m ?f ?st).1 =>
      apply (run_bind R);
      [ try (refine ((_ : keeps R m) st); solve [kept])
      | let Hs := fresh "Hs" in intros ? ? Hs; try inv_prim Hs ]
  end.

Ltac kept ::=
  repeat first
    [ solve [auto with kept]
    | apply keeps_heap_frame; solve [auto with kept]
    | apply keeps_same_ranks_of_heap; solve [auto with kept]
    | apply keeps_ranks_le_of_same; solve [kept]
    | keeps_step ].

Lemma la_qr_Ok (a q : array) :
  la_qr a = Ok q -> exists m n, shape a = [m; n] /\ shape q = [m; Nat.min m n].
Proof.
  unfold la_qr. destruct (shape a) as [|m [|n [|? ?]]]; try done.
  intros [= <-]. eauto.
Qed.

Lemma la_rq_Ok (a q : array) :
  la_rq a = Ok q -> exists m n, shape a = [m; n] /\ shape q = [Nat.min m n; n].
Proof.
  unfold la_rq. destruct (shape a) as [|m [|n [|? ?]]]; try done.
  intros [= <-]. eauto.
Qed.

Lemma shape_at_Ok (q : array) k d : shape_at q k = Ok d -> shape q !! k = Some d.
Proof. unfold shape_at. destruct (shape q !! k); [by intros [= ->]|done]. Qed.

(** The rest of a run keeps [R]. *)
Ltac rest_keeps :=
  match goal with
  | |- ?R ?st (?m ?st).1 => refine ((_ : keeps R m) st); solve [kept]
  end.

Lemma update_core_als_ranks_le i (a b : array) sol solver direction :
  keeps (ranks_le sol) (update_core_als i a b sol solver direction).
Proof.
  intros st. unfold update_core_als.
  run_step. clear Hs. run_step. clear Hs.
  run_step.
  - destruct (String.eqb direction "forward"); [|reflexivity].
    do 8 run_step. norm_store. simpl.
    apply (run_bind (ranks_le sol)); [|intros; rest_keeps].
    reshaped.
    match goal with
    | Hq : la_qr _ = Ok _ |- _ => apply la_qr_Ok in Hq as (m & n & Hm & Hq)
    end.
    match goal with
    | Hq : shape ?q = _, Hk : shape_at ?q _ = Ok _ |- _ =>
        apply shape_at_Ok in Hk; rewrite Hq in Hk
    end.
    simpl in *. simplify_eq.
    eapply set_rank_le; [simpl; eassumption|eassumption|lia].
  - destruct (String.eqb direction "backward"); [|reflexivity].
    destruct (0 <? i); [|rest_keeps].
    do 8 run_step. norm_store. simpl.
    apply (run_bind (ranks_le sol)); [|intros; rest_keeps].
    reshaped.
    match goal with
    | Hq : la_rq _ = Ok _ |- _ => apply la_rq_Ok in Hq as (m & n & Hm & Hq)
    end.
    match goal with
    | Hq : shape ?q = _, Hk : shape_at ?q _ = Ok _ |- _ =>
        apply shape_at_Ok in Hk; rewrite Hq in Hk
    end.
    simpl in *. simplify_eq.
    eapply set_rank_le; [simpl; eassumption|eassumption|lia].
Qed.

#[local] Hint Resolve update_core_als_ranks_le : kept.

Lemma als_first_half_sweep_ranks_le op rhs sol solver :
  keeps (ranks_le sol) (als_first_half_sweep op rhs sol solver).
Proof. unfold als_first_half_sweep. kept. Qed.

Lemma als_second_half_sweep_ranks_le op rhs sol solver :
  keeps (ranks_le sol) (als_second_half_sweep op rhs sol solver).
Proof. unfold als_second_half_sweep. kept. Qed.

Lemma als_forward_rank i (a b : array) sol solver st st' t :
  heap st !! sol = Some t ->
  update_core_als i a b sol solver "forward" st = (st', Ok tt) ->
  exists t' r0 n0 r1,
    heap st' !! sol = Some t' /\
    py_get (ranks t) i = Ok r0 /\ py_get (row_dims t) i = Ok n0 /\
    py_get (ranks t) (i + 1) = Ok r1 /\
    py_get (ranks t') (i + 1) = Ok (Nat.min (r0 * n0) r1).
Proof.
  intros Ht Hrun. unfold update_core_als in Hrun.
  apply bind_inv_Ok in Hrun as (st1 & [] & H1 & Hrun).
  apply bind_inv_Ok in Hrun as (st2 & [] & H2 & Hrun).
  pose proof H1 as H1'. pose proof H2 as H2'.
  apply (keeps_run (same_ranks sol)) in H1; [|kept].
  apply (keeps_run (same_ranks sol)) in H2; [|kept].
  apply (keeps_run (same_dims sol)) in H1'; [|kept].
  apply (keeps_run (same_dims sol)) in H2'; [|kept].
  destruct (H1 t Ht) as (t1 & Ht1 & Ea).
  destruct (H2 t1 Ht1) as (t2 & Ht2 & Eb).
  destruct (H1' t Ht) as (t1' & Ht1' & Ec & _).
  replace t1' with t1 in * by congruence.
  destruct (H2' t1 Ht1) as (t2' & Ht2' & Ed & _).
  replace t2' with t2 in * by congruence.
  clear H1 H2 H1' H2'. simpl in Hrun.
  apply bind_inv_Ok in Hrun as (st3 & [] & Hrun & H4).
  apply ret_inv in H4 as [-> _].
  do 8 step Hrun.
  apply bind_inv_Ok in Hrun as (stk & [] & Hset & Hrun).
  suffix_keeps (same_ranks sol) Hrun K.
  norm_store. simpl in *. reshaped.
  match goal with
  | Hq : la_qr _ = Ok _ |- _ => apply la_qr_Ok in Hq as (m & n & Hm & Hq)
  end.
  match goal with
  | Hq : shape ?q = _, Hk : shape_at ?q _ = Ok _ |- _ =>
      apply shape_at_Ok in Hk; rewrite Hq in Hk
  end.
  simpl in *. simplify_eq.
  apply set_rank_then in Hset as (tk & Htk & Hr).
  destruct (K tk Htk) as (t' & Ht' & E).
  do 4 eexists. split; [exact Ht'|].
  rewrite <- Ea, <- Eb, <- Ec, <- Ed, E.
  split; [eassumption|]. split; [eassumption|]. split; [eassumption|]. done.
Qed.

Lemma als_backward_rank i (a b : array) sol solver st st' t :
  0 < i -> heap st !! sol = Some t ->
  update_core_als i a b sol solver "backward" st = (st', Ok tt) ->
  exists t' r0 n0 r1,
    heap st' !! sol = Some t' /\
    py_get (ranks t) i = Ok r0 /\ py_get (row_dims t) i = Ok n0 /\
    py_get (ranks t) (i + 1) = Ok r1 /\
    py_get (ranks t') i = Ok (Nat.min r0 (n0 * r1)).
Proof.
  intros Hi Ht Hrun. unfold update_core_als in Hrun.
  apply bind_inv_Ok in Hrun as (st1 & [] & H1 & Hrun).
  apply bind_inv_Ok in Hrun as (st2 & [] & H2 & Hrun).
  pose proof H1 as H1'. pose proof H2 as H2'.
  apply (keeps_run (same_ranks sol)) in H1; [|kept].
  apply (keeps_run (same_ranks sol)) in H2; [|kept].
  apply (keeps_run (same_dims sol)) in H1'; [|kept].
  apply (keeps_run (same_dims sol)) in H2'; [|kept].
  destruct (H1 t Ht) as (t1 & Ht1 & Ea).
  destruct (H2 t1 Ht1) as (t2 & Ht2 & Eb).
  destruct (H1' t Ht) as (t1' & Ht1' & Ec & _).
  replace t1' with t1 in * by congruence.
  destruct (H2' t1 Ht1) as (t2' & Ht2' & Ed & _).
  replace t2' with t2 in * by congruence.
  clear H1 H2 H1' H2'. simpl in Hrun.
  apply bind_inv_Ok in Hrun as (st3 & [] & H3 & Hrun).
  apply ret_inv in H3 as [-> _].
  replace (0 <? i) with true in Hrun by (symmetry; apply Z.ltb_lt; lia).
  do 8 step Hrun.
  apply bind_inv_Ok in Hrun as (stk & [] & Hset & Hrun).
  suffix_keeps (same_ranks sol) Hrun K.
  norm_store. simpl in *. reshaped.
  match goal with
  | Hq : la_rq _ = Ok _ |- _ => apply la_rq_Ok in Hq as (m & n & Hm & Hq)
  end.
  match goal with
  | Hq : shape ?q = _, Hk : shape_at ?q _ = Ok _ |- _ =>
      apply shape_at_Ok in Hk; rewrite Hq in Hk
  end.
  simpl in *. simplify_eq.
  apply set_rank_then in Hset as (tk & Htk & Hr).
  destruct (K tk Htk) as (t' & Ht' & E).
  do 4 eexists. split; [exact Ht'|].
  rewrite <- Ea, <- Eb, <- Ec, <- Ed, E.
  split; [eassumption|]. split; [eassumption|]. split; [eassumption|]. done.
Qed.

Lemma als_body_ranks_le op rhs repeats solver sol :
  keeps (ranks_le sol)
    (define_stacks op ;;
     n <- get_order op ;;
     for_ (range_down (n - 1) (-1)) (fun i =>
       construct_stack_right_op i op sol ;;
       construct_stack_right_rhs i rhs sol) ;;
     for_ (range_up 1 (repeats + 1)) (fun _ =>
       als_first_half_sweep op rhs sol solver ;;
       als_second_half_sweep op rhs sol solver) ;;
     ret sol).
Proof.
  pose proof (als_first_half_sweep_ranks_le op rhs sol solver).
  pose proof (als_second_half_sweep_ranks_le op rhs sol solver).
  kept.
Qed.

Lemma tt_copy_inv ig st st1 sol :
  tt_copy ig st = (st1, Ok sol) ->
  exists o, heap st !! ig = Some o /\ sol = length (heap st) /\
    st1 = with_heap (heap st ++ [o]) st.
Proof.
  unfold tt_copy. destruct (heap st !! ig) as [o|]; [|done].
  intros [= <- <-]. eauto.
Qed.

Lemma lookup_snoc_here (h : list TT) o : (h ++ [o]) !! length h = Some o.
Proof. by rewrite list_lookup_middle. Qed.

(** C9. A successful forward ALS update at site [i] sets [ranks[i+1]]
    to the column count [min(ranks[i] * row_dims[i], ranks[i+1])] of the
    economy QR factor, a successful backward update at [i > 0] sets
    [ranks[i]] to the row count [min(ranks[i], row_dims[i] * ranks[i+1])]
    of the economy RQ factor, and every rank of the solution that [als]
    returns is at most the rank of the initial guess at the same
    position. *)
Theorem als_ranks_never_grow
    (op ig rhs sol : loc) (repeats i : Z) (solver : string)
    (micro_op micro_rhs : array) (st st' : state) (t : TT) :
  (heap st !! sol = Some t ->
   update_core_als i micro_op micro_rhs sol solver "forward" st = (st', Ok tt) ->
   exists t' r0 n0 r1,
     heap st' !! sol = Some t' /\
     py_get (ranks t) i = Ok r0 /\ py_get (row_dims t) i = Ok n0 /\
     py_get (ranks t) (i + 1) = Ok r1 /\
     py_get (ranks t') (i + 1) = Ok (Nat.min (r0 * n0) r1) /\
     (Nat.min (r0 * n0) r1 <= r1)%nat) /\
  (0 < i -> heap st !! sol = Some t ->
   update_core_als i micro_op micro_rhs sol solver "backward" st = (st', Ok tt) ->
   exists t' r0 n0 r1,
     heap st' !! sol = Some t' /\
     py_get (ranks t) i = Ok r0 /\ py_get (row_dims t) i = Ok n0 /\
     py_get (ranks t) (i + 1) = Ok r1 /\
     py_get (ranks t') i = Ok (Nat.min r0 (n0 * r1)) /\
     (Nat.min r0 (n0 * r1) <= r0)%nat) /\
  (heap st !! ig = Some t ->
   als op ig rhs repeats solver st = (st', Ok sol) ->
   exists t', heap st' !! sol = Some t' /\ pointwise_le (ranks t') (ranks t)).
Proof.
  split; [|split].
  - intros Ht Hrun.
    destruct (als_forward_rank _ _ _ _ _ _ _ _ Ht Hrun)
      as (t' & r0 & n0 & r1 & ? & ? & ? & ? & ?).
    exists t', r0, n0, r1. repeat split; try done. lia.
  - intros Hi Ht Hrun.
    destruct (als_backward_rank _ _ _ _ _ _ _ _ Hi Ht Hrun)
      as (t' & r0 & n0 & r1 & ? & ? & ? & ? & ?).
    exists t', r0, n0, r1. repeat split; try done. lia.
  - intros Hig Hrun. unfold als in Hrun.
    apply bind_inv_Ok in Hrun as (st1 & s & Hcopy & Hrun).
    apply tt_copy_inv in Hcopy as (o & Ho & -> & ->).
    replace o with t in * by congruence.
    pose proof (als_body_ranks_le op rhs repeats solver (length (heap st))) as K.
    pose proof (keeps_run _ _ _ _ _ K Hrun) as Hle.
    assert (sol = length (heap st)) as ->.
    { repeat (apply bind_inv_Ok in Hrun as (? & ? & _ & Hrun)).
      by apply ret_inv in Hrun as [_ ->]. }
    apply (Hle t). simpl. apply lookup_snoc_here.
Qed.

(** ** What a run logs *)

Lemma logs_ret {A} (a : A) : logs (ret a) [].
Proof. intros st st' b [-> _]%ret_inv. by rewrite app_nil_r. Qed.

Lemma logs_tick e : logs (tick e) [e].
Proof. by intros st st' a ->%tick_inv. Qed.

Lemma logs_quiet {A} (m : M A) : keeps same_log m -> logs m [].
Proof.
  intros Hk st st' a Hrun. rewrite app_nil_r.
  exact (keeps_run same_log _ _ _ _ Hk Hrun).
Qed.

Lemma logs_bind {A B} (m : M A) (f : A -> M B) t1 t2 :
  logs m t1 -> (forall a, logs (f a) t2) -> logs (bind m f) (t1 ++ t2).
Proof.
  intros Hm Hf st st' b (st1 & a & H1 & H2)%bind_inv_Ok.
  rewrite (Hf _ _ _ _ H2), (Hm _ _ _ H1). by rewrite app_assoc.
Qed.

Lemma logs_eq {A} (m : M A) t t' : logs m t -> t = t' -> logs m t'.
Proof. by intros ? <-. Qed.

Ltac logs_step :=
  match goal with
  | |- logs (ret _) _ => apply logs_ret
  | |- logs (tick _) _ => apply logs_tick
  | |- logs _ _ => apply logs_quiet; solve [kept]
  | |- logs (bind _ _) _ => eapply logs_bind; [|intros ?]
  end.

Ltac logs_go := eapply logs_eq; [repeat logs_step|simpl; try reflexivity].

Lemma construct_stack_left_op_logs i op sol :
  logs (construct_stack_left_op i op sol) [EvStack LeftOp i].
Proof. unfold construct_stack_left_op. logs_go. Qed.

Lemma construct_stack_left_rhs_logs i rhs sol :
  logs (construct_stack_left_rhs i rhs sol) [EvStack LeftRhs i].
Proof. unfold construct_stack_left_rhs. logs_go. Qed.

Lemma construct_stack_right_op_logs i op sol :
  logs (construct_stack_right_op i op sol) [EvStack RightOp i].
Proof. unfold construct_stack_right_op. logs_go. Qed.

Lemma construct_stack_right_rhs_logs i rhs sol :
  logs (construct_stack_right_rhs i rhs sol) [EvStack RightRhs i].
Proof. unfold construct_stack_right_rhs. logs_go. Qed.

Lemma construct_micro_matrix_als_logs i op sol :
  logs (construct_micro_matrix_als i op sol) [EvMicroOp i].
Proof. unfold construct_micro_matrix_als. logs_go. Qed.

Lemma construct_micro_matrix_mals_logs i op sol :
  logs (construct_micro_matrix_mals i op sol) [EvMicroOp i].
Proof. unfold construct_micro_matrix_mals. logs_go. Qed.

Lemma construct_micro_rhs_als_logs i rhs sol :
  logs (construct_micro_rhs_als i rhs sol) [EvMicroRhs i].
Proof. unfold construct_micro_rhs_als. logs_go. Qed.

Lemma construct_micro_rhs_mals_logs i rhs sol :
  logs (construct_micro_rhs_mals i rhs sol) [EvMicroRhs i].
Proof. unfold construct_micro_rhs_mals. logs_go. Qed.

Lemma update_core_als_forward_logs i (a b : array) sol solver :
  solver = "solve" \/ solver = "lu" ->
  logs (update_core_als i a b sol solver "forward") [EvSolve i; EvFactor i].
Proof. intros [-> | ->]; unfold update_core_als; simpl; logs_go. Qed.

Lemma update_core_als_backward_logs i (a b : array) sol solver :
  solver = "solve" \/ solver = "lu" ->
  logs (update_core_als i a b sol solver "backward")
    ([EvSolve i] ++ if 0 <? i then [EvFactor i] else []).
Proof.
  intros [-> | ->]; unfold update_core_als; simpl;
    destruct (0 <? i); logs_go.
Qed.

Lemma update_core_mals_logs i (a b : array) sol solver direction threshold max_rank :
  solver = "solve" \/ solver = "lu" ->
  direction = "forward" \/ direction = "backward" ->
  logs (update_core_mals i a b sol solver direction threshold max_rank)
    [EvSolve i; EvFactor i].
Proof.
  intros [-> | ->] [-> | ->]; unfold update_core_mals; simpl;
    try (destruct (i =? 0)); logs_go.
Qed.







Create HintDb logged discriminated.

#[local] Hint Resolve
  construct_stack_left_op_logs construct_stack_left_rhs_logs
  construct_stack_right_op_logs construct_stack_right_rhs_logs
  construct_micro_matrix_als_logs construct_micro_matrix_mals_logs
  construct_micro_rhs_als_logs construct_micro_rhs_mals_logs
  update_core_als_forward_logs update_core_als_backward_logs
  update_core_mals_logs logs_ret : logged.







Lemma define_stacks_logs op : logs (define_stacks op) [].
Proof. apply logs_quiet. unfold define_stacks. kept. Qed.

#[local] Hint Resolve define_stacks_logs : logged.





(** ** Runs that return *)

Lemma succeeds_bind {A B} (m : M A) (f : A -> M B) st Q :
  succeeds m st (fun a st1 => succeeds (f a) st1 Q) ->
  succeeds (bind m f) st Q.
Proof.
  intros (st1 & a & Hm & st' & b & Hf & HQ).
  exists st', b. split; [|done]. by rewrite (bind_Ok _ _ _ _ _ Hm).
Qed.

Lemma succeeds_ret {A} (a : A) st (Q : A -> state -> Prop) :
  Q a st -> succeeds (ret a) st Q.
Proof. intros HQ. by exists st, a. Qed.

Lemma succeeds_lift {A} (r : res A) a st (Q : A -> state -> Prop) :
  r = Ok a -> Q a st -> succeeds (lift r) st Q.
Proof. intros -> HQ. by exists st, a. Qed.

Lemma succeeds_tick e st (Q : unit -> state -> Prop) :
  Q tt (with_log (log st ++ [e]) st) -> succeeds (tick e) st Q.
Proof. intros HQ. by eexists _, tt. Qed.

Lemma succeeds_get_order t o st (Q : Z -> state -> Prop) :
  heap st !! t = Some o -> Q (order o) st -> succeeds (get_order t) st Q.
Proof.
  intros Ho HQ. exists st, (order o). split; [|done].
  unfold get_order, bind, load, ret. by rewrite Ho.
Qed.

Lemma succeeds_get_core t o i c st (Q : array -> state -> Prop) :
  heap st !! t = Some o -> py_get (cores o) i = Ok c -> Q c st ->
  succeeds (get_core t i) st Q.
Proof.
  intros Ho Hc HQ. exists st, c. split; [|done].
  unfold get_core, bind, load, lift. by rewrite Ho, Hc.
Qed.

Lemma succeeds_get_stack s i x st (Q : option array -> state -> Prop) :
  py_get (stack_of s st) i = Ok x -> Q x st -> succeeds (get_stack s i) st Q.
Proof. intros Hx HQ. exists st, x. split; [|done]. unfold get_stack. by rewrite Hx. Qed.

Lemma succeeds_set_stack s i x l st (Q : unit -> state -> Prop) :
  py_set (stack_of s st) i (Some x) = Ok l -> Q tt (with_stack s l st) ->
  succeeds (set_stack s i x) st Q.
Proof.
  intros Hl HQ. exists (with_stack s l st), tt. split; [|done].
  unfold set_stack. by rewrite Hl.
Qed.

Lemma succeeds_mono {A} (m : M A) st (Q Q' : A -> state -> Prop) :
  succeeds m st Q -> (forall a st', Q a st' -> Q' a st') -> succeeds m st Q'.
Proof. intros (st' & a & Hm & HQ) Himp. exists st', a. eauto. Qed.

Lemma tt_wf_core t k :
  tt_wf t -> (k < length (cores t))%nat ->
  exists c, cores t !! k = Some c /\ shape c = core_shape t k.
Proof.
  intros (_ & _ & _ & Hshape & _) Hk.
  destruct (lookup_lt_is_Some_2 (cores t) k Hk) as [c Hc]. eauto.
Qed.

Lemma py_get_nat {A} (l : list A) (k : nat) x :
  l !! k = Some x -> py_get l (Z.of_nat k) = Ok x.
Proof. intros Hx. apply py_get_nonneg; [lia|]. by rewrite Nat2Z.id. Qed.

Lemma py_set_nat {A} (l : list A) (k : nat) x :
  (k < length l)%nat -> py_set l (Z.of_nat k) x = Ok (<[k:=x]> l).
Proof. intros Hk. rewrite py_set_nonneg by lia. by rewrite Nat2Z.id. Qed.

(** ** With [repeats = 0] a valid system only builds the right stacks *)

Lemma tensordot_Ok (a b : array) axes_a axes_b :
  length axes_a = length axes_b ->
  td_check (shape a) (shape b) axes_a axes_b = Ok true ->
  tensordot a b axes_a axes_b
  = Ok (NdArray (free_axes 0 (shape a) axes_a ++ free_axes 0 (shape b) axes_b)
                (d_tensordot a b axes_a axes_b)).
Proof.
  intros Hlen Hcheck. unfold tensordot. rewrite Hlen, Nat.eqb_refl, Hcheck. done.
Qed.

Lemma index0_Ok (c : array) s0 s1 s2 s3 :
  shape c = [s0; s1; S s2; s3] ->
  index0 c = Ok (NdArray [s0; s1; s3] (d_index0 c)).
Proof. intros Hc. unfold index0. by rewrite Hc. Qed.

Ltac exec :=
  match goal with
  | |- succeeds (bind _ _) _ _ => apply succeeds_bind
  | |- succeeds (tick _) _ _ => apply succeeds_tick
  | |- succeeds (get_order _) _ _ =>
      eapply succeeds_get_order; [simpl; eassumption|]
  | |- succeeds (ret _) _ _ => apply succeeds_ret
  end.

Ltac put_stack :=
  exec; eapply succeeds_set_stack;
  [simpl; apply py_set_nat; rewrite ?length_insert; lia|].

Ltac get_stack_here :=
  exec; eapply succeeds_get_stack;
  [ simpl; apply py_get_nat;
    first [eassumption|apply list_lookup_insert_eq; rewrite ?length_insert; lia]
  | simpl asarray ].

Ltac contract H1 H2 :=
  exec; eapply succeeds_lift;
  [ apply tensordot_Ok; [done|];
    rewrite ?H1, ?H2; simpl; rewrite ?Nat.eqb_refl; done
  | rewrite ?H1, ?H2; simpl free_axes; simpl app ].

Section ValidSystem.
Variables (opT igT rhsT : TT) (op rhs sol : loc).
Hypothesis valid : valid_system opT igT rhsT.

Let d := length (cores opT).
Let r (j : nat) := nth j (ranks igT) 0%nat.
Let rop (j : nat) := nth j (ranks opT) 0%nat.
Let rrhs (j : nat) := nth j (ranks rhsT) 0%nat.
Let dim (j : nat) := nth j (row_dims igT) 0%nat.

Lemma sol_core0 k st (Q : array -> state -> Prop) :
  heap st !! sol = Some igT -> (k < d)%nat ->
  (forall c, shape c = [r k; dim k; r (S k)] -> Q c st) ->
  succeeds (get_core0 sol (Z.of_nat k)) st Q.
Proof using valid.
  intros Hsol Hk HQ. destruct valid as (_ & Hwf & _ & Hlen & _ & _ & _ & _ & Hcol).
  destruct (tt_wf_core igT k Hwf) as (c & Hc & Hshape); [unfold d in Hk; lia|].
  unfold get_core0. apply succeeds_bind.
  eapply succeeds_get_core; [exact Hsol|by apply py_get_nat|].
  unfold core_shape in Hshape. destruct (Hcol k Hk) as [Hone _].
  rewrite Hone in Hshape.
  eapply succeeds_lift; [by eapply index0_Ok|]. by apply HQ.
Qed.

Lemma rhs_core0 k st (Q : array -> state -> Prop) :
  heap st !! rhs = Some rhsT -> (k < d)%nat ->
  (forall c, shape c = [rrhs k; dim k; rrhs (S k)] -> Q c st) ->
  succeeds (get_core0 rhs (Z.of_nat k)) st Q.
Proof using valid.
  intros Hrhs Hk HQ.
  destruct valid as (_ & _ & Hwf & _ & Hlen & _ & _ & Hrow & Hcol).
  destruct (tt_wf_core rhsT k Hwf) as (c & Hc & Hshape); [unfold d in Hk; lia|].
  unfold get_core0. apply succeeds_bind.
  eapply succeeds_get_core; [exact Hrhs|by apply py_get_nat|].
  unfold core_shape in Hshape. destruct (Hcol k Hk) as [_ Hone].
  rewrite Hone, Hrow in Hshape.
  eapply succeeds_lift; [by eapply index0_Ok|]. by apply HQ.
Qed.

Lemma op_core k st (Q : array -> state -> Prop) :
  heap st !! op = Some opT -> (k < d)%nat ->
  (forall c, shape c = [rop k; dim k; dim k; rop (S k)] -> Q c st) ->
  succeeds (get_core op (Z.of_nat k)) st Q.
Proof using valid.
  intros Hop Hk HQ.
  destruct valid as (Hwf & _ & _ & _ & _ & Hrow & Hcol & _).
  destruct (tt_wf_core opT k Hwf) as (c & Hc & Hshape); [done|].
  eapply succeeds_get_core; [exact Hop|by apply py_get_nat|].
  unfold core_shape in Hshape. rewrite Hrow, Hcol in Hshape. by apply HQ.
Qed.

Lemma right_op_step k st :
  heap st !! op = Some opT -> heap st !! sol = Some igT ->
  (k < d)%nat -> length (stack_right_op st) = d ->
  ((S k < d)%nat -> exists a,
     stack_right_op st !! S k = Some (Some a) /\
     shape a = [r (S (S k)); rop (S (S k)); r (S (S k))]) ->
  succeeds (construct_stack_right_op (Z.of_nat k) op sol) st (fun _ st' =>
    heap st' = heap st /\
    log st' = log st ++ [EvStack RightOp (Z.of_nat k)] /\
    stack_right_rhs st' = stack_right_rhs st /\
    length (stack_right_op st') = d /\
    exists a', stack_right_op st' !! k = Some (Some a') /\
      shape a' = [r (S k); rop (S k); r (S k)]).
Proof using valid.
  intros Hop Hsol Hk Hlen Hnext. unfold construct_stack_right_op.
  do 4 exec.
  destruct (Z.eqb_spec (Z.of_nat k) (order opT - 1)) as [Hlast|Hnot].
  - eapply succeeds_set_stack; [simpl; apply py_set_nat; lia|]. simpl.
    split; [done|]. split; [done|]. split; [done|].
    split; [by rewrite length_insert|].
    eexists. split; [apply list_lookup_insert_eq; lia|]. simpl.
    assert (S k = d) as Hd by (unfold order in Hlast; subst d; lia).
    destruct valid as ((_ & _ & _ & _ & _ & Hop1) & (_ & _ & _ & _ & _ & Hig1) & _ & Hl & _).
    subst r rop. simpl. rewrite Hd. subst d. rewrite Hop1, <- Hl, Hig1. done.
  - assert (S k < d)%nat as Hk' by (unfold order in Hnot; subst d; lia).
    destruct (Hnext Hk') as (a & Ha & Hsa).
    replace (Z.of_nat k + 1) with (Z.of_nat (S k)) by lia.
    exec. apply sol_core0; [done|done|]. intros sc Hsc.
    get_stack_here. contract Hsc Hsa. put_stack.
    exec. apply op_core; [done|done|]. intros oc Hoc.
    get_stack_here. contract Hoc Hsa. put_stack.
    exec. apply sol_core0; [done|done|]. intros sc' Hsc'.
    get_stack_here. contract Hsc' Hsa.
    eapply succeeds_set_stack;
      [simpl; apply py_set_nat; rewrite ?length_insert; lia|].
    simpl. split; [done|]. split; [done|]. split; [done|].
    split; [by rewrite !length_insert|].
    eexists. split; [apply list_lookup_insert_eq; rewrite !length_insert; lia|].
    done.
Qed.

Lemma right_rhs_step k st :
  heap st !! rhs = Some rhsT -> heap st !! sol = Some igT ->
  (k < d)%nat -> length (stack_right_rhs st) = d ->
  ((S k < d)%nat -> exists a,
     stack_right_rhs st !! S k = Some (Some a) /\
     shape a = [rrhs (S (S k)); r (S (S k))]) ->
  succeeds (construct_stack_right_rhs (Z.of_nat k) rhs sol) st (fun _ st' =>
    heap st' = heap st /\
    log st' = log st ++ [EvStack RightRhs (Z.of_nat k)] /\
    stack_right_op st' = stack_right_op st /\
    length (stack_right_rhs st') = d /\
    exists a', stack_right_rhs st' !! k = Some (Some a') /\
      shape a' = [rrhs (S k); r (S k)]).
Proof using valid.
  intros Hrhs Hsol Hk Hlen Hnext. clear op. unfold construct_stack_right_rhs.
  assert (length (cores rhsT) = d) as Hd by (destruct valid; subst d; tauto).
  do 4 exec.
  destruct (Z.eqb_spec (Z.of_nat k) (order rhsT - 1)) as [Hlast|Hnot].
  - eapply succeeds_set_stack; [simpl; apply py_set_nat; lia|]. simpl.
    split; [done|]. split; [done|]. split; [done|].
    split; [by rewrite length_insert|].
    eexists. split; [apply list_lookup_insert_eq; lia|]. simpl.
    assert (S k = d) as Hkd by (unfold order in Hlast; lia).
    destruct valid as (_ & (_ & _ & _ & _ & _ & Hig1) &
                       (_ & _ & _ & _ & _ & Hrhs1) & Hl & _).
    subst r rrhs. simpl. rewrite Hkd, <- Hd at 1. rewrite Hrhs1.
    replace (S k) with (length (cores igT)) by (subst d; lia). by rewrite Hig1.
  - assert (S k < d)%nat as Hk' by (unfold order in Hnot; lia).
    destruct (Hnext Hk') as (a & Ha & Hsa).
    replace (Z.of_nat k + 1) with (Z.of_nat (S k)) by lia.
    exec. apply sol_core0; [done|done|]. intros sc Hsc.
    get_stack_here. contract Hsc Hsa. put_stack.
    exec. apply rhs_core0; [done|done|]. intros rc Hrc.
    get_stack_here. contract Hrc Hsa.
    eapply succeeds_set_stack;
      [simpl; apply py_set_nat; rewrite ?length_insert; lia|].
    simpl. split; [done|]. split; [done|]. split; [done|].
    split; [by rewrite !length_insert|].
    eexists. split; [apply list_lookup_insert_eq; rewrite !length_insert; lia|].
    done.
Qed.

Lemma succeeds_for_nil {A} (body : A -> M unit) st (Q : unit -> state -> Prop) :
  Q tt st -> succeeds (for_ [] body) st Q.
Proof. apply succeeds_ret. Qed.

Lemma right_stacks_loop lo :
  -1 <= lo ->
  forall (m : nat) st,
    heap st !! op = Some opT -> heap st !! rhs = Some rhsT ->
    heap st !! sol = Some igT ->
    (m <= d)%nat ->
    length (stack_right_op st) = d -> length (stack_right_rhs st) = d ->
    ((m < d)%nat -> exists a b,
       stack_right_op st !! m = Some (Some a) /\
       shape a = [r (S m); rop (S m); r (S m)] /\
       stack_right_rhs st !! m = Some (Some b) /\
       shape b = [rrhs (S m); r (S m)]) ->
    succeeds
      (for_ (range_down (Z.of_nat m - 1) lo) (fun i =>
         construct_stack_right_op i op sol ;;
         construct_stack_right_rhs i rhs sol)) st
      (fun _ st' =>
         heap st' = heap st /\
         log st' = log st ++ initial_right_trace (Z.of_nat m - 1) lo).
Proof using valid.
  intros Hlo. unfold initial_right_trace.
  induction m as [|m IH]; intros st Hop Hrhs Hsol Hm Hlo1 Hlr1 Hslot.
  - rewrite range_down_nil by lia. apply succeeds_ret. simpl.
    by rewrite app_nil_r.
  - destruct (decide (Z.of_nat (S m) - 1 <= lo)) as [Hle|Hgt].
    { rewrite range_down_nil by lia. apply succeeds_ret. simpl.
      by rewrite app_nil_r. }
    rewrite range_down_cons by lia.
    replace (Z.of_nat (S m) - 1) with (Z.of_nat m) by lia.
    cbn [for_ flat_map]. apply succeeds_bind, succeeds_bind.
    eapply succeeds_mono.
    { apply right_op_step; [done|done|lia|done|].
      intros Hlt. destruct (Hslot Hlt) as (a & b & Ha & Hsa & _). eauto. }
    intros [] st1 (Hh1 & Hl1 & Hr1 & Hlen1 & a1 & Ha1 & Hsa1).
    eapply succeeds_mono.
    { apply right_rhs_step; [by rewrite Hh1|by rewrite Hh1|lia|by rewrite Hr1|].
      rewrite Hr1. intros Hlt. destruct (Hslot Hlt) as (a & b & _ & _ & Hb & Hsb).
      eauto. }
    intros [] st2 (Hh2 & Hl2 & Hr2 & Hlen2 & b2 & Hb2 & Hsb2).
    eapply succeeds_mono.
    { apply IH; [by rewrite Hh2, Hh1|by rewrite Hh2, Hh1|by rewrite Hh2, Hh1|lia
                |by rewrite Hr2|done|].
      intros _. exists a1, b2. by rewrite Hr2. }
    intros [] st3 (Hh3 & Hl3). split; [by rewrite Hh3, Hh2, Hh1|].
    rewrite Hl3, Hl2, Hl1. by rewrite <- !app_assoc.
Qed.

End ValidSystem.

Lemma succeeds_new_stack s n st (Q : unit -> state -> Prop) :
  Q tt (with_stack s (replicate (Z.to_nat n) None) st) ->
  succeeds (new_stack s n) st Q.
Proof. intros HQ. by eexists _, tt. Qed.

Lemma succeeds_define_stacks op opT st (Q : unit -> state -> Prop) :
  heap st !! op = Some opT ->
  (forall st', heap st' = heap st -> log st' = log st ->
     length (stack_right_op st') = length (cores opT) ->
     length (stack_right_rhs st') = length (cores opT) ->
     length (stack_left_op st') = length (cores opT) ->
     length (stack_left_rhs st') = length (cores opT) -> Q tt st') ->
  succeeds (define_stacks op) st Q.
Proof.
  intros Hop HQ. unfold define_stacks.
  do 2 exec. apply succeeds_bind, succeeds_new_stack.
  do 2 exec. apply succeeds_bind, succeeds_new_stack.
  do 2 exec. apply succeeds_bind, succeeds_new_stack.
  do 2 exec. apply succeeds_new_stack.
  apply HQ; simpl; try done;
    rewrite length_replicate; unfold order; lia.
Qed.

Lemma succeeds_tt_copy ig igT st (Q : loc -> state -> Prop) :
  heap st !! ig = Some igT ->
  Q (length (heap st)) (with_heap (heap st ++ [igT]) st) ->
  succeeds (tt_copy ig) st Q.
Proof.
  intros Hig HQ. eexists _, _. split; [|exact HQ]. unfold tt_copy. by rewrite Hig.
Qed.

(** C3. For every valid operator, initial guess and right-hand side,
    [als] with [repeats = 0] returns; what it returns is a new tensor
    of the store, distinct from every tensor the caller holds, whose
    contents are those of the initial guess; every tensor of the caller
    is left as it was; and the run consists of the initial right stacks
    only: no sweep step, no micro system, no local solve. *)
Theorem als_zero_repeats_returns_copy op ig rhs solver opT igT rhsT st :
  valid_system opT igT rhsT ->
  heap st !! op = Some opT -> heap st !! ig = Some igT ->
  heap st !! rhs = Some rhsT ->
  exists st',
    als op ig rhs 0 solver st = (st', Ok (length (heap st))) /\
    heap st' = heap st ++ [igT] /\
    log st' = log st ++ initial_right_trace (order opT - 1) (-1).
Proof.
  intros Hvalid Hop Hig Hrhs.
  enough (succeeds (als op ig rhs 0 solver) st (fun a st' =>
            a = length (heap st) /\ heap st' = heap st ++ [igT] /\
            log st' = log st ++ initial_right_trace (order opT - 1) (-1)))
    as (st' & a & Hrun & -> & Hheap & Hlog) by eauto.
  unfold als. exec. eapply succeeds_tt_copy; [exact Hig|].
  set (st0 := with_heap (heap st ++ [igT]) st).
  assert (heap st0 !! op = Some opT) as Hop0
    by (simpl; by apply lookup_app_l_Some).
  assert (heap st0 !! rhs = Some rhsT) as Hrhs0
    by (simpl; by apply lookup_app_l_Some).
  assert (heap st0 !! length (heap st) = Some igT) as Hsol0
    by (simpl; apply lookup_snoc_here).
  exec. eapply succeeds_define_stacks; [exact Hop0|].
  intros st1 Hh1 Hl1 Hro Hrr _ _.
  exec. eapply succeeds_get_order; [by rewrite Hh1|].
  apply succeeds_bind. eapply succeeds_mono.
  { replace (order opT - 1) with (Z.of_nat (length (cores opT)) - 1) by done.
    eapply (right_stacks_loop opT igT rhsT op rhs (length (heap st)) Hvalid (-1));
      [lia|by rewrite Hh1|by rewrite Hh1|by rewrite Hh1|lia|done|done|lia]. }
  intros [] st2 (Hh2 & Hl2).
  apply succeeds_bind. simpl. apply succeeds_ret, succeeds_ret.
  split; [done|]. split; [by rewrite Hh2, Hh1|]. by rewrite Hl2, Hl1.
Qed.

(** ** Tensors of different orders *)

Lemma py_get_length {A} (l : list A) :
  py_get l (Z.of_nat (length l)) = Raise IndexError.
Proof.
  unfold py_get, py_index.
  rewrite (proj2 (Z.ltb_ge _ _)) by lia. rewrite andb_false_r.
  rewrite (proj2 (Z.ltb_ge (Z.of_nat (length l)) 0)) by lia.
  by rewrite andb_false_r.
Qed.

Lemma right_op_last op opT sol st :
  heap st !! op = Some opT -> 1 <= order opT ->
  length (stack_right_op st) = length (cores opT) ->
  construct_stack_right_op (order opT - 1) op sol st
  = (with_stack RightOp
       (<[Z.to_nat (order opT - 1) := Some (np_ones_ndmin 3)]> (stack_right_op st))
       (with_log (log st ++ [EvStack RightOp (order opT - 1)]) st), Ok tt).
Proof.
  intros Hop Hpos Hlen. unfold construct_stack_right_op.
  unfold bind at 1, tick. unfold bind at 1, get_order, bind at 1, load, ret.
  simpl. rewrite Hop, Z.eqb_refl. unfold set_stack. simpl.
  replace (order opT - 1) with (Z.of_nat (Z.to_nat (order opT - 1))) at 1 by lia.
  rewrite py_set_nat; [done|]. unfold order in *. lia.
Qed.

Lemma right_rhs_overrun rhs rhsT sol igT i st :
  heap st !! rhs = Some rhsT -> heap st !! sol = Some igT ->
  i <> order rhsT - 1 -> i + 1 = order igT ->
  construct_stack_right_rhs i rhs sol st
  = (with_log (log st ++ [EvStack RightRhs i]) st, Raise IndexError).
Proof.
  intros Hrhs Hsol Hnot Hlast. unfold construct_stack_right_rhs.
  unfold bind at 1, tick. unfold bind at 1, get_order, bind at 1, load, ret.
  simpl. rewrite Hrhs. destruct (Z.eqb_spec i (order rhsT - 1)); [done|].
  apply bind_Raise. unfold get_core0. apply bind_Raise.
  unfold get_core, bind, load, lift. simpl. rewrite Hsol, Hlast.
  unfold order. by rewrite py_get_length.
Qed.

Lemma right_stacks_overrun op rhs sol opT igT rhsT lo st :
  heap st !! op = Some opT -> heap st !! rhs = Some rhsT ->
  heap st !! sol = Some igT ->
  order igT = order opT -> order rhsT <> order opT -> lo < order opT - 1 ->
  -1 <= lo ->
  length (stack_right_op st) = length (cores opT) ->
  exists st',
    for_ (range_down (order opT - 1) lo) (fun i =>
      construct_stack_right_op i op sol ;;
      construct_stack_right_rhs i rhs sol) st = (st', Raise IndexError) /\
    heap st' = heap st /\
    log st' = log st ++ [EvStack RightOp (order opT - 1);
                         EvStack RightRhs (order opT - 1)] /\
    stack_right_op st' !! Z.to_nat (order opT - 1) = Some (Some (np_ones_ndmin 3)).
Proof.
  intros Hop Hrhs Hsol Hig Hne Hlo Hlo' Hlen.
  rewrite range_down_cons by lia. cbn [for_]. eexists. split.
  - apply bind_Raise. erewrite bind_Ok by (apply right_op_last; [done|lia|done]).
    eapply right_rhs_overrun; [exact Hrhs|exact Hsol|lia|lia].
  - simpl. split; [done|]. split; [by rewrite <- app_assoc|].
    apply list_lookup_insert_eq. unfold order in *. lia.
Qed.

(** C1 (as the code behaves). Neither function compares the orders of
    its arguments. When the right-hand side has another order than the
    operator and the initial guess, a call raises [IndexError], and it
    does so late: the copy of the initial guess has been made, the
    stacks have been allocated, the last slot of the right operator
    stack has been built and the right-hand-side stack has been
    entered. The tensors of the caller are as before. [mals] needs an
    operator of order at least 2 for this, since it builds no right
    stack otherwise. *)
Theorem rhs_order_mismatch_raises_late op ig rhs repeats solver threshold
    max_rank opT igT rhsT st :
  heap st !! op = Some opT -> heap st !! ig = Some igT ->
  heap st !! rhs = Some rhsT ->
  order igT = order opT -> order rhsT <> order opT -> 1 <= order opT ->
  (exists st',
     als op ig rhs repeats solver st = (st', Raise IndexError) /\
     heap st' = heap st ++ [igT] /\
     log st' = log st ++ [EvStack RightOp (order opT - 1);
                          EvStack RightRhs (order opT - 1)] /\
     stack_right_op st' !! Z.to_nat (order opT - 1)
     = Some (Some (np_ones_ndmin 3))) /\
  (2 <= order opT -> exists st',
     mals op ig rhs repeats solver threshold max_rank st
     = (st', Raise IndexError) /\
     heap st' = heap st ++ [igT] /\
     log st' = log st ++ [EvStack RightOp (order opT - 1);
                          EvStack RightRhs (order opT - 1)] /\
     stack_right_op st' !! Z.to_nat (order opT - 1)
     = Some (Some (np_ones_ndmin 3))).
Proof.
  intros Hop Hig Hrhs Hord Hne Hpos.
  set (st0 := with_heap (heap st ++ [igT]) st).
  assert (tt_copy ig st = (st0, Ok (length (heap st)))) as Hcopy
    by (unfold tt_copy; by rewrite Hig).
  assert (heap st0 !! op = Some opT) as Hop0
    by (simpl; by apply lookup_app_l_Some).
  assert (heap st0 !! rhs = Some rhsT) as Hrhs0
    by (simpl; by apply lookup_app_l_Some).
  assert (heap st0 !! length (heap st) = Some igT) as Hsol0
    by (simpl; apply lookup_snoc_here).
  destruct (succeeds_define_stacks op opT st0
              (fun _ st1 => heap st1 = heap st0 /\ log st1 = log st0 /\
                 length (stack_right_op st1) = length (cores opT)) Hop0)
    as (st1 & [] & Hdef & Hh1 & Hl1 & Hlen1); [by intros|].
  assert (get_order op st1 = (st1, Ok (order opT))) as Horder
    by (unfold get_order, bind, load, ret; by rewrite Hh1, Hop0).
  split; [|intros Htwo].
  - destruct (right_stacks_overrun op rhs (length (heap st)) opT igT rhsT (-1) st1)
      as (st' & Hloop & Hh & Hl & Hslot);
      [by rewrite Hh1|by rewrite Hh1|by rewrite Hh1|done|done|lia|lia|done|].
    exists st'. split.
    + unfold als. rewrite (bind_Ok _ _ _ _ _ Hcopy), (bind_Ok _ _ _ _ _ Hdef),
        (bind_Ok _ _ _ _ _ Horder). by apply bind_Raise.
    + split; [by rewrite Hh, Hh1|]. split; [by rewrite Hl, Hl1|done].
  - destruct (right_stacks_overrun op rhs (length (heap st)) opT igT rhsT 0 st1)
      as (st' & Hloop & Hh & Hl & Hslot);
      [by rewrite Hh1|by rewrite Hh1|by rewrite Hh1|done|done|lia|lia|done|].
    exists st'. split.
    + unfold mals. rewrite (bind_Ok _ _ _ _ _ Hcopy), (bind_Ok _ _ _ _ _ Hdef),
        (bind_Ok _ _ _ _ _ Horder). by apply bind_Raise.
    + split; [by rewrite Hh, Hh1|]. split; [by rewrite Hl, Hl1|done].
Qed.

(** ** Configuration values the code does not check *)

Lemma range_up_empty lo hi : hi <= lo -> range_up lo hi = [].
Proof.
  intros Hle. unfold range_up. by replace (Z.to_nat (hi - lo)) with 0%nat by lia.
Qed.

Lemma solver_not_named (solver name : string) :
  solver <> name -> String.eqb solver name = false.
Proof. intros Hne. by apply String.eqb_neq. Qed.

(** C2 (as the code behaves). No configuration value is checked at
    entry. A solver string other than the two known ones makes every
    core update skip the local solve: the update is then the same
    whatever micro system it is given, since it factorises the contents
    the core already has. A [repeats] below 1 runs what [repeats = 0]
    runs. What is true of the claim: an exception of a local solve is
    not caught, the update raises it at once. *)
Theorem configuration_is_not_validated (solver : string) (repeats : Z)
    i (micro_op micro_rhs micro_op' micro_rhs' : array) sol direction
    threshold max_rank op ig rhs (known : string) st e :
  solver <> "solve" -> solver <> "lu" -> repeats <= 0 ->
  update_core_als i micro_op micro_rhs sol solver direction st
  = update_core_als i micro_op' micro_rhs' sol solver direction st /\
  update_core_mals i micro_op micro_rhs sol solver direction threshold max_rank st
  = update_core_mals i micro_op' micro_rhs' sol solver direction threshold
      max_rank st /\
  als op ig rhs repeats known st = als op ig rhs 0 known st /\
  mals op ig rhs repeats known threshold max_rank st
  = mals op ig rhs 0 known threshold max_rank st /\
  (np_linalg_solve micro_op micro_rhs = Raise e ->
   update_core_als i micro_op micro_rhs sol "solve" direction st
   = (with_log (log st ++ [EvSolve i]) st, Raise e)) /\
  (la_solve micro_op micro_rhs = Raise e ->
   update_core_mals i micro_op micro_rhs sol "solve" direction threshold
     max_rank st
   = (with_log (log st ++ [EvSolve i]) st, Raise e)).
Proof.
  intros Hsolve Hlu Hrep.
  split; [|split; [|split; [|split; [|split]]]].
  - unfold update_core_als.
    by rewrite (solver_not_named _ _ Hsolve), (solver_not_named _ _ Hlu).
  - unfold update_core_mals.
    by rewrite (solver_not_named _ _ Hsolve), (solver_not_named _ _ Hlu).
  - unfold als. by rewrite (range_up_empty 1 (repeats + 1)) by lia.
  - unfold mals. by rewrite (range_up_empty 1 (repeats + 1)) by lia.
  - intros Hraise. unfold update_core_als. simpl String.eqb.
    apply bind_Raise. erewrite bind_Ok by reflexivity. apply bind_Raise.
    unfold lift. by rewrite Hraise.
  - intros Hraise. unfold update_core_mals. simpl String.eqb.
    apply bind_Raise. erewrite bind_Ok by reflexivity. apply bind_Raise.
    unfold lift. by rewrite Hraise.
Qed.

(** * Further properties of the solver module *)

(** X1. For every valid system, [mals] with [repeats = 0] returns; what
    it returns is a new tensor of the store holding the contents of the
    initial guess; the tensors of the caller are left as they were; and
    the run builds the right stacks of sites [order - 1] down to 1 and
    nothing else, whatever solver, threshold and cap are given. *)
Theorem mals_zero_repeats_returns_copy op ig rhs solver threshold max_rank
    opT igT rhsT st :
  valid_system opT igT rhsT ->
  heap st !! op = Some opT -> heap st !! ig = Some igT ->
  heap st !! rhs = Some rhsT ->
  exists st',
    mals op ig rhs 0 solver threshold max_rank st
    = (st', Ok (length (heap st))) /\
    heap st' = heap st ++ [igT] /\
    log st' = log st ++ initial_right_trace (order opT - 1) 0.
Proof.
  intros Hvalid Hop Hig Hrhs.
  enough (succeeds (mals op ig rhs 0 solver threshold max_rank) st (fun a st' =>
            a = length (heap st) /\ heap st' = heap st ++ [igT] /\
            log st' = log st ++ initial_right_trace (order opT - 1) 0))
    as (st' & a & Hrun & -> & Hheap & Hlog) by eauto.
  unfold mals. exec. eapply succeeds_tt_copy; [exact Hig|].
  set (st0 := with_heap (heap st ++ [igT]) st).
  assert (heap st0 !! op = Some opT) as Hop0
    by (simpl; by apply lookup_app_l_Some).
  assert (heap st0 !! rhs = Some rhsT) as Hrhs0
    by (simpl; by apply lookup_app_l_Some).
  assert (heap st0 !! length (heap st) = Some igT) as Hsol0
    by (simpl; apply lookup_snoc_here).
  exec. eapply succeeds_define_stacks; [exact Hop0|].
  intros st1 Hh1 Hl1 Hro Hrr _ _.
  exec. eapply succeeds_get_order; [by rewrite Hh1|].
  apply succeeds_bind. eapply succeeds_mono.
  { replace (order opT - 1) with (Z.of_nat (length (cores opT)) - 1) by done.
    eapply (right_stacks_loop opT igT rhsT op rhs (length (heap st)) Hvalid 0);
      [lia|by rewrite Hh1|by rewrite Hh1|by rewrite Hh1|lia|done|done|lia]. }
  intros [] st2 (Hh2 & Hl2).
  apply succeeds_bind. simpl. apply succeeds_ret, succeeds_ret.
  split; [done|]. split; [by rewrite Hh2, Hh1|]. by rewrite Hl2, Hl1.
Qed.

(** X2. The four assemblers of the micro systems only read: whatever
    they return or raise, the store and the four stacks are as they
    were before the call. *)
Theorem assemblers_only_read i op rhs sol st :
  let after_op := (construct_micro_matrix_als i op sol st).1 in
  let after_rhs := (construct_micro_rhs_als i rhs sol st).1 in
  let after_op2 := (construct_micro_matrix_mals i op sol st).1 in
  let after_rhs2 := (construct_micro_rhs_mals i rhs sol st).1 in
  (heap after_op = heap st /\ forall s, stack_of s after_op = stack_of s st) /\
  (heap after_rhs = heap st /\ forall s, stack_of s after_rhs = stack_of s st) /\
  (heap after_op2 = heap st /\ forall s, stack_of s after_op2 = stack_of s st) /\
  (heap after_rhs2 = heap st /\ forall s, stack_of s after_rhs2 = stack_of s st).
Proof.
  simpl. repeat split.
  - apply construct_micro_matrix_als_heap.
  - apply construct_micro_matrix_als_stacks.
  - apply construct_micro_rhs_als_heap.
  - apply construct_micro_rhs_als_stacks.
  - apply construct_micro_matrix_mals_heap.
  - apply construct_micro_matrix_mals_stacks.
  - apply construct_micro_rhs_mals_heap.
  - apply construct_micro_rhs_mals_stacks.
Qed.

(** ** Each stack builder writes one slot *)

Lemma py_index_length {A B} (l : list A) (l' : list B) i :
  length l' = length l -> py_index l' i = py_index l i.
Proof. intros Hlen. unfold py_index. by rewrite Hlen. Qed.

#[local] Instance only_slot_preorder s i : PreOrder (only_slot s i).
Proof.
  split.
  - intros st. by repeat split.
  - intros st1 st2 st3 (Ha & Hb & Hc & Hd) (Ha' & Hb' & Hc' & Hd').
    split; [congruence|]. split; [intros s' Hs'; by rewrite Hb', Hb|].
    split; [congruence|]. intros k Hk. rewrite Hd', Hd; [done|done|].
    by rewrite (py_index_length _ _ _ Hc).
Qed.

Lemma keeps_tick_only_slot s i e : keeps (only_slot s i) (tick e).
Proof. intros st. simpl. by destruct s. Qed.

Lemma keeps_set_stack_only_slot s i x : keeps (only_slot s i) (set_stack s i x).
Proof.
  intros st. unfold set_stack, py_set.
  destruct (py_index (stack_of s st) i) as [k|] eqn:Hk; [|reflexivity].
  simpl. split; [by destruct s|]. split; [intros s' Hs'; by destruct s, s'|].
  assert (stack_of s (with_stack s (<[k:=Some x]> (stack_of s st)) st)
          = <[k:=Some x]> (stack_of s st)) as -> by (by destruct s).
  split; [apply length_insert|].
  intros j Hj. apply list_lookup_insert_ne. congruence.
Qed.

Ltac slot_go :=
  repeat first
    [ apply keeps_tick_only_slot
    | apply keeps_set_stack_only_slot
    | keeps_step ].

(** X3. Each of the four stack builders writes slot [i] of its own
    stack and nothing else: whatever it returns or raises, the store,
    the three other stacks, the length of its stack and every other slot
    of it are as they were before the call. *)
Theorem stack_builders_write_one_slot i op rhs sol st :
  only_slot LeftOp i st (construct_stack_left_op i op sol st).1 /\
  only_slot LeftRhs i st (construct_stack_left_rhs i rhs sol st).1 /\
  only_slot RightOp i st (construct_stack_right_op i op sol st).1 /\
  only_slot RightRhs i st (construct_stack_right_rhs i rhs sol st).1.
Proof.
  split; [|split; [|split]].
  - revert st. change (keeps (only_slot LeftOp i) (construct_stack_left_op i op sol)).
    unfold construct_stack_left_op. slot_go.
  - revert st. change (keeps (only_slot LeftRhs i) (construct_stack_left_rhs i rhs sol)).
    unfold construct_stack_left_rhs. slot_go.
  - revert st. change (keeps (only_slot RightOp i) (construct_stack_right_op i op sol)).
    unfold construct_stack_right_op. slot_go.
  - revert st. change (keeps (only_slot RightRhs i) (construct_stack_right_rhs i rhs sol)).
    unfold construct_stack_right_rhs. slot_go.
Qed.

(** ** A direction that is neither forward nor backward *)

(** X4. A direction string other than ['forward'] and ['backward'] is
    not rejected: the update then consists of the local solve alone.
    After a successful update with solver ['solve'], core [i] of the
    solution holds the solved vector as the library returned it, a
    2-axis array, and the ranks are as before. *)
Theorem unknown_direction_leaves_raw_vector i (a b : array) sol direction
    threshold max_rank st st' :
  direction <> "forward" -> direction <> "backward" ->
  (update_core_als i a b sol "solve" direction st = (st', Ok tt) ->
   exists (x : array) (t t' : TT) (m k : nat),
     np_linalg_solve a b = Ok x /\ shape x = [m; k] /\
     heap st !! sol = Some t /\ heap st' !! sol = Some t' /\
     py_get (cores t') i = Ok x /\ ranks t' = ranks t) /\
  (update_core_mals i a b sol "solve" direction threshold max_rank st
   = (st', Ok tt) ->
   exists (x : array) (t t' : TT) (m k : nat),
     la_solve a b = Ok x /\ shape x = [m; k] /\
     heap st !! sol = Some t /\ heap st' !! sol = Some t' /\
     py_get (cores t') i = Ok x /\ ranks t' = ranks t).
Proof.
  intros Hf Hb. split; intros Hrun.
  - unfold update_core_als in Hrun.
    rewrite (solver_not_named _ _ Hf), (solver_not_named _ _ Hb) in Hrun.
    simpl in Hrun. inv_run Hrun. norm_store. simpl in *.
    match goal with
    | Hsol : np_linalg_solve _ _ = Ok ?x, Ht : heap st !! sol = Some ?t |- _ =>
        destruct (solve_with_Ok _ _ _ _ _ Hsol) as (m & k & xd & _ & _ & _ & Hx);
        exists x, t; eexists; exists m, k
    end.
    split; [done|]. split; [by subst|]. split; [done|].
    split; [by eapply lookup_insert_here|]. simpl.
    split; [by eapply py_get_set_eq|done].
  - unfold update_core_mals in Hrun.
    rewrite (solver_not_named _ _ Hf), (solver_not_named _ _ Hb) in Hrun.
    simpl in Hrun. inv_run Hrun. norm_store. simpl in *.
    match goal with
    | Hsol : la_solve _ _ = Ok ?x, Ht : heap st !! sol = Some ?t |- _ =>
        destruct (solve_with_Ok _ _ _ _ _ Hsol) as (m & k & xd & _ & _ & _ & Hx);
        exists x, t; eexists; exists m, k
    end.
    split; [done|]. split; [by subst|]. split; [done|].
    split; [by eapply lookup_insert_here|]. simpl.
    split; [by eapply py_get_set_eq|done].
Qed.

(** * Runs of ALS on a valid system *)

(** ** Statements that return or meet a singular matrix *)

Lemma ros_bind {A B} (m : M A) (f : A -> M B) st Q :
  returns_or_singular m st (fun a st1 => returns_or_singular (f a) st1 Q) ->
  returns_or_singular (bind m f) st Q.
Proof.
  intros (st1 & [a|e] & Hm & Hr).
  - destruct Hr as (st' & r' & Hf & Hr'). exists st', r'.
    split; [|done]. by rewrite (bind_Ok _ _ _ _ _ Hm).
  - exists st1, (Raise e). split; [by apply bind_Raise|done].
Qed.

Lemma ros_succeeds {A} (m : M A) st Q :
  succeeds m st Q -> returns_or_singular m st Q.
Proof. intros (st' & a & Hm & HQ). by exists st', (Ok a). Qed.

Lemma ros_mono {A} (m : M A) st (Q Q' : A -> state -> Prop) :
  returns_or_singular m st Q -> (forall a st', Q a st' -> Q' a st') ->
  returns_or_singular m st Q'.
Proof.
  intros (st' & [a|e] & Hm & HQ) Himp; eexists _, _; (split; [exact Hm|]);
    simpl; auto.
Qed.

Lemma ros_ret {A} (a : A) st (Q : A -> state -> Prop) :
  Q a st -> returns_or_singular (ret a) st Q.
Proof. intros HQ. by apply ros_succeeds, succeeds_ret. Qed.

Lemma ros_then {A B} (m : M A) (f : A -> M B) st P Q :
  succeeds m st P ->
  (forall a st1, P a st1 -> returns_or_singular (f a) st1 Q) ->
  returns_or_singular (bind m f) st Q.
Proof.
  intros Hm Hf. apply ros_bind, ros_succeeds. eapply succeeds_mono; [exact Hm|].
  exact Hf.
Qed.

Lemma succeeds_then {A B} (m : M A) (f : A -> M B) st P Q :
  succeeds m st P ->
  (forall a st1, P a st1 -> succeeds (f a) st1 Q) ->
  succeeds (bind m f) st Q.
Proof.
  intros Hm Hf. apply succeeds_bind. eapply succeeds_mono; [exact Hm|]. exact Hf.
Qed.

(** ** Reads and writes of the solution *)

Lemma py_get_nth (l : list nat) (k : nat) :
  (k < length l)%nat -> py_get l (Z.of_nat k) = Ok (nth k l 0%nat).
Proof.
  intros Hk. apply py_get_nat.
  destruct (lookup_lt_is_Some_2 l k Hk) as [x Hx].
  by rewrite (nth_lookup_Some _ _ _ _ Hx).
Qed.

Lemma succeeds_get_rank t o (k : nat) st (Q : nat -> state -> Prop) :
  heap st !! t = Some o -> (k < length (ranks o))%nat ->
  Q (nth k (ranks o) 0%nat) st -> succeeds (get_rank t (Z.of_nat k)) st Q.
Proof.
  intros Ho Hk HQ. eexists st, _. split; [|exact HQ].
  unfold get_rank, bind, load, lift. by rewrite Ho, py_get_nth.
Qed.

Lemma succeeds_get_row_dim t o (k : nat) st (Q : nat -> state -> Prop) :
  heap st !! t = Some o -> (k < length (row_dims o))%nat ->
  Q (nth k (row_dims o) 0%nat) st -> succeeds (get_row_dim t (Z.of_nat k)) st Q.
Proof.
  intros Ho Hk HQ. eexists st, _. split; [|exact HQ].
  unfold get_row_dim, bind, load, lift. by rewrite Ho, py_get_nth.
Qed.

Lemma succeeds_get_col_dim t o (k : nat) st (Q : nat -> state -> Prop) :
  heap st !! t = Some o -> (k < length (col_dims o))%nat ->
  Q (nth k (col_dims o) 0%nat) st -> succeeds (get_col_dim t (Z.of_nat k)) st Q.
Proof.
  intros Ho Hk HQ. eexists st, _. split; [|exact HQ].
  unfold get_col_dim, bind, load, lift. by rewrite Ho, py_get_nth.
Qed.

Lemma succeeds_set_core t o (k : nat) x st (Q : unit -> state -> Prop) :
  heap st !! t = Some o -> (k < length (cores o))%nat ->
  Q tt (with_heap (<[t:=with_cores o (<[k:=x]> (cores o))]> (heap st)) st) ->
  succeeds (set_core t (Z.of_nat k) x) st Q.
Proof.
  intros Ho Hk HQ. eexists _, tt. split; [|exact HQ].
  unfold set_core, bind, load, lift, store. by rewrite Ho, py_set_nat.
Qed.

Lemma succeeds_set_rank t o (k : nat) r st (Q : unit -> state -> Prop) :
  heap st !! t = Some o -> (k < length (ranks o))%nat ->
  Q tt (with_heap (<[t:=with_ranks o (<[k:=r]> (ranks o))]> (heap st)) st) ->
  succeeds (set_rank t (Z.of_nat k) r) st Q.
Proof.
  intros Ho Hk HQ. eexists _, tt. split; [|exact HQ].
  unfold set_rank, bind, load, lift, store. by rewrite Ho, py_set_nat.
Qed.

Lemma succeeds_reshape (a : array) dims st (Q : array -> state -> Prop) :
  size_of dims = size_of (shape a) ->
  Q (NdArray dims (data a)) st -> succeeds (lift (reshape a dims)) st Q.
Proof.
  intros Hsize HQ. eapply succeeds_lift; [|exact HQ].
  unfold reshape. by rewrite Hsize, Nat.eqb_refl.
Qed.

(** ** The stacks and the micro system at one site *)

Section AlsRuns.
Variables (op rhs sol : loc) (opT rhsT : TT).
Hypothesis system : system_frame opT rhsT.

Let d := length (cores opT).
Let n (j : nat) := nth j (row_dims opT) 0%nat.
Let rop (j : nat) := nth j (ranks opT) 0%nat.
Let rrhs (j : nat) := nth j (ranks rhsT) 0%nat.

Lemma op_core_at k st (Q : array -> state -> Prop) :
  heap st !! op = Some opT -> (k < d)%nat ->
  (forall c, shape c = [rop k; n k; n k; rop (S k)] -> Q c st) ->
  succeeds (get_core op (Z.of_nat k)) st Q.
Proof.
  intros Hop Hk HQ. destruct system as (Hwf & _ & _ & Hsq & _).
  destruct (tt_wf_core opT k Hwf) as (c & Hc & Hshape); [done|].
  eapply succeeds_get_core; [exact Hop|by apply py_get_nat|].
  apply HQ. unfold core_shape in Hshape. by rewrite Hsq in Hshape.
Qed.

Lemma rhs_core0_at k st (Q : array -> state -> Prop) :
  heap st !! rhs = Some rhsT -> (k < d)%nat ->
  (forall c, shape c = [rrhs k; n k; rrhs (S k)] -> Q c st) ->
  succeeds (get_core0 rhs (Z.of_nat k)) st Q.
Proof.
  intros Hrhs Hk HQ. destruct system as (_ & Hwf & Hlen & _ & Hrow & Hcol).
  destruct (tt_wf_core rhsT k Hwf) as (c & Hc & Hshape); [unfold d in Hk; lia|].
  unfold get_core0. apply succeeds_bind.
  eapply succeeds_get_core; [exact Hrhs|by apply py_get_nat|].
  unfold core_shape in Hshape. rewrite (Hcol k Hk), Hrow in Hshape.
  eapply succeeds_lift; [by eapply index0_Ok|]. by apply HQ.
Qed.

Lemma sol_core0_at t k st (Q : array -> state -> Prop) :
  heap st !! sol = Some t -> sol_frame opT t -> core_ok t k -> (k < d)%nat ->
  (forall c, shape c = [nth k (ranks t) 0; n k; nth (S k) (ranks t) 0]%nat ->
     Q c st) ->
  succeeds (get_core0 sol (Z.of_nat k)) st Q.
Proof.
  intros Hsol (_ & _ & Hrow & _ & Hcol & _) (c & Hc & Hshape) Hk HQ.
  unfold get_core0. apply succeeds_bind.
  eapply succeeds_get_core; [exact Hsol|by apply py_get_nat|].
  unfold core_shape in Hshape. rewrite (Hcol k Hk), Hrow in Hshape.
  eapply succeeds_lift; [by eapply index0_Ok|]. by apply HQ.
Qed.

Lemma left_op_build t k st :
  sweep_state op rhs sol opT rhsT t st -> (k < d)%nat ->
  (forall k', k = S k' ->
     slot_shape (stack_left_op st) k'
       [nth k' (ranks t) 0; rop k'; nth k' (ranks t) 0]%nat /\
     core_ok t k') ->
  succeeds (construct_stack_left_op (Z.of_nat k) op sol) st (fun _ st' =>
    wrote_slot LeftOp k [nth k (ranks t) 0; rop k; nth k (ranks t) 0]%nat st st').
Proof.
  intros (Hop & Hrhs & Hsol & Hframe & Hlens) Hk Hprev.
  pose proof (Hlens LeftOp) as Hlen. simpl in Hlen.
  unfold construct_stack_left_op. do 2 exec.
  destruct k as [|k'].
  - simpl. eapply succeeds_set_stack; [simpl; apply (py_set_nat _ 0); lia|].
    split; [done|]. split; [by intros [] ?|].
    eexists. split; [done|]. simpl.
    destruct Hframe as (_ & _ & _ & _ & _ & H0 & _).
    destruct system as ((_ & _ & _ & _ & Hop0 & _) & _).
    subst rop. simpl. by rewrite H0, Hop0.
  - destruct (Hprev k' eq_refl) as ((a & Ha & Hsa) & Hcore).
    replace (Z.of_nat (S k') =? 0) with false by (symmetry; apply Z.eqb_neq; lia).
    replace (Z.of_nat (S k') - 1) with (Z.of_nat k') by lia.
    get_stack_here.
    exec. eapply sol_core0_at; [done|done|done|lia|]. intros sc Hsc.
    contract Hsa Hsc. put_stack.
    get_stack_here.
    exec. apply op_core_at; [done|lia|]. intros oc Hoc.
    contract Hsa Hoc. put_stack.
    get_stack_here.
    exec. eapply sol_core0_at; [done|done|done|lia|]. intros sc' Hsc'.
    contract Hsa Hsc'.
    eapply succeeds_set_stack;
      [simpl; apply py_set_nat; rewrite ?length_insert; lia|].
    split; [done|]. split; [by intros [] ?|].
    eexists. split; [simpl; by rewrite !list_insert_insert_eq|]. done.
Qed.

Lemma left_rhs_build t k st :
  sweep_state op rhs sol opT rhsT t st -> (k < d)%nat ->
  (forall k', k = S k' ->
     slot_shape (stack_left_rhs st) k' [rrhs k'; nth k' (ranks t) 0]%nat /\
     core_ok t k') ->
  succeeds (construct_stack_left_rhs (Z.of_nat k) rhs sol) st (fun _ st' =>
    wrote_slot LeftRhs k [rrhs k; nth k (ranks t) 0]%nat st st').
Proof.
  intros (Hop & Hrhs & Hsol & Hframe & Hlens) Hk Hprev.
  pose proof (Hlens LeftRhs) as Hlen. simpl in Hlen.
  unfold construct_stack_left_rhs. do 2 exec.
  destruct k as [|k'].
  - simpl. eapply succeeds_set_stack; [simpl; apply (py_set_nat _ 0); lia|].
    split; [done|]. split; [by intros [] ?|].
    eexists. split; [done|]. simpl.
    destruct Hframe as (_ & _ & _ & _ & _ & H0 & _).
    destruct system as (_ & (_ & _ & _ & _ & Hrhs0 & _) & _).
    subst rrhs. simpl. by rewrite H0, Hrhs0.
  - destruct (Hprev k' eq_refl) as ((a & Ha & Hsa) & Hcore).
    replace (Z.of_nat (S k') =? 0) with false by (symmetry; apply Z.eqb_neq; lia).
    replace (Z.of_nat (S k') - 1) with (Z.of_nat k') by lia.
    get_stack_here.
    exec. apply rhs_core0_at; [done|lia|]. intros rc Hrc.
    contract Hsa Hrc. put_stack.
    get_stack_here.
    exec. eapply sol_core0_at; [done|done|done|lia|]. intros sc Hsc.
    contract Hsa Hsc.
    eapply succeeds_set_stack;
      [simpl; apply py_set_nat; rewrite ?length_insert; lia|].
    split; [done|]. split; [by intros [] ?|].
    eexists. split; [simpl; by rewrite !list_insert_insert_eq|]. done.
Qed.

Lemma right_op_build t k st :
  sweep_state op rhs sol opT rhsT t st -> (k < d)%nat ->
  ((S k < d)%nat ->
     slot_shape (stack_right_op st) (S k)
       [nth (S (S k)) (ranks t) 0; rop (S (S k)); nth (S (S k)) (ranks t) 0]%nat /\
     core_ok t (S k)) ->
  succeeds (construct_stack_right_op (Z.of_nat k) op sol) st (fun _ st' =>
    wrote_slot RightOp k
      [nth (S k) (ranks t) 0; rop (S k); nth (S k) (ranks t) 0]%nat st st').
Proof.
  intros (Hop & Hrhs & Hsol & Hframe & Hlens) Hk Hnext.
  pose proof (Hlens RightOp) as Hlen. simpl in Hlen.
  unfold construct_stack_right_op. do 4 exec.
  destruct (Z.eqb_spec (Z.of_nat k) (order opT - 1)) as [Hlast|Hnot].
  - eapply succeeds_set_stack; [simpl; apply py_set_nat; lia|].
    split; [done|]. split; [by intros [] ?|].
    eexists. split; [done|]. simpl.
    assert (S k = d) as Hd by (unfold order in Hlast; subst d; lia).
    destruct Hframe as (_ & _ & _ & _ & _ & _ & Hd1).
    destruct system as ((_ & _ & _ & _ & _ & Hopd) & _).
    subst rop. simpl. rewrite Hd. subst d. by rewrite Hd1, Hopd.
  - assert (S k < d)%nat as Hk' by (unfold order in Hnot; subst d; lia).
    destruct (Hnext Hk') as ((a & Ha & Hsa) & Hcore).
    replace (Z.of_nat k + 1) with (Z.of_nat (S k)) by lia.
    exec. eapply sol_core0_at; [done|done|done|lia|]. intros sc Hsc.
    get_stack_here. contract Hsc Hsa. put_stack.
    exec. apply op_core_at; [done|lia|]. intros oc Hoc.
    get_stack_here. contract Hoc Hsa. put_stack.
    exec. eapply sol_core0_at; [done|done|done|lia|]. intros sc' Hsc'.
    get_stack_here. contract Hsc' Hsa.
    eapply succeeds_set_stack;
      [simpl; apply py_set_nat; rewrite ?length_insert; lia|].
    split; [done|]. split; [by intros [] ?|].
    eexists. split; [simpl; by rewrite !list_insert_insert_eq|]. done.
Qed.

Lemma right_rhs_build t k st :
  sweep_state op rhs sol opT rhsT t st -> (k < d)%nat ->
  ((S k < d)%nat ->
     slot_shape (stack_right_rhs st) (S k)
       [rrhs (S (S k)); nth (S (S k)) (ranks t) 0]%nat /\
     core_ok t (S k)) ->
  succeeds (construct_stack_right_rhs (Z.of_nat k) rhs sol) st (fun _ st' =>
    wrote_slot RightRhs k [rrhs (S k); nth (S k) (ranks t) 0]%nat st st').
Proof.
  intros (Hop & Hrhs & Hsol & Hframe & Hlens) Hk Hnext.
  pose proof (Hlens RightRhs) as Hlen. simpl in Hlen.
  assert (length (cores rhsT) = d) as Hdr by (destruct system; tauto).
  unfold construct_stack_right_rhs. do 4 exec.
  destruct (Z.eqb_spec (Z.of_nat k) (order rhsT - 1)) as [Hlast|Hnot].
  - eapply succeeds_set_stack; [simpl; apply py_set_nat; lia|].
    split; [done|]. split; [by intros [] ?|].
    eexists. split; [done|]. simpl.
    assert (S k = d) as Hd by (unfold order in Hlast; lia).
    destruct Hframe as (_ & _ & _ & _ & _ & _ & Hd1).
    destruct system as (_ & (_ & _ & _ & _ & _ & Hrhsd) & _).
    subst rrhs. simpl. rewrite Hd. rewrite <- Hdr at 1. rewrite Hrhsd.
    subst d. by rewrite Hd1.
  - assert (S k < d)%nat as Hk' by (unfold order in Hnot; lia).
    destruct (Hnext Hk') as ((a & Ha & Hsa) & Hcore).
    replace (Z.of_nat k + 1) with (Z.of_nat (S k)) by lia.
    exec. eapply sol_core0_at; [done|done|done|lia|]. intros sc Hsc.
    get_stack_here. contract Hsc Hsa. put_stack.
    exec. apply rhs_core0_at; [done|lia|]. intros rc Hrc.
    get_stack_here. contract Hrc Hsa.
    eapply succeeds_set_stack;
      [simpl; apply py_set_nat; rewrite ?length_insert; lia|].
    split; [done|]. split; [by intros [] ?|].
    eexists. split; [simpl; by rewrite !list_insert_insert_eq|]. done.
Qed.

Ltac read_rank Hsol :=
  exec; eapply succeeds_get_rank; [exact Hsol|lia|].

Lemma micro_matrix_als_at t k st :
  sweep_state op rhs sol opT rhsT t st -> (k < d)%nat ->
  slot_shape (stack_left_op st) k
    [nth k (ranks t) 0; rop k; nth k (ranks t) 0]%nat ->
  slot_shape (stack_right_op st) k
    [nth (S k) (ranks t) 0; rop (S k); nth (S k) (ranks t) 0]%nat ->
  succeeds (construct_micro_matrix_als (Z.of_nat k) op sol) st (fun a st' =>
    heap st' = heap st /\ (forall s, stack_of s st' = stack_of s st) /\
    shape a = [nth k (ranks t) 0 * n k * nth (S k) (ranks t) 0;
               nth k (ranks t) 0 * n k * nth (S k) (ranks t) 0]%nat).
Proof.
  intros (Hop & Hrhs & Hsol & Hframe & Hlens) Hk (sl & Hsl & Hshl) (sr & Hsr & Hshr).
  destruct Hframe as (Hcores & Hranks & _).
  destruct system as ((_ & Hrows & _) & _ & _ & Hsq & _).
  unfold construct_micro_matrix_als. do 2 exec.
  replace (Z.of_nat k + 1) with (Z.of_nat (S k)) by lia.
  get_stack_here.
  exec. apply op_core_at; [done|done|]. intros oc Hoc.
  contract Hshl Hoc.
  get_stack_here.
  contract Hshr Hshr.
  exec. eapply succeeds_lift; [reflexivity|]. simpl.
  read_rank Hsol.
  exec. eapply succeeds_get_row_dim; [exact Hop|fold d; lia|].
  read_rank Hsol. read_rank Hsol.
  exec. eapply succeeds_get_col_dim; [exact Hop|rewrite Hsq; fold d; lia|].
  read_rank Hsol.
  apply succeeds_reshape; [rewrite Hsq; unfold size_of; simpl; fold (n k); lia|].
  split; [done|]. split; [done|]. simpl. by rewrite Hsq.
Qed.

Lemma micro_rhs_als_at t k st :
  sweep_state op rhs sol opT rhsT t st -> (k < d)%nat ->
  slot_shape (stack_left_rhs st) k [rrhs k; nth k (ranks t) 0]%nat ->
  slot_shape (stack_right_rhs st) k [rrhs (S k); nth (S k) (ranks t) 0]%nat ->
  succeeds (construct_micro_rhs_als (Z.of_nat k) rhs sol) st (fun b st' =>
    heap st' = heap st /\ (forall s, stack_of s st' = stack_of s st) /\
    shape b = [nth k (ranks t) 0 * n k * nth (S k) (ranks t) 0; 1]%nat).
Proof.
  intros (Hop & Hrhs & Hsol & Hframe & Hlens) Hk (sl & Hsl & Hshl) (sr & Hsr & Hshr).
  destruct Hframe as (Hcores & Hranks & _).
  destruct system as (_ & (_ & Hrows & _) & Hlen & _ & Hrow & _).
  unfold construct_micro_rhs_als. do 2 exec.
  replace (Z.of_nat k + 1) with (Z.of_nat (S k)) by lia.
  get_stack_here.
  exec. apply rhs_core0_at; [done|done|]. intros rc Hrc.
  contract Hshl Hrc.
  get_stack_here.
  contract Hshr Hshr.
  read_rank Hsol.
  exec. eapply succeeds_get_row_dim; [exact Hrhs|rewrite Hrows, Hlen; fold d; lia|].
  read_rank Hsol.
  apply succeeds_reshape; [rewrite Hrow; unfold size_of; simpl; fold (n k); lia|].
  split; [done|]. split; [done|]. simpl. by rewrite Hrow.
Qed.

(** ** The core update at one site *)

Lemma nth_insert_eq (l : list nat) i x :
  (i < length l)%nat -> nth i (<[i:=x]> l) 0%nat = x.
Proof. intros Hi. apply nth_lookup_Some. by apply list_lookup_insert_eq. Qed.

Lemma nth_insert_ne (l : list nat) i j x :
  i <> j -> nth j (<[i:=x]> l) 0%nat = nth j l 0%nat.
Proof. intros Hne. by rewrite !nth_lookup, list_lookup_insert_ne. Qed.

Lemma solve_with_square dd bad (a b : array) N k :
  shape a = [N; N] -> shape b = [N; k] ->
  solve_with dd bad a b
  = match dd a b with
    | Some x => Ok (NdArray [N; k] x)
    | None => Raise LinAlgError
    end.
Proof. intros Ha Hb. unfold solve_with. by rewrite Ha, Hb, Nat.eqb_refl. Qed.

(** The solution after a store to it. *)
Ltac sol_here :=
  simpl;
  first
    [ eassumption
    | apply list_lookup_insert_eq; rewrite ?length_insert;
      eapply lookup_lt_Some; eassumption ].

Lemma local_solve_als t k (a b : array) N solver st (rest : M unit) Q :
  solver = "solve" \/ solver = "lu" ->
  heap st !! sol = Some t -> (k < length (cores t))%nat ->
  shape a = [N; N] -> shape b = [N; 1%nat] ->
  (forall x st1, shape x = [N; 1%nat] ->
     heap st1 = <[sol:=with_cores t (<[k:=x]> (cores t))]> (heap st) ->
     (forall s, stack_of s st1 = stack_of s st) ->
     succeeds rest st1 Q) ->
  returns_or_singular
    ((if String.eqb solver "solve" then
        tick (EvSolve (Z.of_nat k)) ;;
        x <- lift (np_linalg_solve a b) ;;
        set_core sol (Z.of_nat k) x
      else ret tt) ;;
     (if String.eqb solver "lu" then
        tick (EvSolve (Z.of_nat k)) ;;
        lu <- lift (la_lu_factor a) ;;
        x <- lift (la_lu_solve lu b) ;;
        set_core sol (Z.of_nat k) x
      else ret tt) ;;
     rest) st Q.
Proof.
  intros Hsolver Hsol Hk Ha Hb Hrest. destruct Hsolver as [-> | ->]; simpl String.eqb.
  - apply ros_bind, ros_bind, ros_succeeds, succeeds_tick, ros_bind.
    unfold np_linalg_solve. rewrite (solve_with_square _ _ _ _ _ _ Ha Hb).
    destruct (d_np_solve a b) as [xd|].
    + eexists _, (Ok _). split; [reflexivity|].
      apply ros_succeeds. eapply succeeds_set_core; [exact Hsol|exact Hk|].
      apply ros_succeeds, succeeds_bind, succeeds_ret.
      eapply Hrest; [|reflexivity|]; done.
    + by eexists _, (Raise LinAlgError).
  - apply ros_succeeds. do 2 exec.
    apply succeeds_bind, succeeds_bind, succeeds_tick, succeeds_bind.
    eapply succeeds_lift; [unfold la_lu_factor; by rewrite Ha, Nat.eqb_refl|].
    apply succeeds_bind.
    eapply succeeds_lift;
      [unfold la_lu_solve; rewrite Hb; simpl; by rewrite Nat.eqb_refl|].
    eapply succeeds_set_core; [exact Hsol|exact Hk|].
    eapply Hrest; [|reflexivity|]; done.
Qed.

Ltac read_sol_rank :=
  exec; eapply succeeds_get_rank; [sol_here|simpl; rewrite ?length_insert; lia|];
  simpl.

Ltac read_sol_row Hrows Hoprows :=
  exec; eapply succeeds_get_row_dim;
    [sol_here|simpl; rewrite Hrows, Hoprows; lia|];
  simpl.

Ltac pure_step := exec; eapply succeeds_lift; [reflexivity|]; simpl.

Lemma update_als_forward t k (a b : array) solver st :
  solver = "solve" \/ solver = "lu" ->
  sweep_state op rhs sol opT rhsT t st -> (S k < d)%nat ->
  shape a = [nth k (ranks t) 0 * n k * nth (S k) (ranks t) 0;
             nth k (ranks t) 0 * n k * nth (S k) (ranks t) 0]%nat ->
  shape b = [nth k (ranks t) 0 * n k * nth (S k) (ranks t) 0; 1]%nat ->
  returns_or_singular
    (update_core_als (Z.of_nat k) a b sol solver "forward") st
    (fun _ st' => exists t',
       wrote_solution sol t' st st' /\ sol_frame opT t' /\
       ranks t'
       = <[S k:=(Nat.min (nth k (ranks t) 0 * n k) (nth (S k) (ranks t) 0))%nat]>
           (ranks t) /\
       core_ok t' k /\
       forall j, j <> k -> cores t' !! j = cores t !! j).
Proof.
  intros Hsolver (Hop & Hrhs & Hsol & Hframe & Hlens) Hk Ha Hb.
  pose proof Hframe as (Hcores & Hranks & Hrows & Hcols & Hone & H0 & Hd).
  destruct system as ((_ & Hoprows & _) & _).
  unfold update_core_als.
  eapply local_solve_als; [exact Hsolver|exact Hsol|fold d in Hcores; lia
                          |exact Ha|exact Hb|].
  intros x st1 Hx Hheap Hstacks.
  assert (heap st1 !! sol = Some (with_cores t (<[k:=x]> (cores t)))) as Hsol1.
  { rewrite Hheap. apply list_lookup_insert_eq. by eapply lookup_lt_Some. }
  simpl String.eqb. cbv iota.
  replace (Z.of_nat k + 1) with (Z.of_nat (S k)) by lia.
  apply succeeds_bind.
  exec. eapply succeeds_get_core;
    [exact Hsol1|simpl; apply py_get_nat, list_lookup_insert_eq; fold d in Hcores; lia|].
  read_sol_rank. read_sol_row Hrows Hoprows. read_sol_rank.
  exec. apply succeeds_reshape;
    [rewrite Hx, Hrows; unfold size_of; simpl; fold (n k); lia|].
  do 2 exec. simpl.
  pure_step. pure_step.
  exec. eapply succeeds_set_rank; [sol_here|simpl; lia|].
  read_sol_rank. read_sol_row Hrows Hoprows. read_sol_rank.
  rewrite nth_insert_eq by lia. rewrite nth_insert_ne by lia.
  exec. apply succeeds_reshape; [unfold size_of; simpl; lia|].
  eapply succeeds_set_core;
    [sol_here|simpl; rewrite ?length_insert; fold d in Hcores; lia|].
  apply succeeds_ret. eexists. split; [|split; [|split; [|split]]].
  - split; [simpl; rewrite Hheap; by rewrite !list_insert_insert_eq|].
    intros s. rewrite <- (Hstacks s). by destruct s.
  - unfold sol_frame. simpl. rewrite !length_insert.
    rewrite !nth_insert_ne by (fold d in Hcores |- *; lia). done.
  - simpl. by rewrite Hrows.
  - eexists. simpl. split; [apply list_lookup_insert_eq; rewrite ?length_insert;
                            fold d in Hcores; lia|].
    unfold core_shape. simpl.
    rewrite nth_insert_eq by lia. rewrite nth_insert_ne by lia.
    rewrite (Hone k) by (fold d; lia). by rewrite Hrows.
  - intros j Hj. simpl. rewrite ?list_insert_insert_eq.
    by rewrite list_lookup_insert_ne.
Qed.

Lemma update_als_backward t k (a b : array) solver st :
  solver = "solve" \/ solver = "lu" ->
  sweep_state op rhs sol opT rhsT t st -> (0 < k < d)%nat ->
  shape a = [nth k (ranks t) 0 * n k * nth (S k) (ranks t) 0;
             nth k (ranks t) 0 * n k * nth (S k) (ranks t) 0]%nat ->
  shape b = [nth k (ranks t) 0 * n k * nth (S k) (ranks t) 0; 1]%nat ->
  returns_or_singular
    (update_core_als (Z.of_nat k) a b sol solver "backward") st
    (fun _ st' => exists t',
       wrote_solution sol t' st st' /\ sol_frame opT t' /\
       ranks t'
       = <[k:=(Nat.min (nth k (ranks t) 0) (n k * nth (S k) (ranks t) 0))%nat]>
           (ranks t) /\
       core_ok t' k /\
       forall j, j <> k -> cores t' !! j = cores t !! j).
Proof.
  intros Hsolver (Hop & Hrhs & Hsol & Hframe & Hlens) Hk Ha Hb.
  pose proof Hframe as (Hcores & Hranks & Hrows & Hcols & Hone & H0 & Hd).
  destruct system as ((_ & Hoprows & _) & _).
  unfold update_core_als.
  eapply local_solve_als; [exact Hsolver|exact Hsol|fold d in Hcores; lia
                          |exact Ha|exact Hb|].
  intros x st1 Hx Hheap Hstacks.
  assert (heap st1 !! sol = Some (with_cores t (<[k:=x]> (cores t)))) as Hsol1.
  { rewrite Hheap. apply list_lookup_insert_eq. by eapply lookup_lt_Some. }
  simpl String.eqb. cbv iota.
  replace (0 <? Z.of_nat k) with true by (symmetry; apply Z.ltb_lt; lia).
  replace (Z.of_nat k + 1) with (Z.of_nat (S k)) by lia.
  apply succeeds_bind, succeeds_ret.
  exec. eapply succeeds_get_core;
    [exact Hsol1|simpl; apply py_get_nat, list_lookup_insert_eq; fold d in Hcores; lia|].
  read_sol_rank. read_sol_row Hrows Hoprows. read_sol_rank.
  exec. apply succeeds_reshape;
    [rewrite Hx, Hrows; unfold size_of; simpl; fold (n k); lia|].
  do 2 exec. simpl.
  pure_step. pure_step.
  exec. eapply succeeds_set_rank; [sol_here|simpl; lia|].
  read_sol_rank. read_sol_row Hrows Hoprows. read_sol_rank.
  rewrite nth_insert_eq by lia. rewrite nth_insert_ne by lia.
  exec. apply succeeds_reshape; [unfold size_of; simpl; lia|].
  eapply succeeds_set_core;
    [sol_here|simpl; rewrite ?length_insert; fold d in Hcores; lia|].
  eexists. split; [|split; [|split; [|split]]].
  - split; [simpl; rewrite Hheap; by rewrite !list_insert_insert_eq|].
    intros s. rewrite <- (Hstacks s). by destruct s.
  - unfold sol_frame. simpl. rewrite !length_insert.
    rewrite !nth_insert_ne by (fold d in Hcores |- *; lia). done.
  - simpl. by rewrite Hrows.
  - eexists. simpl. split; [apply list_lookup_insert_eq; rewrite ?length_insert;
                            fold d in Hcores; lia|].
    unfold core_shape. simpl.
    rewrite nth_insert_eq by lia. rewrite nth_insert_ne by lia.
    rewrite (Hone k) by (fold d; lia). by rewrite Hrows.
  - intros j Hj. simpl. rewrite ?list_insert_insert_eq.
    by rewrite list_lookup_insert_ne.
Qed.

Lemma update_als_backward0 t (a b : array) solver st :
  solver = "solve" \/ solver = "lu" ->
  sweep_state op rhs sol opT rhsT t st -> (0 < d)%nat ->
  shape a = [nth 0 (ranks t) 0 * n 0 * nth 1 (ranks t) 0;
             nth 0 (ranks t) 0 * n 0 * nth 1 (ranks t) 0]%nat ->
  shape b = [nth 0 (ranks t) 0 * n 0 * nth 1 (ranks t) 0; 1]%nat ->
  returns_or_singular
    (update_core_als 0 a b sol solver "backward") st
    (fun _ st' => exists t',
       wrote_solution sol t' st st' /\ sol_frame opT t' /\
       ranks t' = ranks t /\ core_ok t' 0 /\
       forall j, j <> 0%nat -> cores t' !! j = cores t !! j).
Proof.
  intros Hsolver (Hop & Hrhs & Hsol & Hframe & Hlens) Hk Ha Hb.
  pose proof Hframe as (Hcores & Hranks & Hrows & Hcols & Hone & H0 & Hd).
  destruct system as ((_ & Hoprows & _) & _).
  unfold update_core_als. change 0 with (Z.of_nat 0).
  eapply local_solve_als; [exact Hsolver|exact Hsol|fold d in Hcores; lia
                          |exact Ha|exact Hb|].
  intros x st1 Hx Hheap Hstacks.
  assert (heap st1 !! sol = Some (with_cores t (<[0%nat:=x]> (cores t)))) as Hsol1.
  { rewrite Hheap. apply list_lookup_insert_eq. by eapply lookup_lt_Some. }
  simpl String.eqb. cbv iota.
  replace (Z.of_nat 0 <? Z.of_nat 0) with false by done.
  replace (Z.of_nat 0 + 1) with (Z.of_nat 1) by lia.
  apply succeeds_bind, succeeds_ret.
  exec. eapply succeeds_get_core;
    [exact Hsol1|simpl; apply (py_get_nat _ 0), list_lookup_insert_eq;
                 fold d in Hcores; lia|].
  read_sol_rank. read_sol_row Hrows Hoprows. read_sol_rank.
  exec. apply succeeds_reshape;
    [rewrite Hx, Hrows; unfold size_of; simpl; fold (n 0%nat); lia|].
  eapply succeeds_set_core;
    [sol_here|simpl; rewrite ?length_insert; fold d in Hcores; lia|].
  eexists. split; [|split; [|split; [|split]]].
  - split; [simpl; rewrite Hheap; by rewrite !list_insert_insert_eq|].
    intros s. rewrite <- (Hstacks s). by destruct s.
  - unfold sol_frame. simpl. rewrite !length_insert. done.
  - done.
  - eexists. simpl. split; [apply list_lookup_insert_eq; rewrite ?length_insert;
                            fold d in Hcores; lia|].
    unfold core_shape. simpl.
    rewrite (Hone 0%nat) by (fold d; lia). done.
  - intros j Hj. simpl. rewrite ?list_insert_insert_eq.
    by rewrite list_lookup_insert_ne.
Qed.

(** ** What a write leaves in place *)

Lemma slot_shape_insert (l : list (option array)) k (a : array) :
  (k < length l)%nat -> slot_shape (<[k:=Some a]> l) k (shape a).
Proof. intros Hk. exists a. split; [by apply list_lookup_insert_eq|done]. Qed.

Lemma slot_shape_insert_ne (l : list (option array)) k j (a : array) shp :
  j <> k -> slot_shape l j shp -> slot_shape (<[k:=Some a]> l) j shp.
Proof.
  intros Hne (b & Hb & Hshp). exists b. split; [|done].
  by rewrite list_lookup_insert_ne.
Qed.

Lemma left_slots_ok_frame t t' st st' j :
  stack_left_op st' !! j = stack_left_op st !! j ->
  stack_left_rhs st' !! j = stack_left_rhs st !! j ->
  nth j (ranks t') 0%nat = nth j (ranks t) 0%nat ->
  left_slots_ok opT rhsT t st j -> left_slots_ok opT rhsT t' st' j.
Proof.
  intros Ha Hb Hr ((a & Hla & Hsa) & (b & Hlb & Hsb)).
  split; [exists a|exists b]; rewrite ?Ha, ?Hb, Hr; done.
Qed.

Lemma right_slots_ok_frame t t' st st' j :
  stack_right_op st' !! j = stack_right_op st !! j ->
  stack_right_rhs st' !! j = stack_right_rhs st !! j ->
  nth (S j) (ranks t') 0%nat = nth (S j) (ranks t) 0%nat ->
  right_slots_ok opT rhsT t st j -> right_slots_ok opT rhsT t' st' j.
Proof.
  intros Ha Hb Hr ((a & Hla & Hsa) & (b & Hlb & Hsb)).
  split; [exists a|exists b]; rewrite ?Ha, ?Hb, Hr; done.
Qed.

Lemma core_ok_frame t t' j :
  cores t' !! j = cores t !! j ->
  ranks t' = ranks t -> row_dims t' = row_dims t -> col_dims t' = col_dims t ->
  core_ok t j -> core_ok t' j.
Proof.
  intros Hc Hr Hrow Hcol (c & Hlook & Hshape). exists c.
  unfold core_shape. by rewrite Hc, Hr, Hrow, Hcol.
Qed.

Lemma wrote_slot_sweep_state s k shp t st st' :
  wrote_slot s k shp st st' ->
  sweep_state op rhs sol opT rhsT t st -> sweep_state op rhs sol opT rhsT t st'.
Proof.
  intros (Hh & Ho & a & Hs & _) (Hop & Hrhs & Hsol & Hframe & Hlens).
  unfold sweep_state. rewrite Hh. do 4 (split; [done|]).
  intros s'.
  assert (s' = s \/ s' <> s) as [->|Hne]
    by (destruct s, s'; (by left) || (by right)).
  - by rewrite Hs, length_insert.
  - by rewrite Ho.
Qed.

(** From here on the solution is at a location of its own. *)
Hypothesis op_not_sol : op <> sol.
Hypothesis rhs_not_sol : rhs <> sol.

Lemma wrote_solution_sweep_state t t' st st' :
  wrote_solution sol t' st st' -> sol_frame opT t' ->
  sweep_state op rhs sol opT rhsT t st -> sweep_state op rhs sol opT rhsT t' st'.
Proof.
  intros (Hh & Hs) Hframe' (Hop & Hrhs & Hsol & Hframe & Hlens).
  unfold sweep_state. rewrite Hh.
  rewrite !list_lookup_insert_ne by done.
  do 2 (split; [done|]).
  split; [apply list_lookup_insert_eq; by eapply lookup_lt_Some|].
  split; [done|]. intros s. by rewrite Hs.
Qed.

Lemma same_state_sweep_state t st st' :
  heap st' = heap st -> (forall s, stack_of s st' = stack_of s st) ->
  sweep_state op rhs sol opT rhsT t st -> sweep_state op rhs sol opT rhsT t st'.
Proof.
  intros Hh Hs (Hop & Hrhs & Hsol & Hframe & Hlens).
  unfold sweep_state. rewrite Hh. do 4 (split; [done|]).
  intros s. by rewrite Hs.
Qed.

(** ** One site of a half-sweep *)

Lemma left_stacks_site t i st :
  sweep_state op rhs sol opT rhsT t st -> (i < d)%nat ->
  (forall j, (j < i)%nat -> left_slots_ok opT rhsT t st j) ->
  ((0 < i)%nat -> core_ok t (i - 1)) ->
  succeeds
    (construct_stack_left_op (Z.of_nat i) op sol ;;
     construct_stack_left_rhs (Z.of_nat i) rhs sol) st
    (fun _ st' =>
       sweep_state op rhs sol opT rhsT t st' /\
       stack_right_op st' = stack_right_op st /\
       stack_right_rhs st' = stack_right_rhs st /\
       forall j, (j < S i)%nat -> left_slots_ok opT rhsT t st' j).
Proof.
  intros Hst Hi Hleft Hcore.
  eapply succeeds_then.
  { apply (left_op_build t i st Hst Hi). intros k' ->. split.
    - apply (Hleft k'). lia.
    - replace k' with (S k' - 1)%nat by lia. apply Hcore. lia. }
  intros [] st1 Hw1.
  pose proof (wrote_slot_sweep_state _ _ _ _ _ _ Hw1 Hst) as Hst1.
  destruct Hw1 as (Hh1 & Ho1 & a1 & Hs1 & Hsh1).
  pose proof (Ho1 LeftRhs ltac:(done)) as E1a.
  pose proof (Ho1 RightOp ltac:(done)) as E1b.
  pose proof (Ho1 RightRhs ltac:(done)) as E1c.
  simpl in Hs1, E1a, E1b, E1c.
  eapply succeeds_mono.
  { apply (left_rhs_build t i st1 Hst1 Hi). intros k' ->. split.
    - rewrite E1a. apply (Hleft k'). lia.
    - replace k' with (S k' - 1)%nat by lia. apply Hcore. lia. }
  intros [] st2 Hw2.
  pose proof (wrote_slot_sweep_state _ _ _ _ _ _ Hw2 Hst1) as Hst2.
  destruct Hw2 as (Hh2 & Ho2 & a2 & Hs2 & Hsh2).
  pose proof (Ho2 LeftOp ltac:(done)) as E2a.
  pose proof (Ho2 RightOp ltac:(done)) as E2b.
  pose proof (Ho2 RightRhs ltac:(done)) as E2c.
  simpl in Hs2, E2a, E2b, E2c.
  split; [done|]. split; [congruence|]. split; [congruence|].
  destruct Hst as (_ & _ & _ & _ & Hlens).
  pose proof (Hlens LeftOp) as HlenA. pose proof (Hlens LeftRhs) as HlenB.
  simpl in HlenA, HlenB.
  intros j Hj. destruct (decide (j = i)) as [->|Hne].
  - split.
    + exists a1. split; [|exact Hsh1].
      rewrite E2a, Hs1. apply list_lookup_insert_eq. lia.
    + exists a2. split; [|exact Hsh2].
      rewrite Hs2, E1a. apply list_lookup_insert_eq. lia.
  - apply (left_slots_ok_frame t t st st2 j); [| |done|apply Hleft; lia].
    + rewrite E2a, Hs1. by apply list_lookup_insert_ne.
    + rewrite Hs2, E1a. by apply list_lookup_insert_ne.
Qed.

Lemma right_stacks_site t i st :
  sweep_state op rhs sol opT rhsT t st -> (i < d)%nat ->
  (forall j, (S i <= j < d)%nat -> right_slots_ok opT rhsT t st j) ->
  ((S i < d)%nat -> core_ok t (S i)) ->
  succeeds
    (construct_stack_right_op (Z.of_nat i) op sol ;;
     construct_stack_right_rhs (Z.of_nat i) rhs sol) st
    (fun _ st' =>
       sweep_state op rhs sol opT rhsT t st' /\
       stack_left_op st' = stack_left_op st /\
       stack_left_rhs st' = stack_left_rhs st /\
       forall j, (i <= j < d)%nat -> right_slots_ok opT rhsT t st' j).
Proof.
  intros Hst Hi Hright Hcore.
  eapply succeeds_then.
  { apply (right_op_build t i st Hst Hi). intros Hlt. split.
    - apply (Hright (S i)). lia.
    - by apply Hcore. }
  intros [] st1 Hw1.
  pose proof (wrote_slot_sweep_state _ _ _ _ _ _ Hw1 Hst) as Hst1.
  destruct Hw1 as (Hh1 & Ho1 & a1 & Hs1 & Hsh1).
  pose proof (Ho1 LeftOp ltac:(done)) as E1a.
  pose proof (Ho1 LeftRhs ltac:(done)) as E1b.
  pose proof (Ho1 RightRhs ltac:(done)) as E1c.
  simpl in Hs1, E1a, E1b, E1c.
  eapply succeeds_mono.
  { apply (right_rhs_build t i st1 Hst1 Hi). intros Hlt. split.
    - rewrite E1c. apply (Hright (S i)). lia.
    - by apply Hcore. }
  intros [] st2 Hw2.
  pose proof (wrote_slot_sweep_state _ _ _ _ _ _ Hw2 Hst1) as Hst2.
  destruct Hw2 as (Hh2 & Ho2 & a2 & Hs2 & Hsh2).
  pose proof (Ho2 LeftOp ltac:(done)) as E2a.
  pose proof (Ho2 LeftRhs ltac:(done)) as E2b.
  pose proof (Ho2 RightOp ltac:(done)) as E2c.
  simpl in Hs2, E2a, E2b, E2c.
  split; [done|]. split; [congruence|]. split; [congruence|].
  destruct Hst as (_ & _ & _ & _ & Hlens).
  pose proof (Hlens RightOp) as HlenA. pose proof (Hlens RightRhs) as HlenB.
  simpl in HlenA, HlenB.
  intros j Hj. destruct (decide (j = i)) as [->|Hne].
  - split.
    + exists a1. split; [|exact Hsh1].
      rewrite E2c, Hs1. apply list_lookup_insert_eq. lia.
    + exists a2. split; [|exact Hsh2].
      rewrite Hs2, E1c. apply list_lookup_insert_eq. lia.
  - apply (right_slots_ok_frame t t st st2 j); [| |done|apply Hright; lia].
    + rewrite E2c, Hs1. by apply list_lookup_insert_ne.
    + rewrite Hs2, E1c. by apply list_lookup_insert_ne.
Qed.

Lemma bind_assoc {A B C} (m : M A) (f : A -> M B) (g : B -> M C) st :
  bind (bind m f) g st = bind m (fun a => bind (f a) g) st.
Proof. unfold bind. by destruct (m st) as [st1 [a|e]]. Qed.

Lemma ros_pair_then {A B C} (m1 : M A) (m2 : M B) (rest : M C) st P Q :
  succeeds (m1 ;; m2) st P ->
  (forall b st1, P b st1 -> returns_or_singular rest st1 Q) ->
  returns_or_singular (m1 ;; m2 ;; rest) st Q.
Proof.
  intros (st1 & b & Hrun & HP) Hrest.
  destruct (Hrest b st1 HP) as (st' & r & Hr & HQ). exists st', r.
  split; [|done].
  rewrite <- (bind_assoc m1 (fun _ => m2) (fun _ => rest)).
  by rewrite (bind_Ok _ _ _ _ _ Hrun).
Qed.

Lemma solve_site t i direction solver st (Q : unit -> state -> Prop) :
  sweep_state op rhs sol opT rhsT t st -> (i < d)%nat ->
  left_slots_ok opT rhsT t st i -> right_slots_ok opT rhsT t st i ->
  (forall (a b : array) st1,
     sweep_state op rhs sol opT rhsT t st1 ->
     heap st1 = heap st -> (forall s, stack_of s st1 = stack_of s st) ->
     shape a = [nth i (ranks t) 0 * n i * nth (S i) (ranks t) 0;
                nth i (ranks t) 0 * n i * nth (S i) (ranks t) 0]%nat ->
     shape b = [nth i (ranks t) 0 * n i * nth (S i) (ranks t) 0; 1]%nat ->
     returns_or_singular
       (update_core_als (Z.of_nat i) a b sol solver direction) st1 Q) ->
  returns_or_singular
    (micro_op <- construct_micro_matrix_als (Z.of_nat i) op sol ;;
     micro_rhs <- construct_micro_rhs_als (Z.of_nat i) rhs sol ;;
     update_core_als (Z.of_nat i) micro_op micro_rhs sol solver direction) st Q.
Proof.
  intros Hst Hi (Hlop & Hlrhs) (Hrop & Hrrhs) Hupdate.
  eapply ros_then; [by apply (micro_matrix_als_at t i st)|].
  intros a st1 (Hh1 & Hs1 & Ha).
  pose proof (same_state_sweep_state t st st1 Hh1 Hs1 Hst) as Hst1.
  eapply ros_then.
  { apply (micro_rhs_als_at t i st1 Hst1 Hi).
    - change (slot_shape (stack_of LeftRhs st1) i
                [rrhs i; nth i (ranks t) 0%nat]). by rewrite Hs1.
    - change (slot_shape (stack_of RightRhs st1) i
                [rrhs (S i); nth (S i) (ranks t) 0%nat]). by rewrite Hs1. }
  intros b st2 (Hh2 & Hs2 & Hb).
  pose proof (same_state_sweep_state t st1 st2 Hh2 Hs2 Hst1) as Hst2.
  apply Hupdate; [done|congruence| |done|done].
  intros s. by rewrite Hs2, Hs1.
Qed.

Lemma same_stacks_fields st st' :
  (forall s, stack_of s st' = stack_of s st) ->
  stack_left_op st' = stack_left_op st /\
  stack_left_rhs st' = stack_left_rhs st /\
  stack_right_op st' = stack_right_op st /\
  stack_right_rhs st' = stack_right_rhs st.
Proof.
  intros Hs.
  exact (conj (Hs LeftOp) (conj (Hs LeftRhs) (conj (Hs RightOp) (Hs RightRhs)))).
Qed.

(** After an update that has changed rank [r] only, the stacks that do
    not carry that rank still fit. *)
Lemma slots_after_update t t' st st' r v :
  wrote_solution sol t' st st' -> ranks t' = <[r:=v]> (ranks t) ->
  (forall j, j <> r -> left_slots_ok opT rhsT t st j ->
     left_slots_ok opT rhsT t' st' j) /\
  (forall j, S j <> r -> right_slots_ok opT rhsT t st j ->
     right_slots_ok opT rhsT t' st' j).
Proof.
  intros (_ & Hs) Hranks.
  destruct (same_stacks_fields _ _ Hs) as (E1 & E2 & E3 & E4).
  split; intros j Hj Hok.
  - apply (left_slots_ok_frame t t' st st' j); [| | |done].
    + by rewrite E1.
    + by rewrite E2.
    + rewrite Hranks. by apply nth_insert_ne.
  - apply (right_slots_ok_frame t t' st st' j); [| | |done].
    + by rewrite E3.
    + by rewrite E4.
    + rewrite Hranks. by apply nth_insert_ne.
Qed.

Lemma forward_site solver i st :
  solver = "solve" \/ solver = "lu" ->
  forward_inv op rhs sol opT rhsT i st -> (i < d)%nat ->
  returns_or_singular
    (construct_stack_left_op (Z.of_nat i) op sol ;;
     construct_stack_left_rhs (Z.of_nat i) rhs sol ;;
     n <- get_order op ;;
     if Z.of_nat i <? n - 1 then
       micro_op <- construct_micro_matrix_als (Z.of_nat i) op sol ;;
       micro_rhs <- construct_micro_rhs_als (Z.of_nat i) rhs sol ;;
       update_core_als (Z.of_nat i) micro_op micro_rhs sol solver "forward"
     else ret tt) st
    (fun _ st' => forward_inv op rhs sol opT rhsT (S i) st').
Proof.
  intros Hsolver (t & Hst & Hleft & Hcore & Hright) Hi.
  eapply ros_pair_then.
  { apply (left_stacks_site t i st Hst Hi Hleft).
    intros Hpos. apply Hcore. fold d. lia. }
  intros [] st2 (Hst2 & Ea & Eb & Hleft2).
  assert (forall j, (i <= j < d)%nat -> right_slots_ok opT rhsT t st2 j) as Hright2.
  { intros j Hj. apply (right_slots_ok_frame t t st st2 j);
      [by rewrite Ea|by rewrite Eb|done|by apply Hright]. }
  apply ros_bind, ros_succeeds.
  eapply succeeds_get_order; [apply Hst2|].
  destruct (Z.ltb_spec (Z.of_nat i) (order opT - 1)) as [Hlt|Hge].
  - assert (S i < d)%nat as Hi' by (unfold order in Hlt; fold d in Hlt; lia).
    apply (solve_site t i "forward" solver st2 _ Hst2 Hi);
      [apply Hleft2; lia|apply Hright2; lia|].
    intros a b st3 Hst3 Hh3 Hs3 Ha Hb.
    destruct (same_stacks_fields _ _ Hs3) as (E1 & E2 & E3 & E4).
    eapply ros_mono; [by apply (update_als_forward t i a b solver st3)|].
    intros [] st5 (t' & Hws & Hframe' & Hranks' & Hcore' & Hothers).
    destruct (slots_after_update t t' st3 st5 _ _ Hws Hranks') as [Hl Hr].
    exists t'. split; [by eapply wrote_solution_sweep_state|].
    split; [|split].
    + intros j Hj. apply Hl; [lia|].
      apply (left_slots_ok_frame t t st2 st3 j);
        [by rewrite E1|by rewrite E2|done|apply Hleft2; lia].
    + intros _. by replace (S i - 1)%nat with i by lia.
    + intros j Hj. apply Hr; [lia|].
      apply (right_slots_ok_frame t t st2 st3 j);
        [by rewrite E3|by rewrite E4|done|apply Hright2; lia].
  - assert (S i = d) as Hi' by (unfold order in Hge; fold d in Hge; lia).
    apply ros_ret. exists t. split; [done|]. split; [done|].
    split; [intros ?; unfold d in *; lia|intros j Hj; unfold d in *; lia].
Qed.

Lemma core_ok_keep t t' j :
  sol_frame opT t -> sol_frame opT t' -> (j < d)%nat ->
  cores t' !! j = cores t !! j ->
  nth j (ranks t') 0%nat = nth j (ranks t) 0%nat ->
  nth (S j) (ranks t') 0%nat = nth (S j) (ranks t) 0%nat ->
  core_ok t j -> core_ok t' j.
Proof.
  intros (_ & _ & Hrow & _ & Hcol & _) (_ & _ & Hrow' & _ & Hcol' & _) Hj
    Hc Hr Hr' (c & Hlook & Hshape).
  exists c. split; [by rewrite Hc|].
  unfold core_shape in *. by rewrite Hr, Hr', Hrow', Hcol', <- Hrow, <- (Hcol j).
Qed.

Lemma backward_site solver m st :
  solver = "solve" \/ solver = "lu" ->
  backward_inv op rhs sol opT rhsT (S m) st -> (m < d)%nat ->
  returns_or_singular
    (construct_stack_right_op (Z.of_nat m) op sol ;;
     construct_stack_right_rhs (Z.of_nat m) rhs sol ;;
     micro_op <- construct_micro_matrix_als (Z.of_nat m) op sol ;;
     micro_rhs <- construct_micro_rhs_als (Z.of_nat m) rhs sol ;;
     update_core_als (Z.of_nat m) micro_op micro_rhs sol solver "backward") st
    (fun _ st' => backward_inv op rhs sol opT rhsT m st').
Proof.
  intros Hsolver (t & Hst & Hleft & Hcores & Hright) Hm.
  eapply ros_pair_then.
  { apply (right_stacks_site t m st Hst Hm Hright).
    intros Hlt. apply Hcores. fold d. lia. }
  intros [] st2 (Hst2 & Ea & Eb & Hright2).
  assert (forall j, (j < S m)%nat -> left_slots_ok opT rhsT t st2 j) as Hleft2.
  { intros j Hj. apply (left_slots_ok_frame t t st st2 j);
      [by rewrite Ea|by rewrite Eb|done|by apply Hleft]. }
  apply (solve_site t m "backward" solver st2 _ Hst2 Hm);
    [apply Hleft2; lia|apply Hright2; lia|].
  intros a b st3 Hst3 Hh3 Hs3 Ha Hb.
  destruct (same_stacks_fields _ _ Hs3) as (E1 & E2 & E3 & E4).
  assert (returns_or_singular
            (update_core_als (Z.of_nat m) a b sol solver "backward") st3
            (fun _ st' => exists t',
               wrote_solution sol t' st3 st' /\ sol_frame opT t' /\
               (forall j, j <> m ->
                  nth j (ranks t') 0%nat = nth j (ranks t) 0%nat) /\
               core_ok t' m /\
               forall j, j <> m -> cores t' !! j = cores t !! j)) as Hupdate.
  { destruct m as [|m'].
    - eapply ros_mono; [apply (update_als_backward0 t a b solver st3);
                         [done|done|lia|done|done]|].
      intros [] st5 (t' & Hws & Hframe' & Hranks' & Hcore' & Hothers).
      exists t'. rewrite Hranks'. eauto.
    - eapply ros_mono; [apply (update_als_backward t (S m') a b solver st3);
                         [done|done|lia|done|done]|].
      intros [] st5 (t' & Hws & Hframe' & Hranks' & Hcore' & Hothers).
      exists t'. rewrite Hranks'.
      split; [done|]. split; [done|]. split; [|done].
      intros j Hj. by apply nth_insert_ne. }
  eapply ros_mono; [exact Hupdate|].
  intros [] st5 (t' & Hws & Hframe' & Hranks' & Hcore' & Hothers).
  destruct Hws as (Hh5 & Hs5).
  destruct (same_stacks_fields _ _ Hs5) as (F1 & F2 & F3 & F4).
  exists t'. split; [by eapply wrote_solution_sweep_state|].
  split; [|split].
  - intros j Hj. apply (left_slots_ok_frame t t' st2 st5 j);
      [by rewrite F1, E1|by rewrite F2, E2|apply Hranks'; lia|apply Hleft2; lia].
  - intros j Hj. destruct (decide (j = m)) as [->|Hne]; [done|].
    apply (core_ok_keep t t' j); [apply Hst|done|lia|by apply Hothers
                                 |apply Hranks'; lia|apply Hranks'; lia|].
    apply Hcores. fold d. lia.
  - intros j Hj. apply (right_slots_ok_frame t t' st2 st5 j);
      [by rewrite F3, E3|by rewrite F4, E4|apply Hranks'; lia|by apply Hright2].
Qed.

(** ** The half-sweeps and the repeats *)

Lemma forward_loop solver :
  solver = "solve" \/ solver = "lu" ->
  forall (k i : nat) st,
    (i + k = d)%nat -> forward_inv op rhs sol opT rhsT i st ->
    returns_or_singular
      (for_ (range_up (Z.of_nat i) (order opT)) (fun i =>
         construct_stack_left_op i op sol ;;
         construct_stack_left_rhs i rhs sol ;;
         n <- get_order op ;;
         if i <? n - 1 then
           micro_op <- construct_micro_matrix_als i op sol ;;
           micro_rhs <- construct_micro_rhs_als i rhs sol ;;
           update_core_als i micro_op micro_rhs sol solver "forward"
         else ret tt)) st
      (fun _ st' => forward_inv op rhs sol opT rhsT d st').
Proof.
  intros Hsolver. induction k as [|k IH]; intros i st Hik Hinv.
  - rewrite range_up_nil by (unfold order; fold d; lia).
    apply ros_ret. by replace d with i by lia.
  - rewrite range_up_cons by (unfold order; fold d; lia).
    cbn [for_]. apply ros_bind.
    eapply ros_mono; [apply (forward_site solver i st Hsolver Hinv); lia|].
    intros [] st1 Hinv1.
    replace (Z.of_nat i + 1) with (Z.of_nat (S i)) by lia.
    apply IH; [lia|done].
Qed.

Lemma backward_loop solver :
  solver = "solve" \/ solver = "lu" ->
  forall (m : nat) st,
    (m <= d)%nat -> backward_inv op rhs sol opT rhsT m st ->
    returns_or_singular
      (for_ (range_down (Z.of_nat m - 1) (-1)) (fun i =>
         construct_stack_right_op i op sol ;;
         construct_stack_right_rhs i rhs sol ;;
         micro_op <- construct_micro_matrix_als i op sol ;;
         micro_rhs <- construct_micro_rhs_als i rhs sol ;;
         update_core_als i micro_op micro_rhs sol solver "backward")) st
      (fun _ st' => backward_inv op rhs sol opT rhsT 0 st').
Proof.
  intros Hsolver. induction m as [|m IH]; intros st Hm Hinv.
  - rewrite range_down_nil by lia. by apply ros_ret.
  - rewrite range_down_cons by lia.
    replace (Z.of_nat (S m) - 1) with (Z.of_nat m) by lia.
    cbn [for_]. apply ros_bind.
    eapply ros_mono; [apply (backward_site solver m st Hsolver Hinv); lia|].
    intros [] st1 Hinv1. apply IH; [lia|done].
Qed.

Lemma forward_end_backward st :
  forward_inv op rhs sol opT rhsT d st -> backward_inv op rhs sol opT rhsT d st.
Proof.
  intros (t & Hst & Hleft & _ & _). exists t. split; [done|]. split; [done|].
  split; intros j Hj; unfold d in *; lia.
Qed.

Lemma backward_end_forward st :
  backward_inv op rhs sol opT rhsT 0 st -> forward_inv op rhs sol opT rhsT 0 st.
Proof.
  intros (t & Hst & _ & _ & Hright). exists t. split; [done|].
  split; [intros j Hj; lia|]. split; [lia|done].
Qed.

Lemma als_repeat solver st :
  solver = "solve" \/ solver = "lu" ->
  backward_inv op rhs sol opT rhsT 0 st ->
  returns_or_singular
    (als_first_half_sweep op rhs sol solver ;;
     als_second_half_sweep op rhs sol solver) st
    (fun _ st' => backward_inv op rhs sol opT rhsT 0 st').
Proof.
  intros Hsolver Hinv.
  pose proof (backward_end_forward st Hinv) as Hfwd.
  assert (heap st !! op = Some opT) as Hop by (destruct Hinv as (t & Hst & _); apply Hst).
  apply ros_bind. unfold als_first_half_sweep.
  apply ros_bind, ros_succeeds. eapply succeeds_get_order; [exact Hop|].
  eapply ros_mono.
  { apply (forward_loop solver Hsolver d 0 st); [lia|done]. }
  intros [] st1 Hinv1. apply forward_end_backward in Hinv1.
  assert (heap st1 !! op = Some opT) as Hop1
    by (destruct Hinv1 as (t & Hst & _); apply Hst).
  unfold als_second_half_sweep.
  apply ros_bind, ros_succeeds. eapply succeeds_get_order; [exact Hop1|].
  replace (order opT - 1) with (Z.of_nat d - 1) by done.
  by apply (backward_loop solver Hsolver d st1).
Qed.

Lemma als_repeats solver {A} (l : list A) st :
  solver = "solve" \/ solver = "lu" ->
  backward_inv op rhs sol opT rhsT 0 st ->
  returns_or_singular
    (for_ l (fun _ =>
       als_first_half_sweep op rhs sol solver ;;
       als_second_half_sweep op rhs sol solver)) st
    (fun _ st' => backward_inv op rhs sol opT rhsT 0 st').
Proof.
  intros Hsolver. revert st. induction l as [|x l IH]; intros st Hinv.
  - by apply ros_ret.
  - cbn [for_]. apply ros_bind.
    eapply ros_mono; [by apply als_repeat|].
    intros [] st1 Hinv1. by apply IH.
Qed.

Lemma initial_right_loop t :
  (forall j, (j < d)%nat -> core_ok t j) ->
  forall (m : nat) st,
    (m <= d)%nat -> sweep_state op rhs sol opT rhsT t st ->
    (forall j, (m <= j < d)%nat -> right_slots_ok opT rhsT t st j) ->
    succeeds
      (for_ (range_down (Z.of_nat m - 1) (-1)) (fun i =>
         construct_stack_right_op i op sol ;;
         construct_stack_right_rhs i rhs sol)) st
      (fun _ st' => backward_inv op rhs sol opT rhsT 0 st').
Proof.
  intros Hcores. induction m as [|m IH]; intros st Hm Hst Hright.
  - rewrite range_down_nil by lia. apply succeeds_ret.
    exists t. split; [done|]. split; [intros j Hj; lia|].
    split; intros j Hj; [apply Hcores|apply Hright]; unfold d in *; lia.
  - rewrite range_down_cons by lia.
    replace (Z.of_nat (S m) - 1) with (Z.of_nat m) by lia.
    cbn [for_]. eapply succeeds_then.
    { apply (right_stacks_site t m st Hst); [lia|done|].
      intros Hlt. by apply Hcores. }
    intros [] st1 (Hst1 & _ & _ & Hright1). apply IH; [lia|done|done].
Qed.

End AlsRuns.

(** ** ALS on a valid system *)

Lemma valid_system_frame opT igT rhsT :
  valid_system opT igT rhsT ->
  system_frame opT rhsT /\ sol_frame opT igT /\
  forall j, (j < length (cores opT))%nat -> core_ok igT j.
Proof.
  intros (Hop & Hig & Hrhs & Hleni & Hlenr & Hrow & Hcol & Hrrow & Hone).
  split; [|split].
  - do 3 (split; [done|]). split; [congruence|]. split; [congruence|].
    intros j Hj. by apply Hone.
  - destruct Hig as (Hr & Hrd & Hcd & _ & H0 & Hd).
    split; [done|]. split; [lia|]. split; [done|]. split; [lia|].
    split; [intros j Hj; by apply Hone|]. split; [done|]. by rewrite <- Hleni.
  - intros j Hj. apply (tt_wf_core igT j Hig). lia.
Qed.

Lemma solution_valid opT rhsT t :
  system_frame opT rhsT -> sol_frame opT t ->
  (forall j, (j < length (cores opT))%nat -> core_ok t j) ->
  valid_system opT t rhsT.
Proof.
  intros (Hop & Hrhs & Hlenr & Hsq & Hrrow & Hrone)
    (Hc & Hr & Hrow & Hcl & Hone & H0 & Hd) Hcores.
  pose proof Hop as (_ & Hoprows & _).
  split; [done|]. split.
  { split; [lia|]. split; [rewrite Hrow; lia|]. split; [lia|].
    split; [|split; [done|by rewrite Hc]].
    intros i c Hlook.
    destruct (Hcores i) as (c' & Hlook' & Hshape);
      [apply lookup_lt_Some in Hlook; lia|].
    congruence. }
  split; [done|]. split; [done|]. split; [done|].
  split; [done|]. split; [congruence|]. split; [congruence|].
  intros i Hi. split; [by apply Hone|by apply Hrone].
Qed.

(** X5. On a valid system and with a known solver, [als] returns or
    raises [LinAlgError], the exception of a singular micro matrix; it
    raises no index, shape or type error, whatever [repeats] is. What
    it returns is a new tensor that forms a valid system with the
    operator and the right-hand side: the order and mode sizes of the
    initial guess, boundary ranks 1, and every core of the shape its
    ranks give. Operator and right-hand side are where they were. *)
Theorem als_returns_valid_or_singular op ig rhs repeats solver opT igT rhsT st :
  valid_system opT igT rhsT ->
  heap st !! op = Some opT -> heap st !! ig = Some igT ->
  heap st !! rhs = Some rhsT ->
  solver = "solve" \/ solver = "lu" ->
  returns_or_singular (als op ig rhs repeats solver) st (fun sol st' =>
    sol = length (heap st) /\
    exists t', heap st' !! sol = Some t' /\ valid_system opT t' rhsT /\
      heap st' !! op = Some opT /\ heap st' !! rhs = Some rhsT).
Proof.
  intros Hvalid Hop Hig Hrhs Hsolver.
  destruct (valid_system_frame _ _ _ Hvalid) as (Hsys & Hframe & Hcores).
  set (sol := length (heap st)).
  assert (op <> sol) as Hne1 by (apply lookup_lt_Some in Hop; subst sol; lia).
  assert (rhs <> sol) as Hne2 by (apply lookup_lt_Some in Hrhs; subst sol; lia).
  unfold als. apply ros_bind, ros_succeeds.
  eapply succeeds_tt_copy; [exact Hig|]. fold sol.
  set (st0 := with_heap (heap st ++ [igT]) st).
  assert (heap st0 !! op = Some opT) as Hop0
    by (simpl; by apply lookup_app_l_Some).
  assert (heap st0 !! rhs = Some rhsT) as Hrhs0
    by (simpl; by apply lookup_app_l_Some).
  assert (heap st0 !! sol = Some igT) as Hsol0
    by (simpl; apply lookup_snoc_here).
  apply ros_bind, ros_succeeds.
  eapply succeeds_define_stacks; [exact Hop0|].
  intros st1 Hh1 Hl1 Hro Hrr Hlo Hlr.
  assert (sweep_state op rhs sol opT rhsT igT st1) as Hst1.
  { unfold sweep_state. rewrite Hh1. do 4 (split; [done|]). by intros []. }
  apply ros_bind, ros_succeeds.
  eapply succeeds_get_order; [apply Hst1|].
  apply ros_bind, ros_succeeds.
  replace (order opT - 1) with (Z.of_nat (length (cores opT)) - 1) by done.
  eapply succeeds_mono.
  { apply (initial_right_loop op rhs sol opT rhsT Hsys Hne1 Hne2 igT Hcores
             (length (cores opT)) st1); [lia|done|].
    intros j Hj. lia. }
  intros [] st2 Hinv.
  apply ros_bind.
  eapply ros_mono; [by apply (als_repeats op rhs sol opT rhsT Hsys Hne1 Hne2)|].
  intros [] st3 (t' & (Hop3 & Hrhs3 & Hsol3 & Hframe3 & _) & _ & Hcores3 & _).
  apply ros_ret. split; [done|]. exists t'. split; [done|].
  split; [|done]. apply solution_valid; [done|done|].
  intros j Hj. apply Hcores3. lia.
Qed.

(** ** The micro system and the update at one site *)

(** X6. During a sweep of ALS over a system whose stacks at site [i]
    fit the ranks, both assemblers return, and what they return is a
    well-formed linear system: a square matrix with
    [ranks[i] * row_dims[i] * ranks[i+1]] rows and columns and a
    right-hand side with as many rows and one column. *)
Theorem als_micro_system_is_square op rhs sol opT rhsT t (i : nat) st :
  system_frame opT rhsT -> sweep_state op rhs sol opT rhsT t st ->
  (i < length (cores opT))%nat ->
  left_slots_ok opT rhsT t st i -> right_slots_ok opT rhsT t st i ->
  let N := (nth i (ranks t) 0 * nth i (row_dims opT) 0
            * nth (S i) (ranks t) 0)%nat in
  succeeds (construct_micro_matrix_als (Z.of_nat i) op sol) st
    (fun a _ => shape a = [N; N]) /\
  succeeds (construct_micro_rhs_als (Z.of_nat i) rhs sol) st
    (fun b _ => shape b = [N; 1%nat]).
Proof.
  intros Hsys Hst Hi (Hlop & Hlrhs) (Hrop & Hrrhs) N. split.
  - eapply succeeds_mono;
      [by apply (micro_matrix_als_at op rhs sol opT rhsT Hsys t i st)|].
    by intros a st' (_ & _ & Ha).
  - eapply succeeds_mono;
      [by apply (micro_rhs_als_at op rhs sol opT rhsT Hsys t i st)|].
    by intros b st' (_ & _ & Hb).
Qed.

(** X7. A core update of ALS on a micro system of the right size, with
    a known solver, returns or raises [LinAlgError]. It replaces the
    solution and touches nothing else; of the solution it changes core
    [i], which afterwards has the shape its ranks give, and one rank:
    [ranks[i+1]] in a forward update, [ranks[i]] in a backward update at
    [i > 0], none in the backward update at site 0. *)
Theorem als_update_footprint op rhs sol opT rhsT t (i : nat) (a b : array)
    solver st :
  system_frame opT rhsT -> sweep_state op rhs sol opT rhsT t st ->
  (i < length (cores opT))%nat -> solver = "solve" \/ solver = "lu" ->
  let r0 := nth i (ranks t) 0%nat in
  let n0 := nth i (row_dims opT) 0%nat in
  let r1 := nth (S i) (ranks t) 0%nat in
  shape a = [r0 * n0 * r1; r0 * n0 * r1]%nat ->
  shape b = [r0 * n0 * r1; 1]%nat ->
  ((S i < length (cores opT))%nat ->
   returns_or_singular
     (update_core_als (Z.of_nat i) a b sol solver "forward") st
     (fun _ st' => exists t',
        wrote_solution sol t' st st' /\ sol_frame opT t' /\
        ranks t' = <[S i:=Nat.min (r0 * n0) r1]> (ranks t) /\
        core_ok t' i /\
        forall j, j <> i -> cores t' !! j = cores t !! j)) /\
  returns_or_singular
    (update_core_als (Z.of_nat i) a b sol solver "backward") st
    (fun _ st' => exists t',
       wrote_solution sol t' st st' /\ sol_frame opT t' /\
       ranks t' = (if (0 <? i)%nat then <[i:=Nat.min r0 (n0 * r1)]> (ranks t)
                   else ranks t) /\
       core_ok t' i /\
       forall j, j <> i -> cores t' !! j = cores t !! j).
Proof.
  intros Hsys Hst Hi Hsolver r0 n0 r1 Ha Hb. split.
  - intros Hi'. by apply (update_als_forward op rhs sol opT rhsT Hsys t i a b).
  - destruct i as [|i'].
    + by apply (update_als_backward0 op rhs sol opT rhsT Hsys t a b).
    + apply (update_als_backward op rhs sol opT rhsT Hsys t (S i') a b);
        [done|done|lia|done|done].
Qed.

End Logic.

(* ================================================================= *)
(** * The properties on the sample systems *)

#[local] Existing Instance shape_numerics.

Lemma sample_tt_wf3 rs ns ms :
  length rs = 4%nat -> length ns = 3%nat -> length ms = 3%nat ->
  nth 0 rs 0%nat = 1%nat -> nth 3 rs 0%nat = 1%nat ->
  tt_wf (sample_tt rs ns ms).
Proof.
  intros Hrs Hns Hms H0 H3. unfold tt_wf, sample_tt. simpl.
  rewrite length_map, length_seq, Hns.
  repeat split; try done.
  intros i c Hc. apply list_lookup_fmap_Some in Hc as (j & -> & Hj).
  apply lookup_seq in Hj as [-> _]. done.
Qed.

Lemma sample_valid3 : valid_system sample_op3 sample_x3 sample_b3.
Proof.
  repeat split; try (by apply sample_tt_wf3); try done;
    simpl in *; destruct i as [|[|[|]]]; simpl in *; (done || lia).
Qed.

(** ** Orders and configuration *)

(** The right-hand side of order 3 against operator and initial guess
    of order 4: the call raises after the first stack slot. *)
Lemma rhs_order_mismatch_on_sample :
  (exists st',
     als 0%nat 1%nat 2%nat 1 "solve" sample_state43 = (st', Raise IndexError) /\
     heap st' = heap sample_state43 ++ [sample_x4] /\
     log st' = log sample_state43 ++
       [EvStack RightOp (order sample_op4 - 1);
        EvStack RightRhs (order sample_op4 - 1)] /\
     stack_right_op st' !! Z.to_nat (order sample_op4 - 1)
     = Some (Some (np_ones_ndmin 3))) /\
  (2 <= order sample_op4 -> exists st',
     mals (H:=shape_numerics) 0%nat 1%nat 2%nat 1 "solve" 0%Q np_infty sample_state43
     = (st', Raise IndexError) /\
     heap st' = heap sample_state43 ++ [sample_x4] /\
     log st' = log sample_state43 ++
       [EvStack RightOp (order sample_op4 - 1);
        EvStack RightRhs (order sample_op4 - 1)] /\
     stack_right_op st' !! Z.to_nat (order sample_op4 - 1)
     = Some (Some (np_ones_ndmin 3))).
Proof.
  apply (rhs_order_mismatch_raises_late (H:=shape_numerics) 0%nat 1%nat 2%nat 1 "solve" 0%Q np_infty
           sample_op4 sample_x4 sample_b3 sample_state43);
    [reflexivity|reflexivity|reflexivity|reflexivity|vm_compute; discriminate
    |vm_compute; discriminate].
Defined.

(** An initial guess of order 4 against an operator and a right-hand
    side of order 3: both functions return a solution. *)
Lemma order_mismatch_is_accepted :
  order sample_op3 = 3 /\ order sample_x4_unit_bond = 4 /\
  order sample_b3 = 3 /\
  (als 0%nat 1%nat 2%nat 1 "solve" sample_state343).2 = Ok 3%nat /\
  (mals (H:=shape_numerics) 0%nat 1%nat 2%nat 1 "solve" 0%Q np_infty sample_state343).2 = Ok 3%nat.
Proof. vm_compute. repeat split. Qed.

(** The solver string ['cg'], a negative [repeats], a negative
    threshold and a negative cap. *)
Lemma configuration_on_sample :
  update_core_als 0 sample_micro_op sample_micro_rhs 1%nat "cg" "forward"
    sample_state3
  = update_core_als 0 (NdArray [8; 7]%nat tt) sample_micro_rhs 1%nat "cg"
      "forward" sample_state3 /\
  update_core_mals (H:=shape_numerics) 0 sample_micro_op sample_micro_rhs 1%nat "cg" "forward"
    (-1)%Q (cap (-2)) sample_state3
  = update_core_mals (H:=shape_numerics) 0 (NdArray [8; 7]%nat tt) sample_micro_rhs 1%nat "cg"
      "forward" (-1)%Q (cap (-2)) sample_state3 /\
  als 0%nat 1%nat 2%nat (-3) "solve" sample_state3
  = als 0%nat 1%nat 2%nat 0 "solve" sample_state3 /\
  mals (H:=shape_numerics) 0%nat 1%nat 2%nat (-3) "solve" (-1)%Q (cap (-2)) sample_state3
  = mals (H:=shape_numerics) 0%nat 1%nat 2%nat 0 "solve" (-1)%Q (cap (-2)) sample_state3 /\
  (np_linalg_solve sample_micro_op sample_micro_rhs = Raise LinAlgError ->
   update_core_als 0 sample_micro_op sample_micro_rhs 1%nat "solve" "forward"
     sample_state3
   = (with_log (log sample_state3 ++ [EvSolve 0]) sample_state3,
      Raise LinAlgError)) /\
  (la_solve sample_micro_op sample_micro_rhs = Raise LinAlgError ->
   update_core_mals (H:=shape_numerics) 0 sample_micro_op sample_micro_rhs 1%nat "solve" "forward"
     (-1)%Q (cap (-2)) sample_state3
   = (with_log (log sample_state3 ++ [EvSolve 0]) sample_state3,
      Raise LinAlgError)).
Proof.
  apply (configuration_is_not_validated (H:=shape_numerics) "cg" (-3) 0 sample_micro_op
           sample_micro_rhs (NdArray [8; 7]%nat tt) sample_micro_rhs 1%nat
           "forward" (-1)%Q (cap (-2)) 0%nat 1%nat 2%nat "solve" sample_state3
           LinAlgError); [discriminate|discriminate|lia].
Defined.

(** With the solver string ['cg'] the call returns a solution: every
    core has been factorized, no micro system has been solved. *)
Lemma unknown_solver_is_accepted :
  (als 0%nat 1%nat 2%nat 1 "cg" sample_state3).2 = Ok 3%nat /\
  In (EvFactor 0) (log (als 0%nat 1%nat 2%nat 1 "cg" sample_state3).1) /\
  (forall i, ~ In (EvSolve i) (log (als 0%nat 1%nat 2%nat 1 "cg" sample_state3).1)) /\
  (mals (H:=shape_numerics) 0%nat 1%nat 2%nat (-3) "cg" (-1)%Q (cap (-2)) sample_state3).2
  = Ok 3%nat.
Proof.
  vm_compute. split; [done|]. split; [tauto|]. split; [|done].
  intros i Hin. repeat (destruct Hin as [Hin|Hin]; [discriminate Hin|]).
  destruct Hin.
Qed.

(** ** Zero repeats, truncation and sweeps *)

Lemma als_zero_repeats_on_sample :
  exists st',
    als 0%nat 1%nat 2%nat 0 "solve" sample_state3
    = (st', Ok (length (heap sample_state3))) /\
    heap st' = heap sample_state3 ++ [sample_x3] /\
    log st' = log sample_state3 ++ initial_right_trace (order sample_op3 - 1) (-1).
Proof.
  apply (als_zero_repeats_returns_copy 0%nat 1%nat 2%nat "solve" sample_op3
           sample_x3 sample_b3 sample_state3 sample_valid3); reflexivity.
Defined.

(** A forward update of the pair (0, 1) of the order-3 sample with
    threshold 1/4 and cap 1: of the singular values 1 and 1/2 one is
    kept. *)
Lemma mals_update_truncation_on_sample :
  exists (m u v : ndarray D) (s s' : list F) (t' : TT),
    la_svd m = Ok (u, s, v) /\
    heap (update_core_mals (H:=shape_numerics) 0 sample_micro_op
            sample_micro_rhs 1%nat "solve" "forward" (1 # 4)%Q (cap 1)
            sample_state3).1 !! 1%nat = Some t' /\
    py_get (ranks t') (0 + 1) = Ok (length s') /\
    (forall k, cap 1 = cap k -> 0 <= k -> Z.of_nat (length s') <= k) /\
    (f_is_zero (1 # 4)%Q = false ->
       forall x, In x s' ->
         exists s0, head s = Some s0 /\ f_gt (f_div x s0) (1 # 4)%Q = true) /\
    (f_is_zero (1 # 4)%Q = true ->
       s' = match cap 1 with
            | np_infty => s
            | cap k => slice_list s (Z.min (Z.of_nat (length s)) k)
            end) /\
    (cap 1 = np_infty ->
       s' = if f_is_zero (1 # 4)%Q then s
            else match s with
                 | [] => []
                 | s0 :: _ => List.filter (fun x => f_gt (f_div x s0) (1 # 4)%Q) s
                 end).
Proof.
  apply (mals_update_truncation (H:=shape_numerics) 0 sample_micro_op
           sample_micro_rhs 1%nat "solve" "forward" (1 # 4)%Q (cap 1)
           sample_state3); [by left|reflexivity].
Defined.


(** ** Further properties *)

Lemma mals_zero_repeats_on_sample :
  exists st',
    mals (H:=shape_numerics) 0%nat 1%nat 2%nat 0 "solve" 0%Q np_infty sample_state3
    = (st', Ok (length (heap sample_state3))) /\
    heap st' = heap sample_state3 ++ [sample_x3] /\
    log st' = log sample_state3 ++ initial_right_trace (order sample_op3 - 1) 0.
Proof.
  apply (mals_zero_repeats_returns_copy (H:=shape_numerics) 0%nat 1%nat 2%nat
           "solve" 0%Q np_infty sample_op3 sample_x3 sample_b3 sample_state3
           sample_valid3); reflexivity.
Defined.

(** The direction ['sideways'] on the order-3 sample. *)
Lemma unknown_direction_on_sample :
  (update_core_als 0 sample_micro_op sample_micro_rhs 1%nat "solve" "sideways"
     sample_state3
   = ((update_core_als 0 sample_micro_op sample_micro_rhs 1%nat "solve"
         "sideways" sample_state3).1, Ok tt) ->
   exists (x : ndarray D) (t t' : TT) (m k : nat),
     np_linalg_solve sample_micro_op sample_micro_rhs = Ok x /\
     shape x = [m; k] /\
     heap sample_state3 !! 1%nat = Some t /\
     heap (update_core_als 0 sample_micro_op sample_micro_rhs 1%nat "solve"
             "sideways" sample_state3).1 !! 1%nat = Some t' /\
     py_get (cores t') 0 = Ok x /\ ranks t' = ranks t) /\
  (update_core_mals (H:=shape_numerics) 0 sample_micro_op sample_micro_rhs 1%nat
     "solve" "sideways" 0%Q np_infty sample_state3
   = ((update_core_als 0 sample_micro_op sample_micro_rhs 1%nat "solve"
         "sideways" sample_state3).1, Ok tt) ->
   exists (x : ndarray D) (t t' : TT) (m k : nat),
     la_solve sample_micro_op sample_micro_rhs = Ok x /\
     shape x = [m; k] /\
     heap sample_state3 !! 1%nat = Some t /\
     heap (update_core_als 0 sample_micro_op sample_micro_rhs 1%nat "solve"
             "sideways" sample_state3).1 !! 1%nat = Some t' /\
     py_get (cores t') 0 = Ok x /\ ranks t' = ranks t).
Proof.
  apply (unknown_direction_leaves_raw_vector (H:=shape_numerics) 0
           sample_micro_op sample_micro_rhs 1%nat "sideways" 0%Q np_infty
           sample_state3); discriminate.
Defined.

(** Two repeats of ALS on the order-3 sample. *)
Lemma als_returns_on_sample :
  returns_or_singular (als 0%nat 1%nat 2%nat 2 "solve") sample_state3
    (fun sol st' =>
       sol = length (heap sample_state3) /\
       exists t', heap st' !! sol = Some t' /\
         valid_system sample_op3 t' sample_b3 /\
         heap st' !! 0%nat = Some sample_op3 /\
         heap st' !! 2%nat = Some sample_b3).
Proof.
  apply (als_returns_valid_or_singular 0%nat 1%nat 2%nat 2 "solve" sample_op3
           sample_x3 sample_b3 sample_state3 sample_valid3);
    [reflexivity|reflexivity|reflexivity|by left].
Defined.

(** ** Site 0 of the order-3 sample *)

Lemma sample_system3 : system_frame sample_op3 sample_b3.
Proof. exact (proj1 (valid_system_frame _ _ _ sample_valid3)). Qed.

Lemma sample_site0_state :
  sweep_state 0%nat 2%nat 3%nat sample_op3 sample_b3 sample_x3 sample_site0.
Proof.
  split; [reflexivity|]. split; [reflexivity|]. split; [reflexivity|].
  split; [exact (proj1 (proj2 (valid_system_frame _ _ _ sample_valid3)))|].
  by intros [].
Qed.

Lemma sample_site0_left :
  left_slots_ok sample_op3 sample_b3 sample_x3 sample_site0 0.
Proof. split; eexists; split; reflexivity. Qed.

Lemma sample_site0_right :
  right_slots_ok sample_op3 sample_b3 sample_x3 sample_site0 0.
Proof. split; eexists; split; reflexivity. Qed.

Lemma als_micro_system_on_sample :
  let N := (nth 0 (ranks sample_x3) 0 * nth 0 (row_dims sample_op3) 0
            * nth 1 (ranks sample_x3) 0)%nat in
  succeeds (construct_micro_matrix_als (Z.of_nat 0) 0%nat 3%nat) sample_site0
    (fun a _ => shape a = [N; N]) /\
  succeeds (construct_micro_rhs_als (Z.of_nat 0) 2%nat 3%nat) sample_site0
    (fun b _ => shape b = [N; 1%nat]).
Proof.
  apply (als_micro_system_is_square 0%nat 2%nat 3%nat sample_op3 sample_b3
           sample_x3 0 sample_site0 sample_system3 sample_site0_state);
    [simpl; lia|exact sample_site0_left|exact sample_site0_right].
Defined.

Lemma als_update_footprint_on_sample :
  let r0 := nth 0 (ranks sample_x3) 0%nat in
  let n0 := nth 0 (row_dims sample_op3) 0%nat in
  let r1 := nth 1 (ranks sample_x3) 0%nat in
  ((1 < length (cores sample_op3))%nat ->
   returns_or_singular
     (update_core_als (Z.of_nat 0) sample_site_op sample_site_rhs 3%nat
        "solve" "forward") sample_site0
     (fun _ st' => exists t',
        wrote_solution 3%nat t' sample_site0 st' /\
        sol_frame sample_op3 t' /\
        ranks t' = <[1%nat:=Nat.min (r0 * n0) r1]> (ranks sample_x3) /\
        core_ok t' 0 /\
        forall j, j <> 0%nat -> cores t' !! j = cores sample_x3 !! j)) /\
  returns_or_singular
    (update_core_als (Z.of_nat 0) sample_site_op sample_site_rhs 3%nat
       "solve" "backward") sample_site0
    (fun _ st' => exists t',
       wrote_solution 3%nat t' sample_site0 st' /\
       sol_frame sample_op3 t' /\
       ranks t' = (if (0 <? 0)%nat
                   then <[0%nat:=Nat.min r0 (n0 * r1)]> (ranks sample_x3)
                   else ranks sample_x3) /\
       core_ok t' 0 /\
       forall j, j <> 0%nat -> cores t' !! j = cores sample_x3 !! j).
Proof.
  apply (als_update_footprint 0%nat 2%nat 3%nat sample_op3 sample_b3 sample_x3
           0 sample_site_op sample_site_rhs "solve" sample_site0
           sample_system3 sample_site0_state);
    [simpl; lia|by left|reflexivity|reflexivity].
Defined.
